(** * SQL text-analysis tools and quality scorers

    A shallow embedding of [src/mastra/tools/sql-tool.ts] (validateSQL,
    formatSQL, getSchemaInfo, explainSQL, optimizeSQL and the validator
    tool), of the [preprocess] and [generateScore] stages of
    [src/mastra/scorers/sql-scorer.ts] and of the step of
    [src/mastra/workflows/sql-workflow.ts].

    Strings are lists of characters.  The model covers ASCII text: the
    case mappings act on the letters a-z / A-Z only, white space is the
    ASCII part of the class [\s] and word characters are [A-Za-z0-9_].
    Numbers are IEEE-754 binary64 values (Rocq's primitive floats), which
    is what a JavaScript number is. *)

From Stdlib Require Import Ascii String List Bool Arith Lia.
From Stdlib Require Import ZArith Floats.
Import ListNotations.

Set Implicit Arguments.
#[local] Set Warnings "-inexact-float".

(** ** JavaScript strings *)

Module JS.

Definition str := list ascii.

Coercion list_ascii_of_string : string >-> list.


Definition code (c : ascii) : nat := nat_of_ascii c.

Definition between (lo hi : nat) (c : ascii) : bool :=
  (lo <=? code c) && (code c <=? hi).

Definition is_lower (c : ascii) : bool := between 97 122 c.
Definition is_upper (c : ascii) : bool := between 65 90 c.
Definition is_digit (c : ascii) : bool := between 48 57 c.

(** The class [\s] (and what [trim] strips): TAB, LF, VT, FF, CR, space. *)
Definition is_space (c : ascii) : bool :=
  between 9 13 c || (code c =? 32).

(** The class [\w]. *)
Definition is_word (c : ascii) : bool :=
  is_lower c || is_upper c || is_digit c || (code c =? 95).

(** What [.] refuses: the line terminators LF and CR. *)
Definition is_line_terminator (c : ascii) : bool :=
  (code c =? 10) || (code c =? 13).

Definition upper (c : ascii) : ascii :=
  if is_lower c then ascii_of_nat (code c - 32) else c.

Definition lower (c : ascii) : ascii :=
  if is_upper c then ascii_of_nat (code c + 32) else c.

Definition toUpperCase (s : str) : str := map upper s.
Definition toLowerCase (s : str) : str := map lower s.

Definition ascii_eqb (a b : ascii) : bool := Ascii.eqb a b.

Fixpoint str_eqb (a b : str) : bool :=
  match a, b with
  | [], [] => true
  | x :: a', y :: b' => ascii_eqb x y && str_eqb a' b'
  | _, _ => false
  end.

(** [trimStart], [trimEnd], [trim]. *)
Fixpoint trimStart (s : str) : str :=
  match s with
  | c :: s' => if is_space c then trimStart s' else s
  | [] => []
  end.

Definition trimEnd (s : str) : str := rev (trimStart (rev s)).

Definition trim (s : str) : str := trimEnd (trimStart s).

(** [s.startsWith(pat)] and [s.includes(pat)]. *)
Fixpoint startsWith (pat s : str) : bool :=
  match pat, s with
  | [], _ => true
  | p :: pat', c :: s' => ascii_eqb p c && startsWith pat' s'
  | _ :: _, [] => false
  end.

Fixpoint includes (s pat : str) : bool :=
  startsWith pat s ||
  match s with
  | [] => false
  | _ :: s' => includes s' pat
  end.

(** [s.split("\n")]: always at least one piece. *)
Fixpoint split_nl (s : str) : list str :=
  match s with
  | [] => [[]]
  | c :: s' =>
      if code c =? 10 then [] :: split_nl s'
      else match split_nl s' with
           | l :: ls => (c :: l) :: ls
           | [] => [[c]]
           end
  end.

(** [lines.join(sep)]. *)
Fixpoint join (sep : str) (ls : list str) : str :=
  match ls with
  | [] => []
  | [l] => l
  | l :: ls' => l ++ sep ++ join sep ls'
  end.

(** [Array.prototype.some]. *)
Definition some {A} (p : A -> bool) (l : list A) : bool := existsb p l.

End JS.

Import JS.

(** ** Regular expressions

    A pattern is a matcher: from the text at the current position it gives
    the remainders left by every way of matching there, in the order a
    backtracking engine tries them (greedy quantifiers first try the
    longest run). *)

Module Regex.

Definition matcher := str -> list str.

(** One character of a class. *)
Definition chr (p : ascii -> bool) : matcher :=
  fun s => match s with
           | c :: s' => if p c then [s'] else []
           | [] => []
           end.

(** A literal; with the flag [i] both sides are canonicalised by [upper]. *)
Fixpoint lit_gen (i : bool) (pat : str) : matcher :=
  fun s => match pat with
           | [] => [s]
           | p :: pat' =>
               match s with
               | c :: s' =>
                   if (if i then ascii_eqb (upper p) (upper c) else ascii_eqb p c)
                   then lit_gen i pat' s' else []
               | [] => []
               end
           end.

Definition lit := lit_gen false.
Definition lit_i := lit_gen true.

Definition seq (m1 m2 : matcher) : matcher := fun s => flat_map m2 (m1 s).
Definition alt (m1 m2 : matcher) : matcher := fun s => m1 s ++ m2 s.

(** [c*] for a class [c], greedy. *)
Fixpoint star (p : ascii -> bool) (s : str) : list str :=
  match s with
  | c :: s' => if p c then star p s' ++ [s] else [s]
  | [] => [[]]
  end.

(** [c+]. *)
Definition plus (p : ascii -> bool) : matcher := seq (chr p) (star p).

(** [.]: anything but a line terminator. *)
Definition dot (c : ascii) : bool := negb (is_line_terminator c).

Definition matches_here (m : matcher) (s : str) : bool :=
  match m s with
  | [] => false
  | _ :: _ => true
  end.

(** [re.test(s)], also the truth value of [s.match(re)] without flag [g]:
    is there a position where the pattern matches. *)
Fixpoint test (m : matcher) (s : str) : bool :=
  matches_here m s ||
  match s with
  | [] => false
  | _ :: s' => test m s'
  end.

(** The longest prefix in a class, as a greedy final group captures it. *)
Fixpoint take_while (p : ascii -> bool) (s : str) : str :=
  match s with
  | c :: s' => if p c then c :: take_while p s' else []
  | [] => []
  end.

(** Group 1 of the first match of [m(\w+)] at the head of [s]: the first
    remainder of [m] that is followed by a word character. *)
Definition capture_word_here (m : matcher) (s : str) : option str :=
  match filter (fun r => 0 <? length (take_while is_word r)) (m s) with
  | r :: _ => Some (take_while is_word r)
  | [] => None
  end.

(** Group 1 of [s.match(/m(\w+)/)]: leftmost position first. *)
Fixpoint capture_word (m : matcher) (s : str) : option str :=
  match capture_word_here m s with
  | Some w => Some w
  | None => match s with
            | [] => None
            | _ :: s' => capture_word m s'
            end
  end.

(** The boundary assertion between the character before the position
    (none at the start) and the text from the position on. *)
Definition boundary (prev : option ascii) (s : str) : bool :=
  xorb (match prev with Some c => is_word c | None => false end)
       (match s with c :: _ => is_word c | [] => false end).

(** Does literal [pat] match at the head of [s] under flag [i]; with the
    last character consumed (or [prev] for an empty literal) and the rest. *)
Fixpoint strip_i (pat : str) (prev : option ascii) (s : str)
  : option (option ascii * str) :=
  match pat with
  | [] => Some (prev, s)
  | p :: pat' =>
      match s with
      | c :: s' =>
          if ascii_eqb (upper p) (upper c) then strip_i pat' (Some c) s' else None
      | [] => None
      end
  end.

(** [/pat/i] at this position, between two boundaries when [b]. *)
Definition lit_here (b : bool) (pat : str) (prev : option ascii) (s : str) : bool :=
  match strip_i pat prev s with
  | Some (last, rest) => negb b || (boundary prev s && boundary last rest)
  | None => false
  end.

(** [s.replace(/pat/gi, rep)] for a non-empty literal, and
    [s.replace(/\bpat\b/gi, rep)] when [b]: scan from the left; at a match
    write [rep] and resume after it, else copy one character.  [skip]
    counts the characters of the current match still to pass over; [prev]
    is the character before the position. *)
Fixpoint replace_scan (b : bool) (pat rep : str) (skip : nat)
  (prev : option ascii) (s : str) : str :=
  match s with
  | [] => []
  | c :: s' =>
      match skip with
      | S k => replace_scan b pat rep k (Some c) s'
      | O =>
          if lit_here b pat prev s
          then rep ++ replace_scan b pat rep (length pat - 1) (Some c) s'
          else c :: replace_scan b pat rep 0 (Some c) s'
      end
  end.

Definition replace_all_i (pat rep : str) (s : str) : str :=
  replace_scan false pat rep 0 None s.

Definition replace_all_word_i (pat rep : str) (s : str) : str :=
  replace_scan true pat rep 0 None s.

(** [s.replace(/\s+/g, " ")]; [in_run] tells that the run of white space
    at the position has been replaced already. *)
Fixpoint replace_ws_runs (in_run : bool) (s : str) : str :=
  match s with
  | [] => []
  | c :: s' =>
      if is_space c
      then (if in_run then replace_ws_runs true s'
            else " "%char :: replace_ws_runs true s')
      else c :: replace_ws_runs false s'
  end.

End Regex.

Import Regex.

(** ** src/mastra/tools/sql-tool.ts *)

Module SqlTool.

Definition nl : ascii := "010"%char.
Definition dquote : ascii := "034"%char.

Record ValidationResult := {
  isValid : bool;
  formatted : str;
  warnings : list str;
  suggestions : list str
}.

Definition no_keywords_warning : str :=
  "Query does not contain standard SQL keywords"%string.
Definition select_star_warning : str :=
  "Using SELECT * can impact performance. Consider specifying columns explicitly."%string.
Definition no_where_warning : str :=
  "UPDATE/DELETE without WHERE clause will affect all rows. Be cautious!"%string.
Definition join_type_suggestion : str :=
  "Consider using explicit JOIN type (INNER, LEFT, RIGHT, etc.) for clarity"%string.
Definition postgresql_suggestion : str :=
  "PostgreSQL supports RETURNING clause for INSERT/UPDATE/DELETE operations"%string.
Definition mysql_suggestion : str :=
  "MySQL supports LIMIT clause for result pagination"%string.

Definition sqlKeywords : list str :=
  map list_ascii_of_string
    ["SELECT"; "INSERT"; "UPDATE"; "DELETE"; "CREATE"; "DROP"; "ALTER";
     "FROM"; "WHERE"; "JOIN"]%string.

(** The formatter's keyword list, in the order it is walked. *)
Definition keywords : list str :=
  map list_ascii_of_string
    ["SELECT"; "FROM"; "WHERE"; "JOIN"; "INNER JOIN"; "LEFT JOIN";
     "RIGHT JOIN"; "GROUP BY"; "HAVING"; "ORDER BY"; "LIMIT"; "OFFSET";
     "INSERT INTO"; "VALUES"; "UPDATE"; "SET"; "DELETE FROM"]%string.

(** One turn of the [forEach]: [/\bkeyword\b/gi] becomes a line break
    and the keyword in upper case. *)
Definition format_keyword (formatted keyword : str) : str :=
  replace_all_word_i keyword (nl :: toUpperCase keyword) formatted.

Definition formatSQL (sql : str) : str :=
  let formatted := trim (replace_ws_runs false sql) in
  let formatted := fold_left format_keyword keywords formatted in
  join [nl]
    (filter (fun line => 0 <? length line)
       (map trim (split_nl formatted))).

(** [/INNER|LEFT|RIGHT|FULL|CROSS\s+JOIN/]: the alternation is at top
    level, so [\s+JOIN] belongs to the last alternative only. *)
Definition join_type_re : matcher :=
  alt (lit "INNER"%string)
   (alt (lit "LEFT"%string)
     (alt (lit "RIGHT"%string)
       (alt (lit "FULL"%string)
            (seq (lit "CROSS"%string) (seq (plus is_space) (lit "JOIN"%string)))))).

Definition push {A} (l : list A) (x : A) : list A := l ++ [x].

Definition validateSQL (sql dialect : str) : ValidationResult :=
  let warnings : list str := [] in
  let suggestions : list str := [] in
  let isValid := true in
  let trimmedSQL := trim sql in
  let hasKeyword :=
    some (fun keyword => includes (toUpperCase trimmedSQL) keyword) sqlKeywords in
  let '(isValid, warnings) :=
    if negb hasKeyword then (false, push warnings no_keywords_warning)
    else (isValid, warnings) in
  let warnings :=
    if includes (toUpperCase trimmedSQL) "SELECT *"%string
    then push warnings select_star_warning else warnings in
  let warnings :=
    if (includes (toUpperCase trimmedSQL) "UPDATE"%string
        || includes (toUpperCase trimmedSQL) "DELETE"%string)
       && negb (includes (toUpperCase trimmedSQL) "WHERE"%string)
    then push warnings no_where_warning else warnings in
  let suggestions :=
    if includes (toUpperCase trimmedSQL) "JOIN"%string
       && negb (test join_type_re (toUpperCase trimmedSQL))
    then push suggestions join_type_suggestion else suggestions in
  let formatted := formatSQL trimmedSQL in
  let suggestions :=
    if str_eqb dialect "postgresql"%string
    then push suggestions postgresql_suggestion
    else if str_eqb dialect "mysql"%string
    then push suggestions mysql_suggestion
    else suggestions in
  {| isValid := isValid; formatted := formatted;
     warnings := warnings; suggestions := suggestions |}.

(** *** getSchemaInfo

    [schemas] is an object literal, so a property that is not its own is
    looked up on [Object.prototype]; the values such a lookup can give are
    the three records, the prototype object itself and its methods. *)

Record SchemaInfo := {
  commonColumns : list str;
  relationships : list str;
  examples : list str
}.

Inductive value :=
| VUndefined
| VSchema (r : SchemaInfo)
| VObjectPrototype
| VFunction (name : string).

(** ToBoolean: objects and functions are truthy, [undefined] is not. *)
Definition truthy (v : value) : bool :=
  match v with
  | VUndefined => false
  | _ => true
  end.

(** [a || b]. *)
Definition or_else (a b : value) : value := if truthy a then a else b.

Definition strs (l : list string) : list str := map list_ascii_of_string l.

Definition users_schema : SchemaInfo := {|
  commonColumns := strs
    ["id"; "username"; "email"; "password_hash"; "created_at"; "updated_at";
     "first_name"; "last_name"; "is_active"]%string;
  relationships := strs
    ["users have many orders"; "users have many posts";
     "users belong to many roles"]%string;
  examples := strs
    ["SELECT * FROM users WHERE email = 'user@example.com'";
     "SELECT id, username, email FROM users WHERE is_active = true ORDER BY created_at DESC";
     "SELECT COUNT(*) FROM users WHERE created_at > '2024-01-01'"]%string
|}.

Definition products_schema : SchemaInfo := {|
  commonColumns := strs
    ["id"; "name"; "description"; "price"; "stock_quantity"; "category_id";
     "sku"; "created_at"; "updated_at"]%string;
  relationships := strs
    ["products belong to categories"; "products have many order_items";
     "products have many reviews"]%string;
  examples := strs
    ["SELECT * FROM products WHERE price < 100 AND stock_quantity > 0";
     "SELECT name, price FROM products WHERE category_id = 5 ORDER BY price ASC";
     "SELECT AVG(price) as avg_price FROM products GROUP BY category_id"]%string
|}.

Definition orders_schema : SchemaInfo := {|
  commonColumns := strs
    ["id"; "user_id"; "total_amount"; "status"; "order_date";
     "shipping_address"; "payment_method"; "created_at"]%string;
  relationships := strs
    ["orders belong to users"; "orders have many order_items";
     "orders have one payment"]%string;
  examples := strs
    ["SELECT * FROM orders WHERE user_id = 123 ORDER BY order_date DESC";
     "SELECT COUNT(*) as order_count, SUM(total_amount) as total_revenue FROM orders WHERE status = 'completed'";
     "SELECT o.id, u.username FROM orders o JOIN users u ON o.user_id = u.id"]%string
|}.

(** The own properties of [schemas]. *)
Definition schemas : list (str * SchemaInfo) :=
  [("users"%string : str, users_schema);
   ("products"%string : str, products_schema);
   ("orders"%string : str, orders_schema)].

(** The properties of [Object.prototype]; [__proto__] is an accessor that
    gives the prototype of the receiver, here [Object.prototype]. *)
Definition object_prototype : list (str * value) :=
  [("constructor"%string : str, VFunction "Object");
   ("__defineGetter__"%string : str, VFunction "__defineGetter__");
   ("__defineSetter__"%string : str, VFunction "__defineSetter__");
   ("hasOwnProperty"%string : str, VFunction "hasOwnProperty");
   ("__lookupGetter__"%string : str, VFunction "__lookupGetter__");
   ("__lookupSetter__"%string : str, VFunction "__lookupSetter__");
   ("isPrototypeOf"%string : str, VFunction "isPrototypeOf");
   ("propertyIsEnumerable"%string : str, VFunction "propertyIsEnumerable");
   ("toString"%string : str, VFunction "toString");
   ("valueOf"%string : str, VFunction "valueOf");
   ("__proto__"%string : str, VObjectPrototype);
   ("toLocaleString"%string : str, VFunction "toLocaleString")].

Fixpoint assoc {A} (key : str) (l : list (str * A)) : option A :=
  match l with
  | [] => None
  | (k, v) :: l' => if str_eqb k key then Some v else assoc key l'
  end.

(** [schemas[key]]: own property first, then the prototype. *)
Definition get_schemas (key : str) : value :=
  match assoc key schemas with
  | Some r => VSchema r
  | None => match assoc key object_prototype with
            | Some v => v
            | None => VUndefined
            end
  end.

Definition fallback_schema (tableType : str) : SchemaInfo := {|
  commonColumns := strs ["id"; "name"; "created_at"; "updated_at"]%string;
  relationships := strs ["Depends on your specific database schema"]%string;
  examples := [("SELECT * FROM "%string : str) ++ tableType ++ (" LIMIT 10"%string : str)]
|}.

Definition getSchemaInfo (tableType : str) : value :=
  let lowerTableType := toLowerCase tableType in
  let schema :=
    or_else (get_schemas lowerTableType) (VSchema (fallback_schema tableType)) in
  schema.

(** *** explainSQL *)

Record Component := { part : str; description : str }.

Record ExplanationResult := {
  explanation : str;
  components : list Component
}.

Definition comp (p d : str) : Component := {| part := p; description := d |}.

(** [/SELECT\s+\*/i] *)
Definition select_star_re : matcher :=
  seq (lit_i "SELECT"%string) (seq (plus is_space) (lit_i "*"%string)).

(** [/FROM\s+(\w+)/i], up to the group. *)
Definition from_re : matcher :=
  seq (lit_i "FROM"%string) (plus is_space).

(** The two accumulators of explainSQL: [explanation += frag] and
    [components.push(c)]. *)
Definition say (st : str * list Component) (frag : str) (c : Component)
  : str * list Component :=
  (fst st ++ frag, push (snd st) c).

Definition explainSQL (sql : str) : ExplanationResult :=
  let upperSQL := toUpperCase sql in
  let st : str * list Component := ("This SQL query "%string : str, []) in
  let st :=
    if includes upperSQL "SELECT"%string then
      let st := say st "retrieves data "%string
                  (comp "SELECT"%string "Specifies which columns to retrieve"%string) in
      if test select_star_re sql
      then (fst st, push (snd st)
              (comp "SELECT *"%string "Selects all columns from the table"%string))
      else st
    else if includes upperSQL "INSERT"%string then
      say st "inserts new data "%string
        (comp "INSERT"%string "Adds new rows to a table"%string)
    else if includes upperSQL "UPDATE"%string then
      say st "modifies existing data "%string
        (comp "UPDATE"%string "Changes existing rows in a table"%string)
    else if includes upperSQL "DELETE"%string then
      say st "removes data "%string
        (comp "DELETE"%string "Removes rows from a table"%string)
    else st in
  let fromMatch := capture_word from_re sql in
  let st :=
    match fromMatch with
    | Some table =>
        say st (("from the "%string : str) ++ dquote :: table
                  ++ dquote :: (" table "%string : str))
          (comp "FROM"%string (("Specifies the source table: "%string : str) ++ table))
    | None => st
    end in
  let st :=
    if includes upperSQL "WHERE"%string then
      say st "with specific conditions "%string
        (comp "WHERE"%string "Filters rows based on specified conditions"%string)
    else st in
  let st :=
    if includes upperSQL "JOIN"%string then
      say st "by combining data from multiple tables "%string
        (comp "JOIN"%string
           "Combines rows from two or more tables based on related columns"%string)
    else st in
  let st :=
    if includes upperSQL "GROUP BY"%string then
      say st "and groups results by specific columns "%string
        (comp "GROUP BY"%string
           "Groups rows that have the same values in specified columns"%string)
    else st in
  let st :=
    if includes upperSQL "ORDER BY"%string then
      say st "and sorts the results "%string
        (comp "ORDER BY"%string "Sorts the result set by specified columns"%string)
    else st in
  let st :=
    if includes upperSQL "LIMIT"%string then
      say st "and limits the number of results returned"%string
        (comp "LIMIT"%string "Restricts the number of rows returned"%string)
    else st in
  {| explanation := fst st; components := snd st |}.

(** *** optimizeSQL *)

Record OptimizationResult := {
  optimized : str;
  improvements : list str;
  performance : str
}.

(** [/%.*LIKE/i] *)
Definition like_re : matcher :=
  seq (lit_i "%"%string) (seq (star dot) (lit_i "LIKE"%string)).

(** [/WHERE.*OR/] *)
Definition where_or_re : matcher :=
  seq (lit "WHERE"%string) (seq (star dot) (lit "OR"%string)).

(** [/FROM\s+\w+\s*,\s*\w+/i] *)
Definition comma_from_re : matcher :=
  seq (lit_i "FROM"%string)
   (seq (plus is_space)
     (seq (plus is_word)
       (seq (star is_space)
         (seq (lit_i ","%string) (seq (star is_space) (plus is_word)))))).

Definition select_star_note : str :=
  "Replace SELECT * with specific column names to reduce data transfer"%string.
Definition where_note : str :=
  "Ensure columns used in WHERE clause are indexed"%string.
Definition like_note : str :=
  "LIKE patterns starting with % cannot use indexes efficiently"%string.
Definition not_in_note : str :=
  "Replaced NOT IN with NOT EXISTS for better performance"%string.
Definition or_note : str :=
  "Consider breaking OR conditions into UNION queries for better index usage"%string.
Definition comma_note : str :=
  "Use explicit JOIN syntax instead of comma-separated tables for clarity"%string.
Definition explain_note : str :=
  "Use EXPLAIN or EXPLAIN ANALYZE to understand query execution plan"%string.

Definition multiple_opportunities : str :=
  "This query has multiple optimization opportunities"%string.
Definition relatively_optimized : str :=
  "This query looks relatively optimized"%string.

Definition optimizeSQL (sql : str) : OptimizationResult :=
  let improvements : list str := [] in
  let optimized := sql in
  let improvements :=
    if includes (toUpperCase sql) "SELECT *"%string
    then push improvements select_star_note else improvements in
  let improvements :=
    if includes (toUpperCase sql) "WHERE"%string
    then push improvements where_note else improvements in
  let improvements :=
    if test like_re sql then push improvements like_note else improvements in
  let '(optimized, improvements) :=
    if includes (toUpperCase sql) "NOT IN"%string
    then (replace_all_i "NOT IN"%string "NOT EXISTS"%string sql,
          push improvements not_in_note)
    else (optimized, improvements) in
  let improvements :=
    if test where_or_re (toUpperCase sql)
    then push improvements or_note else improvements in
  let improvements :=
    if test comma_from_re sql then push improvements comma_note else improvements in
  let improvements := push improvements explain_note in
  let performance :=
    if 2 <? length improvements
    then multiple_opportunities else relatively_optimized in
  {| optimized := optimized; improvements := improvements;
     performance := performance |}.

End SqlTool.

Import SqlTool.

(** ** src/mastra/scorers/sql-scorer.ts: the generateScore stages

    The judge's verdict is the object of the scorer's output schema, any
    field of which may be missing. *)

Module SqlScorer.

Local Open Scope float_scope.



(** [x ?? d] *)
Definition nullish {A} (x : option A) (d : A) : A :=
  match x with
  | Some v => v
  | None => d
  end.

(** ToBoolean of a boolean field that may be missing. *)
Definition truthy_bool (x : option bool) : bool := nullish x false.




(** [results?.analyzeStepResult || {}] *)
Definition step_result {V} (empty : V) (analyzeStepResult : option V) : V :=
  nullish analyzeStepResult empty.


Record IntentVerdict := {
  matchesIntent : option bool;
  intent_confidence : option float;
  reasoning : option str
}.

Definition empty_intent : IntentVerdict :=
  {| matchesIntent := None; intent_confidence := None; reasoning := None |}.

Definition intentMatch_generateScore
  (analyzeStepResult : option IntentVerdict) : float :=
  let r := step_result empty_intent analyzeStepResult in
  if truthy_bool (matchesIntent r)
  then nullish (intent_confidence r) 0.9
  else 0.2.

End SqlScorer.

Import SqlScorer.

(** * Notions of the specification *)

Module Spec.

(** Two strings are equal up to the case of their letters. *)
Definition eq_ci (a b : str) : Prop := toLowerCase a = toLowerCase b.

(** [kw] occurs in [s] as a substring, up to letter case. *)
Definition occurs_ci (kw s : str) : Prop :=
  exists pre mid post, s = pre ++ mid ++ post /\ eq_ci mid kw.

(** The flag [hasKeyword] of validateSQL, as a function of the query. *)
Definition hasKeyword (sql : str) : bool :=
  some (fun keyword => includes (toUpperCase (trim sql)) keyword) sqlKeywords.

(** Modelled from the spec: "an explicit join-type keyword immediately
    precedes a JOIN", that is [/(INNER|LEFT|RIGHT|FULL|CROSS)\s+JOIN/]. *)
Definition explicit_join_re : matcher :=
  seq (alt (lit "INNER"%string)
        (alt (lit "LEFT"%string)
          (alt (lit "RIGHT"%string)
            (alt (lit "FULL"%string) (lit "CROSS"%string)))))
      (seq (plus is_space) (lit "JOIN"%string)).

Definition has_join_suggestion (r : ValidationResult) : bool :=
  existsb (str_eqb join_type_suggestion) (suggestions r).

Definition own_key (key : str) : bool :=
  existsb (fun kv => str_eqb (fst kv) key) schemas.

Definition inherited_key (key : str) : bool :=
  existsb (fun kv => str_eqb (fst kv) key) object_prototype.

Definition parts (r : ExplanationResult) : list str :=
  map part (components r).

Definition dml_tags : list str :=
  strs ["SELECT"; "INSERT"; "UPDATE"; "DELETE"]%string.

Definition clause_tags : list str :=
  strs ["FROM"; "WHERE"; "JOIN"; "GROUP BY"; "ORDER BY"; "LIMIT"]%string.



Definition opt_list {A} (o : option A) : list A :=
  match o with
  | Some x => [x]
  | None => []
  end.

(** The check behind each of the six clause components. *)
Definition clause_present (sql tag : str) : bool :=
  if str_eqb tag "FROM"%string
  then match capture_word from_re sql with Some _ => true | None => false end
  else includes (toUpperCase sql) tag.

Definition star_part (sql : str) : list str :=
  if includes (toUpperCase sql) "SELECT"%string && test select_star_re sql
  then [("SELECT *"%string : str)] else [].

Definition first_dml (sql : str) : option str :=
  find (fun k => includes (toUpperCase sql) k) dml_tags.

Definition is_record (v : value) : bool :=
  match v with
  | VSchema _ => true
  | _ => false
  end.

(** The score as the spec words it, from the two fields of the verdict. *)
Definition intent_score_spec (matches : option bool) (conf : option float)
  : float :=
  match matches with
  | Some true => match conf with
                 | Some c => c
                 | None => 0.9%float
                 end
  | Some false | None => 0.2%float
  end.

(** "[s] with every occurrence of [pat], up to letter case, replaced by
    [rep]", occurrences taken from the left and not overlapping: either
    there is none and nothing changes, or the text splits at the leftmost
    one. *)
Inductive ReplacedAll (pat rep : str) : str -> str -> Prop :=
| RA_none s : ~ occurs_ci pat s -> ReplacedAll pat rep s s
| RA_hit pre m rest out :
    eq_ci m pat ->
    ~ occurs_ci pat (pre ++ removelast m) ->
    ReplacedAll pat rep rest out ->
    ReplacedAll pat rep (pre ++ m ++ rest) (pre ++ rep ++ out).

(** [pat] matches at the head of [s], up to letter case. *)
Definition head_match (pat s : str) : Prop :=
  exists m rest, s = m ++ rest /\ eq_ci m pat.


Section ScoreSpec.

Local Open Scope float_scope.







Definition in_unit_interval (x : float) : Prop :=
  (0 <=? x) = true /\ (x <=? 1) = true.



End ScoreSpec.

End Spec.

Import Spec.

(** * Texts as words and gaps

    The structures of the proof that formatSQL is idempotent.  A text is
    read as runs: words of a character class separated by gaps of the other
    characters.  With the class [\w] every keyword pattern acts on whole
    words, one word or two words with a single space between; with the
    class of the characters that are not white space the first step of the
    formatter keeps the words and makes every gap one space. *)

Module Runs.

(** A word and the gap before it; a text is a list of these and the gap
    after the last word. *)
Record item := { gap : str; word : str }.

Fixpoint render (its : list item) (tail : str) : str :=
  match its with
  | [] => tail
  | it :: its' => gap it ++ word it ++ render its' tail
  end.

(** A word of the class [p], and a gap between such words. *)
Definition is_run (p : ascii -> bool) (w : str) : Prop :=
  w <> [] /\ forallb p w = true.

Definition is_gap (p : ascii -> bool) (g : str) : Prop :=
  forallb (fun c => negb (p c)) g = true.

Definition ok_item (p : ascii -> bool) (it : item) : Prop :=
  is_gap p (gap it) /\ is_run p (word it).

(** Words are maximal: only the first gap may be empty. *)
Definition valid (p : ascii -> bool) (its : list item) (tail : str) : Prop :=
  Forall (ok_item p) its
  /\ Forall (fun it => gap it <> []) (tl its)
  /\ is_gap p tail.

Definition nonspace (c : ascii) : bool := negb (is_space c).

Definition space : ascii := " "%char.

Unset Implicit Arguments.

Definition map_gaps (f : str -> str) (its : list item) : list item :=
  map (fun it => {| gap := f (gap it); word := word it |}) its.

Definition on_first_gap (f : str -> str) (its : list item) : list item :=
  match its with
  | [] => []
  | it :: its' => {| gap := f (gap it); word := word it |} :: its'
  end.

(** The words hold no white space and are not empty. *)
Definition solid (its : list item) : Prop :=
  Forall (fun it => word it <> [] /\ forallb nonspace (word it) = true) its.

(** The pieces between white-space characters, empty ones included. *)
Fixpoint chunks (s : str) : list str :=
  match s with
  | [] => [[]]
  | c :: s' =>
      if is_space c then [] :: chunks s'
      else match chunks s' with
           | l :: ls => (c :: l) :: ls
           | [] => [[c]]
           end
  end.

Definition nonempty (l : str) : bool := 0 <? length l.

Definition ws_words (s : str) : list str := filter nonempty (chunks s).

(** The first step of formatSQL and its last. *)
Definition squeeze (s : str) : str := trim (replace_ws_runs false s).

Definition relines (x : str) : str :=
  join [nl] (filter (fun line => 0 <? length line) (map trim (split_nl x))).

(** A keyword of the formatter: one word, or two words and a space. *)
Inductive kwd :=
| One (k : str)
| Two (a b : str).

Definition kwd_text (k : kwd) : str :=
  match k with
  | One k1 => k1
  | Two a b => a ++ space :: b
  end.

Definition kwds : list kwd :=
  [One "SELECT"%string; One "FROM"%string; One "WHERE"%string;
   One "JOIN"%string; Two "INNER"%string "JOIN"%string;
   Two "LEFT"%string "JOIN"%string; Two "RIGHT"%string "JOIN"%string;
   Two "GROUP"%string "BY"%string; One "HAVING"%string;
   Two "ORDER"%string "BY"%string; One "LIMIT"%string; One "OFFSET"%string;
   Two "INSERT"%string "INTO"%string; One "VALUES"%string;
   One "UPDATE"%string; One "SET"%string; Two "DELETE"%string "FROM"%string].

Definition kwd_ok (k : kwd) : Prop :=
  match k with
  | One k1 => is_run is_word k1
  | Two a b => is_run is_word a /\ is_run is_word b
  end.

Definition same_word (w k : str) : bool :=
  str_eqb (toUpperCase w) (toUpperCase k).

(** A matched word gets a line break before it and goes to upper case. *)
Definition mark (it : item) : item :=
  {| gap := gap it ++ [nl]; word := toUpperCase (word it) |}.

Definition raise (it : item) : item :=
  {| gap := gap it; word := toUpperCase (word it) |}.

Fixpoint pass (k : kwd) (its : list item) : list item :=
  match its with
  | [] => []
  | it :: its' =>
      match k with
      | One k1 =>
          if same_word (word it) k1 then mark it :: pass k its'
          else it :: pass k its'
      | Two a b =>
          match its' with
          | it2 :: its'' =>
              if same_word (word it) a && str_eqb (gap it2) [space]
                 && same_word (word it2) b
              then mark it :: raise it2 :: pass k its''
              else it :: pass k its'
          | [] => [it]
          end
      end
  end.

Definition last_opt (m : str) (prev : option ascii) : option ascii :=
  match rev m with
  | c :: _ => Some c
  | [] => prev
  end.

(** No word character before the position. *)
Definition at_gap (prev : option ascii) : Prop :=
  match prev with
  | Some c => is_word c = false
  | None => True
  end.

(** The text is empty or starts outside the words. *)
Definition starts_gap (s : str) : Prop :=
  match s with
  | c :: _ => is_word c = false
  | [] => True
  end.

Definition kwd_rep (k : kwd) : str := nl :: toUpperCase (kwd_text k).

Definition passes (ks : list kwd) (its : list item) : list item :=
  fold_left (fun acc k => pass k acc) ks its.

(** What a pass can do to one item. *)
Definition step (x y : item) : Prop := y = x \/ y = mark x \/ y = raise x.

Definition nls (n : nat) : str := repeat nl n.

Definition linked (x x' f : item) : Prop :=
  toUpperCase (word x) = toUpperCase (word x')
  /\ word x' = word f
  /\ (gap x = [space] <-> gap x' = [space])
  /\ (gap x' = gap x
      \/ exists g m, gap x = g ++ nls m /\ gap x' = g ++ space :: nls m
                     /\ ~ In nl g /\ In nl (gap f)).

Inductive linked_all : list item -> list item -> list item -> Prop :=
| linked_nil : linked_all [] [] []
| linked_cons x x' f l l' lf :
    linked x x' f -> linked_all l l' lf ->
    linked_all (x :: l) (x' :: l') (f :: lf).

(** The word of [f] is the word of [y] or its upper case. *)
Definition later (y f : item) : Prop :=
  word f = word y \/ word f = toUpperCase (word y).

(** How an item changes over passes: the word may go to upper case, the
    gap may get line breaks at its end. *)
Definition grows (x f : item) : Prop :=
  later x f /\ exists n, gap f = gap x ++ nls n.

(** Replacing [x] by [y] anywhere leaves the lines of the formatter. *)
Definition same_lines (x y : str) : Prop :=
  forall a b, relines (a ++ x ++ b) = relines (a ++ y ++ b).

(** The items of the two runs at the end. *)
Definition close (x x' : item) : Prop :=
  word x' = word x
  /\ (gap x' = gap x
      \/ exists g m, gap x = g ++ nls (S m) /\ gap x' = g ++ space :: nls (S m)).

(** Is the position after [g] inside a run of white space. *)
Fixpoint ends_space (b : bool) (g : str) : bool :=
  match g with
  | [] => b
  | c :: g' => ends_space (is_space c) g'
  end.

Definition flat (its : list item) : list item :=
  on_first_gap trimStart (map_gaps (replace_ws_runs false) its).

End Runs.

Import Runs.

Set Implicit Arguments.

(** * The tools, the other stages of the scorers and the workflow step *)

(** ** src/mastra/tools/sql-tool.ts: the validator tool *)

Module Tools.

(** [a || b] for a string that may be missing: [undefined] and the empty
    string are falsy. *)
Definition str_or (a : option str) (b : str) : str :=
  match a with
  | Some (c :: s) => c :: s
  | Some [] | None => b
  end.

Record ValidatorContext := { sql : str; dialect : option str }.

Definition sqlValidatorTool_execute (context : ValidatorContext)
  : ValidationResult :=
  validateSQL (sql context) (str_or (dialect context) "postgresql"%string).

End Tools.

(** ** src/mastra/scorers/sql-scorer.ts: the preprocess stages and the
    readability score

    The three scorers take the query out of the reply in the same way:
    group 1 of [/```sql\n([\s\S]*?)\n```/], else group 1 of
    [/```\n([\s\S]*?)\n```/], else the whole reply. *)

Module Stages.

Definition backtick : ascii := "`"%char.
Definition fence : str := [backtick; backtick; backtick].
Definition sql_open : str := fence ++ ("sql"%string : str) ++ [nl].
Definition plain_open : str := fence ++ [nl].
Definition fence_close : str := nl :: fence.

(** [([\s\S]*?)closing] at this position: the lazy group takes the
    shortest text that has [closing] right after it. *)
Fixpoint lazy_until (closing s : str) {struct s} : option str :=
  if startsWith closing s then Some []
  else match s with
       | [] => None
       | c :: s' => option_map (cons c) (lazy_until closing s')
       end.

(** [opening([\s\S]*?)closing] at this position. *)
Definition fenced_here (opening closing s : str) : option str :=
  match lit opening s with
  | r :: _ => lazy_until closing r
  | [] => None
  end.

(** Group 1 of [s.match(/opening([\s\S]*?)closing/)]: the leftmost
    position where the pattern matches. *)
Fixpoint fenced (opening closing s : str) : option str :=
  match fenced_here opening closing s with
  | Some body => Some body
  | None => match s with
            | [] => None
            | _ :: s' => fenced opening closing s'
            end
  end.

(** [const m = a.match(re1) || a.match(re2); m ? m[1] : a] *)
Definition extract_sql (text : str) : str :=
  let sqlMatch :=
    match fenced sql_open fence_close text with
    | Some body => Some body
    | None => fenced plain_open fence_close text
    end in
  match sqlMatch with
  | Some body => body
  | None => text
  end.

(** The run handed to a scorer; every level may be missing. *)
Record Message := { content : option str }.
Record RunInput := { inputMessages : option (list Message) }.
Record Run := { input : option RunInput; output : option (list Message) }.

(** [messages?.[0]?.content] *)
Definition first_content (messages : option (list Message)) : option str :=
  match messages with
  | Some (m :: _) => content m
  | Some [] | None => None
  end.

(** [(run.output?.[0]?.content as string) || ""] *)
Definition assistantText (run : Run) : str :=
  Tools.str_or (first_content (output run)) [].

(** [(run.input?.inputMessages?.[0]?.content as string) || ""] *)
Definition userText (run : Run) : str :=
  Tools.str_or
    (match input run with
     | Some i => first_content (inputMessages i)
     | None => None
     end) [].

(** The preprocess stages; those of the correctness and the readability
    scorer return the object [{ sql }], given here by its one field. *)
Definition sqlCorrectness_preprocess (run : Run) : str :=
  extract_sql (assistantText run).

Definition intentMatch_preprocess (run : Run) : str * str :=
  (userText run, extract_sql (assistantText run)).

Definition readability_preprocess (run : Run) : str :=
  extract_sql (assistantText run).




End Stages.

(** ** src/mastra/workflows/sql-workflow.ts: the step generate-sql

    The agent is what [mastra.getAgent] gives; its reply to a prompt is the
    list of the chunks of its text stream.  The step writes every chunk to
    the standard output, so the result comes with the list of what was
    written. *)

Module Workflow.

Record InputData := {
  message : str;
  dialect : option str;
  context : option str
}.

Inductive result (A : Type) :=
| Returns (a : A)
| Throws (error : str).

Arguments Returns {A} a.
Arguments Throws {A} error.

Definition Agent := str -> list str.
Definition Mastra := str -> option Agent.

Record StepOutput := { sql : str; explanation : str; response : str }.

Definition prompt_of (inputData : InputData) : str :=
  let prompt := message inputData in
  let prompt :=
    match dialect inputData with
    | Some (c :: d) =>
        prompt ++ [nl; nl] ++ ("Please use "%string : str)
          ++ toUpperCase (c :: d) ++ (" syntax."%string : str)
    | Some [] | None => prompt
    end in
  let prompt :=
    match context inputData with
    | Some (c :: x) =>
        prompt ++ [nl; nl] ++ ("Additional context: "%string : str) ++ c :: x
    | Some [] | None => prompt
    end in
  prompt.

(** The loop over the text stream: each chunk is written out and added to
    [responseText]. *)
Definition read_stream (chunks : list str) : list str * str :=
  fold_left (fun st chunk => (fst st ++ [chunk], snd st ++ chunk))
    chunks ([], []).

(** [mastra?.getAgent("sqlAgent")] *)
Definition getAgent (mastra : option Mastra) : option Agent :=
  match mastra with
  | Some m => m ("sqlAgent"%string : str)
  | None => None
  end.

Definition execute (inputData : option InputData) (mastra : option Mastra)
  : list str * result StepOutput :=
  match inputData with
  | None => ([], Throws ("Input data not found"%string : str))
  | Some inputData =>
      let agent := getAgent mastra in
      match agent with
      | None => ([], Throws ("SQL agent not found"%string : str))
      | Some agent =>
          let prompt := prompt_of inputData in
          let '(written, responseText) := read_stream (agent prompt) in
          let sql := Stages.extract_sql responseText in
          (written,
           Returns {| sql := sql; explanation := responseText;
                      response := responseText |})
      end
  end.

End Workflow.

(** * Notions of the further properties *)

Module Notions.

(** [p] is a part of [s], letter for letter. *)
Definition part_of (p s : str) : Prop := exists a b, s = a ++ p ++ b.

Definition blank (s : str) : Prop := forallb is_space s = true.

(** A run of white space, at least one character. *)
Definition spaces (ws : str) : Prop := ws <> [] /\ blank ws.

(** The text without its white space, the letters in upper case. *)
Definition visible (s : str) : str := toUpperCase (filter nonspace s).

(** All white space of the text is single spaces and line breaks: no other
    white-space character, no two spaces side by side; [p] tells that a
    space stands before the text. *)
Fixpoint single (p : bool) (s : str) : bool :=
  match s with
  | [] => true
  | c :: s' =>
      (negb (is_space c) || ascii_eqb c space || ascii_eqb c nl)
      && negb (p && ascii_eqb c space)
      && single (ascii_eqb c space) s'
  end.

(** Does a space stand at the end of [a], or before it when it is empty. *)
Definition after (p : bool) (a : str) : bool :=
  fold_left (fun _ c => ascii_eqb c space) a p.

(** The word a keyword starts with, and these words for all keywords. *)
Definition kwd_head (k : kwd) : str :=
  match k with
  | One k1 => k1
  | Two a _ => a
  end.

Definition line_heads : list str := map kwd_head kwds.

(** What the pass of a keyword can do to one item; it marks only an item
    that holds the first word of the keyword. *)
Definition hit (k : kwd) (x y : item) : Prop :=
  y = x
  \/ (y = mark x /\ same_word (word x) (kwd_head k) = true)
  \/ y = raise x.

(** After a line break stands the first word of a keyword. *)
Definition headed (it : item) : Prop :=
  In nl (gap it) -> In (word it) line_heads.

(** A line that starts with the first word of a keyword, as a whole
    word. *)
Definition keyword_line (l : str) : Prop :=
  exists k rest, In k line_heads /\ l = k ++ rest /\ starts_gap rest.

(** The text starts with FROM in any letter case, white space and the
    word [t], a word that goes on as far as word characters go. *)
Definition from_here (x t : str) : Prop :=
  exists f ws rest,
    x = f ++ ws ++ t ++ rest /\ eq_ci f "FROM"%string /\ spaces ws
    /\ is_run is_word t /\ starts_gap rest.

(** [t] is the word after the first FROM of the text that has white space
    and a word after it. *)
Definition first_from (sql t : str) : Prop :=
  exists pre x,
    sql = pre ++ x /\ from_here x t
    /\ forall a b t', pre = a ++ b -> b <> [] -> ~ from_here (b ++ x) t'.

Definition opening : str := "This SQL query "%string.

Definition from_description (t : str) : str :=
  ("Specifies the source table: "%string : str) ++ t.

Definition from_phrase (t : str) : str :=
  ("from the "%string : str) ++ dquote :: t ++ dquote :: (" table "%string : str).

(** What explainSQL finds in a query, in the order it looks: the phrase
    each finding adds to the explanation and the components it pushes. *)
Definition dml_finding (sql : str) : list (str * list Component) :=
  if includes (toUpperCase sql) "SELECT"%string then
    [("retrieves data "%string : str,
      comp "SELECT"%string "Specifies which columns to retrieve"%string
      :: (if test select_star_re sql
          then [comp "SELECT *"%string "Selects all columns from the table"%string]
          else []))]
  else if includes (toUpperCase sql) "INSERT"%string then
    [("inserts new data "%string : str,
      [comp "INSERT"%string "Adds new rows to a table"%string])]
  else if includes (toUpperCase sql) "UPDATE"%string then
    [("modifies existing data "%string : str,
      [comp "UPDATE"%string "Changes existing rows in a table"%string])]
  else if includes (toUpperCase sql) "DELETE"%string then
    [("removes data "%string : str,
      [comp "DELETE"%string "Removes rows from a table"%string])]
  else [].

Definition from_finding (sql : str) : list (str * list Component) :=
  match capture_word from_re sql with
  | Some t => [(from_phrase t, [comp "FROM"%string (from_description t)])]
  | None => []
  end.

Definition clause_finding (sql tag phrase description : str)
  : list (str * list Component) :=
  if includes (toUpperCase sql) tag
  then [(phrase, [comp tag description])] else [].

Definition findings (sql : str) : list (str * list Component) :=
  dml_finding sql ++ from_finding sql
  ++ clause_finding sql "WHERE"%string "with specific conditions "%string
       "Filters rows based on specified conditions"%string
  ++ clause_finding sql "JOIN"%string
       "by combining data from multiple tables "%string
       "Combines rows from two or more tables based on related columns"%string
  ++ clause_finding sql "GROUP BY"%string
       "and groups results by specific columns "%string
       "Groups rows that have the same values in specified columns"%string
  ++ clause_finding sql "ORDER BY"%string "and sorts the results "%string
       "Sorts the result set by specified columns"%string
  ++ clause_finding sql "LIMIT"%string
       "and limits the number of results returned"%string
       "Restricts the number of rows returned"%string.






(** The keywords of the formatter that are one word. *)
Definition one_word_keywords : list str :=
  strs ["SELECT"; "FROM"; "WHERE"; "JOIN"; "HAVING"; "LIMIT"; "OFFSET";
        "VALUES"; "UPDATE"; "SET"]%string.

(** An item that holds the keyword [k] has it in upper case and a line
    break right before it. *)
Definition marked (k : str) (it : item) : Prop :=
  same_word (word it) k = true ->
  word it = k /\ exists g, gap it = g ++ [nl].

(** A confidence or score of a verdict that keeps to the schema of the
    judge: a number from 0 to 1, when there is one. *)
Definition in_schema (x : option float) : Prop :=
  match x with
  | Some c => in_unit_interval c
  | None => True
  end.

(** A string that counts as given: neither missing nor empty. *)
Definition given (x : option str) : Prop :=
  exists c s, x = Some (c :: s).

End Notions.

(** * Properties *)

(** ** Characters and strings *)

Section StringFacts.

Ltac each_char c := destruct c as [[] [] [] [] [] [] [] []]; reflexivity.

Lemma upper_idem (c : ascii) : upper (upper c) = upper c.
Proof. each_char c. Qed.

Lemma lower_upper (c : ascii) : lower (upper c) = lower c.
Proof. each_char c. Qed.

Lemma upper_lower (c : ascii) : upper (lower c) = upper c.
Proof. each_char c. Qed.

Lemma is_word_upper (c : ascii) : is_word (upper c) = is_word c.
Proof. each_char c. Qed.

Lemma is_space_upper (c : ascii) : is_space (upper c) = is_space c.
Proof. each_char c. Qed.

Lemma ascii_eqb_eq (a b : ascii) : ascii_eqb a b = true <-> a = b.
Proof. apply Ascii.eqb_eq. Qed.

Lemma ascii_eqb_refl (a : ascii) : ascii_eqb a a = true.
Proof. apply Ascii.eqb_refl. Qed.

Lemma str_eqb_eq (a b : str) : str_eqb a b = true <-> a = b.
Proof.
  revert b; induction a as [|x a IH]; intros [|y b]; simpl; split;
    try congruence; try reflexivity.
  - intros H. apply andb_true_iff in H as [H1 H2].
    apply ascii_eqb_eq in H1. apply IH in H2. congruence.
  - intros H. injection H as -> ->. rewrite ascii_eqb_refl. simpl.
    now apply IH.
Qed.

Lemma str_eqb_refl (a : str) : str_eqb a a = true.
Proof. now apply str_eqb_eq. Qed.

Lemma toUpperCase_idem (s : str) : toUpperCase (toUpperCase s) = toUpperCase s.
Proof.
  unfold toUpperCase. rewrite map_map. apply map_ext. apply upper_idem.
Qed.

Lemma startsWith_iff (pat s : str) :
  startsWith pat s = true <-> exists post, s = pat ++ post.
Proof.
  revert s; induction pat as [|p pat IH]; intros s; simpl.
  - split; [intros _; now exists s | reflexivity].
  - destruct s as [|c s].
    + split; [discriminate | intros [post H]; discriminate].
    + rewrite andb_true_iff, ascii_eqb_eq, IH. split.
      * intros [-> [post ->]]. now exists post.
      * intros [post H]. injection H as -> ->. split; [reflexivity | now exists post].
Qed.

Lemma includes_iff (s pat : str) :
  includes s pat = true <-> exists pre post, s = pre ++ pat ++ post.
Proof.
  induction s as [|c s IH].
  - simpl. rewrite orb_false_r, startsWith_iff. split.
    + intros [post H]. now exists [], post.
    + intros [pre [post H]]. destruct pre; simpl in H.
      * now exists post.
      * discriminate.
  - cbn [includes]. rewrite orb_true_iff, startsWith_iff, IH. split.
    + intros [[post H] | [pre [post H]]].
      * now exists [], post.
      * exists (c :: pre), post. simpl. now rewrite H.
    + intros [pre [post H]]. destruct pre as [|x pre]; simpl in H.
      * left. now exists post.
      * right. injection H as _ H. now exists pre, post.
Qed.

End StringFacts.

(** ** Occurrence up to letter case, stated without the code's functions *)

Section Occurrence.

Lemma eq_ci_upper (a b : str) : eq_ci a b <-> toUpperCase a = toUpperCase b.
Proof.
  unfold eq_ci, toLowerCase, toUpperCase. split; intros H.
  - apply (f_equal (map upper)) in H. rewrite !map_map in H.
    erewrite (map_ext _ upper), (map_ext (fun x => upper (lower x)) upper) in H;
      auto using upper_lower.
  - apply (f_equal (map lower)) in H. rewrite !map_map in H.
    erewrite (map_ext _ lower), (map_ext (fun x => lower (upper x)) lower) in H;
      auto using lower_upper.
Qed.

(** [upper.includes(kw)] for a keyword written in capitals is occurrence up
    to case. *)
Lemma includes_upper_iff (kw s : str) :
  toUpperCase kw = kw ->
  (includes (toUpperCase s) kw = true <-> occurs_ci kw s).
Proof.
  intros Hkw. rewrite includes_iff. unfold occurs_ci. split.
  - intros [pre [post H]]. unfold toUpperCase in H.
    apply map_eq_app in H as [pre' [rest [-> [Hpre H]]]].
    apply map_eq_app in H as [mid [post' [-> [Hmid Hpost]]]].
    exists pre', mid, post'. split; [reflexivity|].
    apply eq_ci_upper. unfold toUpperCase at 1. now rewrite Hmid.
  - intros [pre [mid [post [-> H]]]]. apply eq_ci_upper in H.
    exists (toUpperCase pre), (toUpperCase post).
    unfold toUpperCase in *. rewrite !map_app. now rewrite H, Hkw.
Qed.

End Occurrence.

(** ** validateSQL: the validity flag *)

Section ValidateFlag.

Variables sql dialect : str.

Lemma validateSQL_isValid : isValid (validateSQL sql dialect) = hasKeyword sql.
Proof.
  unfold validateSQL. fold (hasKeyword sql). now destruct (hasKeyword sql).
Qed.




End ValidateFlag.



(** ** validateSQL: the join-type suggestion *)

(** What the code does: the suggestion is held back as soon as one of the
    words INNER, LEFT, RIGHT, FULL stands anywhere in the text. *)
Lemma validateSQL_suggestions (sql dialect : str) :
  suggestions (validateSQL sql dialect) =
  (if includes (toUpperCase (trim sql)) "JOIN"%string
      && negb (test join_type_re (toUpperCase (trim sql)))
   then [join_type_suggestion] else [])
  ++ (if str_eqb dialect "postgresql"%string then [postgresql_suggestion]
      else if str_eqb dialect "mysql"%string then [mysql_suggestion]
      else []).
Proof.
  unfold validateSQL.
  destruct (negb (some _ sqlKeywords)); cbv beta iota zeta delta [suggestions];
    unfold push;
    destruct (includes (toUpperCase (trim sql)) "JOIN"%string
              && negb (test join_type_re (toUpperCase (trim sql))));
    destruct (str_eqb dialect "postgresql"%string);
    try destruct (str_eqb dialect "mysql"%string); reflexivity.
Qed.

Lemma validateSQL_join_suggestion (sql dialect : str) :
  has_join_suggestion (validateSQL sql dialect) =
  includes (toUpperCase (trim sql)) "JOIN"%string
  && negb (test join_type_re (toUpperCase (trim sql))).
Proof.
  unfold has_join_suggestion. rewrite validateSQL_suggestions.
  destruct (includes (toUpperCase (trim sql)) "JOIN"%string
            && negb (test join_type_re (toUpperCase (trim sql))));
    destruct (str_eqb dialect "postgresql"%string);
    try destruct (str_eqb dialect "mysql"%string); reflexivity.
Qed.

(** C5. On a query that joins without a join type and names a column
    [left_id], the text holds JOIN and no join-type keyword stands before a
    JOIN, yet validateSQL gives no join-type suggestion: the pattern of the
    code finds LEFT inside [left_id]. *)
Theorem validateSQL_join_suggestion_lost :
  let sql : str := "SELECT * FROM a JOIN b ON a.left_id = b.id"%string in
  includes (toUpperCase (trim sql)) "JOIN"%string = true
  /\ test explicit_join_re (toUpperCase (trim sql)) = false
  /\ has_join_suggestion (validateSQL sql "postgresql"%string) = false
  /\ suggestions (validateSQL sql "postgresql"%string) = [postgresql_suggestion].
Proof. vm_compute. repeat split. Qed.

(** ** getSchemaInfo *)

Lemma assoc_none {A} (key : str) (l : list (str * A)) :
  existsb (fun kv => str_eqb (fst kv) key) l = false -> assoc key l = None.
Proof.
  induction l as [|[k v] l IH]; simpl; [reflexivity|].
  destruct (str_eqb k key); simpl; [discriminate | exact IH].
Qed.

(** The fallback is reached for every name that is neither a key of the
    table nor a property of [Object.prototype]. *)
Lemma getSchemaInfo_fallback (tableType : str) :
  own_key (toLowerCase tableType) = false ->
  inherited_key (toLowerCase tableType) = false ->
  getSchemaInfo tableType = VSchema (fallback_schema tableType).
Proof.
  intros Hown Hinh. unfold getSchemaInfo, get_schemas.
  now rewrite (assoc_none _ _ Hown), (assoc_none _ _ Hinh).
Qed.

Lemma getSchemaInfo_case_insensitive (a b : str) :
  toLowerCase a = toLowerCase b ->
  own_key (toLowerCase a) = true ->
  getSchemaInfo a = getSchemaInfo b.
Proof.
  intros Hab Hown. unfold getSchemaInfo, get_schemas. rewrite <- Hab.
  unfold own_key in Hown.
  destruct (assoc (toLowerCase a) schemas) eqn:E; [reflexivity|].
  exfalso. revert Hown E. generalize (toLowerCase a) as key. intros key.
  induction schemas as [|[k v] l IH]; simpl; [discriminate|].
  destruct (str_eqb k key); simpl; [discriminate | exact IH].
Qed.

Lemma getSchemaInfo_USERS :
  getSchemaInfo "USERS"%string = getSchemaInfo "users"%string
  /\ getSchemaInfo "users"%string = VSchema users_schema.
Proof. split; reflexivity. Qed.

Lemma getSchemaInfo_widgets :
  getSchemaInfo "widgets"%string = VSchema (fallback_schema "widgets"%string)
  /\ examples (fallback_schema "widgets"%string)
     = [("SELECT * FROM widgets LIMIT 10"%string : str)].
Proof. split; reflexivity. Qed.

(** C4. The table type [constructor] is not users, products or orders, and
    getSchemaInfo does not give the fallback record for it: the lookup
    finds the property [constructor] that [schemas] inherits and returns
    the function [Object]. *)
Theorem getSchemaInfo_constructor :
  let tableType : str := "constructor"%string in
  own_key (toLowerCase tableType) = false
  /\ getSchemaInfo tableType = VFunction "Object"
  /\ getSchemaInfo tableType <> VSchema (fallback_schema tableType).
Proof.
  cbv zeta. split; [reflexivity|]. split; [reflexivity|].
  vm_compute. discriminate.
Qed.

(** ** explainSQL *)

Lemma snd_if_say (b : bool) (st : str * list Component) (f : str) (c : Component) :
  snd (if b then say st f c else st) = snd st ++ (if b then [c] else []).
Proof. destruct b; simpl; [reflexivity | now rewrite app_nil_r]. Qed.

Lemma snd_match_say (o : option str) (st : str * list Component)
  (f : str -> str) (c : str -> Component) :
  snd (match o with Some t => say st (f t) (c t) | None => st end)
  = snd st ++ (match o with Some t => [c t] | None => [] end).
Proof. destruct o; simpl; [reflexivity | now rewrite app_nil_r]. Qed.

Lemma explainSQL_parts (sql : str) :
  parts (explainSQL sql) =
  opt_list (first_dml sql) ++ star_part sql
  ++ filter (clause_present sql) clause_tags.
Proof.
  unfold parts, explainSQL. cbv zeta. cbn [components].
  rewrite !snd_if_say, snd_match_say, !map_app.
  unfold first_dml, star_part, clause_present.
  cbn [filter find clause_tags dml_tags strs map].
  change (str_eqb (list_ascii_of_string "FROM") (list_ascii_of_string "FROM")) with true.
  change (str_eqb (list_ascii_of_string "WHERE") (list_ascii_of_string "FROM")) with false.
  change (str_eqb (list_ascii_of_string "JOIN") (list_ascii_of_string "FROM")) with false.
  change (str_eqb (list_ascii_of_string "GROUP BY") (list_ascii_of_string "FROM")) with false.
  change (str_eqb (list_ascii_of_string "ORDER BY") (list_ascii_of_string "FROM")) with false.
  change (str_eqb (list_ascii_of_string "LIMIT") (list_ascii_of_string "FROM")) with false.
  cbv iota.
  generalize (includes (toUpperCase sql) (list_ascii_of_string "SELECT")) as b1.
  generalize (includes (toUpperCase sql) (list_ascii_of_string "INSERT")) as b2.
  generalize (includes (toUpperCase sql) (list_ascii_of_string "UPDATE")) as b3.
  generalize (includes (toUpperCase sql) (list_ascii_of_string "DELETE")) as b4.
  generalize (includes (toUpperCase sql) (list_ascii_of_string "WHERE")) as b5.
  generalize (includes (toUpperCase sql) (list_ascii_of_string "JOIN")) as b6.
  generalize (includes (toUpperCase sql) (list_ascii_of_string "GROUP BY")) as b7.
  generalize (includes (toUpperCase sql) (list_ascii_of_string "ORDER BY")) as b8.
  generalize (includes (toUpperCase sql) (list_ascii_of_string "LIMIT")) as b9.
  generalize (test select_star_re sql) as b10.
  generalize (capture_word from_re sql) as o.
  intros o b10 b9 b8 b7 b6 b5 b4 b3 b2 b1.
  assert (Hdml :
    map part (snd
      (if b1 then
         if b10 then
           (fst (say ("This SQL query "%string : str, []) "retrieves data "%string
                   (comp "SELECT"%string "Specifies which columns to retrieve"%string)),
            push (snd (say ("This SQL query "%string : str, []) "retrieves data "%string
                   (comp "SELECT"%string "Specifies which columns to retrieve"%string)))
              (comp "SELECT *"%string "Selects all columns from the table"%string))
         else say ("This SQL query "%string : str, []) "retrieves data "%string
                   (comp "SELECT"%string "Specifies which columns to retrieve"%string)
       else if b2 then say ("This SQL query "%string : str, []) "inserts new data "%string
                   (comp "INSERT"%string "Adds new rows to a table"%string)
       else if b3 then say ("This SQL query "%string : str, []) "modifies existing data "%string
                   (comp "UPDATE"%string "Changes existing rows in a table"%string)
       else if b4 then say ("This SQL query "%string : str, []) "removes data "%string
                   (comp "DELETE"%string "Removes rows from a table"%string)
       else ("This SQL query "%string : str, [])))
    = opt_list (if b1 then Some ("SELECT"%string : str)
                else if b2 then Some ("INSERT"%string : str)
                else if b3 then Some ("UPDATE"%string : str)
                else if b4 then Some ("DELETE"%string : str) else None)
      ++ (if b1 && b10 then [("SELECT *"%string : str)] else [])).
  { destruct b1, b2, b3, b4, b10; reflexivity. }
  rewrite Hdml. rewrite <- !app_assoc. f_equal. f_equal.
  destruct o, b5, b6, b7, b8, b9; reflexivity.
Qed.







(** ** optimizeSQL: the summary *)

Lemma performance_strings_differ : multiple_opportunities <> relatively_optimized.
Proof. intros H. vm_compute in H. discriminate H. Qed.

Lemma optimizeSQL_improvements (sql : str) :
  exists notes,
    improvements (optimizeSQL sql) = notes ++ [explain_note]
    /\ performance (optimizeSQL sql) =
       if 2 <? length (notes ++ [explain_note])
       then multiple_opportunities else relatively_optimized.
Proof.
  unfold optimizeSQL.
  destruct (includes (toUpperCase sql) "NOT IN"%string);
    cbv beta iota zeta delta [improvements performance push];
    eexists; split; reflexivity.
Qed.

(** C7. The summary of optimizeSQL is the "multiple optimization
    opportunities" sentence exactly when the list of improvements has more
    than two entries, and the "relatively optimized" one otherwise; the
    note about EXPLAIN is always the last entry and is counted, so the
    list is never empty. *)
Theorem optimizeSQL_performance (sql : str) :
  last (improvements (optimizeSQL sql)) [] = explain_note
  /\ improvements (optimizeSQL sql) <> []
  /\ (performance (optimizeSQL sql) = multiple_opportunities
      <-> 2 < length (improvements (optimizeSQL sql)))
  /\ (performance (optimizeSQL sql) = relatively_optimized
      <-> length (improvements (optimizeSQL sql)) <= 2).
Proof.
  destruct (optimizeSQL_improvements sql) as [notes [-> ->]].
  split; [apply last_last|]. split; [now destruct notes|].
  destruct (2 <? length (notes ++ [explain_note])) eqn:E.
  - apply Nat.ltb_lt in E. split; split; try tauto; try lia.
    intros H. exfalso. apply performance_strings_differ.
    first [exact H | symmetry; exact H].
  - apply Nat.ltb_ge in E. split; split; try tauto; try lia.
    intros H. exfalso. apply performance_strings_differ.
    first [exact H | symmetry; exact H].
Qed.

(** ** Totality *)

(** The four functions on query text give a record for every input; the
    empty and the blank query are invalid with the one warning. *)
Lemma validateSQL_blank (dialect : str) :
  isValid (validateSQL [] dialect) = false
  /\ warnings (validateSQL [] dialect) = [no_keywords_warning]
  /\ isValid (validateSQL "   "%string dialect) = false
  /\ warnings (validateSQL "   "%string dialect) = [no_keywords_warning].
Proof. repeat split. Qed.

(** C8. validateSQL on the empty query is invalid with the no-keywords
    warning, but not every call of a text-analysis function gives a result
    record: for the table type [__proto__] getSchemaInfo returns
    [Object.prototype], which has none of the fields of a schema record. *)
Theorem getSchemaInfo_proto_not_a_record :
  (forall dialect,
      isValid (validateSQL [] dialect) = false
      /\ warnings (validateSQL [] dialect) = [no_keywords_warning])
  /\ getSchemaInfo "__proto__"%string = VObjectPrototype
  /\ is_record (getSchemaInfo "__proto__"%string) = false
  /\ (forall r, getSchemaInfo "__proto__"%string <> VSchema r).
Proof.
  split; [intros dialect; split; reflexivity|].
  split; [reflexivity|]. split; [reflexivity|].
  intros r. vm_compute. discriminate.
Qed.

(** ** The intent-match score *)

(** C9. For every verdict, and also when the judge gave none, the
    intent-match score is the confidence of the verdict when matchesIntent
    is true, 0.9 when the confidence is missing then, and 0.2 when
    matchesIntent is false or missing, whatever the confidence. *)
Theorem intentMatch_score (analyzeStepResult : option IntentVerdict) :
  intentMatch_generateScore analyzeStepResult =
  match analyzeStepResult with
  | Some r => intent_score_spec (matchesIntent r) (intent_confidence r)
  | None => 0.2%float
  end.
Proof.
  destruct analyzeStepResult as [[[[|]|] [c|] reason]|]; reflexivity.
Qed.

(** ** optimizeSQL: the rewritten query *)

Section ReplaceAll.

Variables pat rep : str.
Hypothesis pat_nonempty : pat <> [].

Lemma eq_ci_length (a b : str) : eq_ci a b -> length a = length b.
Proof.
  unfold eq_ci, toLowerCase. intros H.
  apply (f_equal (@length ascii)) in H. now rewrite !length_map in H.
Qed.

Lemma strip_i_sound (p : str) prev s l rest :
  strip_i p prev s = Some (l, rest) ->
  exists m, s = m ++ rest /\ eq_ci m p.
Proof.
  revert prev s. induction p as [|x p IH]; intros prev s H; simpl in H.
  - injection H as _ ->. now exists [].
  - destruct s as [|c s]; [discriminate|].
    destruct (ascii_eqb (upper x) (upper c)) eqn:E; [|discriminate].
    apply ascii_eqb_eq in E. apply IH in H as [m [-> Hm]].
    exists (c :: m). split; [reflexivity|].
    apply eq_ci_upper. apply eq_ci_upper in Hm. simpl. now rewrite E, Hm.
Qed.

Lemma strip_i_complete (p : str) prev m rest :
  eq_ci m p -> exists l, strip_i p prev (m ++ rest) = Some (l, rest).
Proof.
  revert prev m. induction p as [|x p IH]; intros prev m H.
  - apply eq_ci_length in H. destruct m; [|discriminate]. simpl. eauto.
  - destruct m as [|c m]; [apply eq_ci_length in H; discriminate|].
    apply eq_ci_upper in H. simpl in H. injection H as Hc Hm.
    simpl. rewrite <- Hc, ascii_eqb_refl. apply IH. now apply eq_ci_upper.
Qed.

Lemma lit_here_iff prev s :
  lit_here false pat prev s = true <-> head_match pat s.
Proof.
  unfold lit_here, head_match. split.
  - destruct (strip_i pat prev s) as [[l rest]|] eqn:E; [|discriminate].
    intros _. apply strip_i_sound in E as [m [-> Hm]]. eauto.
  - intros [m [rest [-> Hm]]].
    destruct (strip_i_complete prev rest Hm) as [l ->]. reflexivity.
Qed.

Lemma lit_here_prev p p' s :
  lit_here false pat p s = lit_here false pat p' s.
Proof.
  destruct (lit_here false pat p' s) eqn:E.
  - apply lit_here_iff. now apply lit_here_iff in E.
  - apply not_true_is_false. intros H. apply lit_here_iff in H.
    apply (lit_here_iff p') in H. congruence.
Qed.

Lemma replace_scan_prev k p p' s :
  replace_scan false pat rep k p s = replace_scan false pat rep k p' s.
Proof.
  revert k p p'. induction s as [|c s IH]; intros k p p'; [reflexivity|].
  simpl. destruct k as [|k]; [|apply IH].
  fold (lit_here false pat p (c :: s)). fold (lit_here false pat p' (c :: s)).
  now rewrite (lit_here_prev p p').
Qed.

Lemma replace_scan_skip m rest p :
  replace_scan false pat rep (length m) p (m ++ rest)
  = replace_scan false pat rep 0 None rest.
Proof.
  revert p. induction m as [|c m IH]; intros p.
  - apply replace_scan_prev.
  - simpl. apply IH.
Qed.

Lemma occurs_ci_length s : occurs_ci pat s -> length pat <= length s.
Proof.
  intros [pre [mid [post [-> H]]]]. apply eq_ci_length in H.
  rewrite !length_app. lia.
Qed.

Lemma occurs_ci_cons c s :
  occurs_ci pat (c :: s) <-> head_match pat (c :: s) \/ occurs_ci pat s.
Proof.
  split.
  - intros [pre [mid [post [H Hm]]]]. destruct pre as [|x pre]; simpl in H.
    + left. exists mid, post. now split.
    + right. injection H as _ ->. now exists pre, mid, post.
  - intros [[m [rest [H Hm]]] | [pre [mid [post [-> Hm]]]]].
    + exists [], m, rest. now split.
    + exists (c :: pre), mid, post. now split.
Qed.

Lemma head_match_app x y : head_match pat x -> head_match pat (x ++ y).
Proof.
  intros [m [rest [-> Hm]]]. exists m, (rest ++ y).
  now rewrite app_assoc.
Qed.

Lemma app_inj_len (a b x y : str) :
  length a = length b -> a ++ x = b ++ y -> a = b /\ x = y.
Proof.
  revert b. induction a as [|c a IH]; intros [|d b] L H; try discriminate.
  - now split.
  - simpl in H. injection H as -> H. simpl in L.
    destruct (IH b) as [-> ->]; [lia | exact H | now split].
Qed.

Lemma removelast_len (m : str) : m <> [] -> length (removelast m) + 1 = length m.
Proof.
  intros H. rewrite (app_removelast_last "000"%char H) at 2.
  now rewrite length_app.
Qed.

Lemma pat_match_nonempty m : eq_ci m pat -> m <> [].
Proof.
  intros H ->. apply eq_ci_length in H.
  destruct pat; [congruence | discriminate].
Qed.

Lemma ReplacedAll_cons c s out :
  ~ head_match pat (c :: s) ->
  ReplacedAll pat rep s out -> ReplacedAll pat rep (c :: s) (c :: out).
Proof.
  intros Hhead H. destruct H as [s Hnone | pre m rest out Hm Hleft Hrest].
  - apply RA_none. rewrite occurs_ci_cons. tauto.
  - apply (@RA_hit pat rep (c :: pre) m rest out Hm); [|exact Hrest].
    cbn [app]. rewrite occurs_ci_cons. intros [H | H]; [|tauto].
    apply Hhead.
    assert (Hne : m <> []).
    { intros ->. apply eq_ci_length in Hm. destruct pat; [congruence | discriminate]. }
    rewrite (app_removelast_last "000"%char Hne), <- !app_assoc.
    rewrite app_comm_cons, app_assoc. now apply head_match_app.
Qed.

Lemma replace_scan_ReplacedAll n s :
  length s <= n ->
  ReplacedAll pat rep s (replace_scan false pat rep 0 None s).
Proof.
  revert s. induction n as [|n IH]; intros s Hlen.
  - destruct s; [|simpl in Hlen; lia]. apply RA_none.
    intros H. apply occurs_ci_length in H. destruct pat; [congruence | simpl in H; lia].
  - destruct s as [|c s].
    { apply RA_none. intros H. apply occurs_ci_length in H.
      destruct pat; [congruence | simpl in H; lia]. }
    cbn [replace_scan]. destruct (lit_here false pat None (c :: s)) eqn:E.
    + apply lit_here_iff in E as [m [rest [Hs Hm]]].
      pose proof (eq_ci_length Hm) as Hl.
      destruct m as [|x m]; [destruct pat; [congruence | discriminate]|].
      simpl in Hs. injection Hs as <- ->.
      replace (length pat - 1) with (length m) by (simpl in Hl; lia).
      rewrite replace_scan_skip.
      apply (@RA_hit pat rep [] (c :: m) rest _ Hm).
      * intros H. apply occurs_ci_length in H. cbn [app] in H.
        pose proof (removelast_len (pat_match_nonempty Hm)). lia.
      * apply IH. simpl in Hlen. rewrite length_app in Hlen. lia.
    + rewrite (replace_scan_prev 0 (Some c) None).
      apply ReplacedAll_cons.
      * intros H. apply (lit_here_iff None) in H. congruence.
      * apply IH. simpl in Hlen. lia.
Qed.

Lemma replace_all_i_ReplacedAll s :
  ReplacedAll pat rep s (replace_all_i pat rep s).
Proof. apply (replace_scan_ReplacedAll (n := length s)). lia. Qed.

(** Of two splits at an occurrence, the one further right has the other
    occurrence before the end of its own. *)
Lemma earlier_occurrence pre m rest pre' m' rest' :
  pre ++ m ++ rest = pre' ++ m' ++ rest' ->
  eq_ci m pat -> eq_ci m' pat -> length pre < length pre' ->
  occurs_ci pat (pre' ++ removelast m').
Proof.
  intros Heq Hm Hm' Hlt.
  pose proof (eq_ci_length Hm) as L. pose proof (eq_ci_length Hm') as L'.
  pose proof (removelast_len (pat_match_nonempty Hm')) as R'.
  apply app_eq_app in Heq as [l [[-> _] | [-> Heq]]].
  { rewrite length_app in Hlt. lia. }
  rewrite length_app in Hlt.
  rewrite (app_removelast_last "000"%char (pat_match_nonempty Hm')) in Heq.
  rewrite <- app_assoc, app_assoc in Heq.
  assert (Hz : exists z, l ++ removelast m' = m ++ z).
  { apply app_eq_app in Heq as [l2 [[Ha _] | [Ha _]]].
    - exists []. rewrite app_nil_r.
      assert (l2 = []).
      { apply (f_equal (@length ascii)) in Ha. rewrite !length_app in Ha.
        destruct l2; [reflexivity | simpl in Ha; lia]. }
      subst l2. now rewrite app_nil_r in Ha.
    - now exists l2. }
  destruct Hz as [z Hz]. exists pre, m, z. split; [|exact Hm].
  now rewrite <- app_assoc, Hz.
Qed.

(** The relation fixes the result. *)
Lemma ReplacedAll_functional s o1 o2 :
  ReplacedAll pat rep s o1 -> ReplacedAll pat rep s o2 -> o1 = o2.
Proof.
  intros H1. revert o2.
  induction H1 as [s Hnone | pre m rest out Hm Hleft Hrest IH]; intros o2 H2.
  - inversion H2 as [s' _ | pre m rest out Hm _ _]; subst; [reflexivity|].
    exfalso. apply Hnone. now exists pre, m, rest.
  - inversion H2 as [s' Hnone | pre' m' rest' out' Hm' Hleft' Hrest' Heq]; subst.
    + exfalso. apply Hnone. now exists pre, m, rest.
    + assert (Hpre : length pre' = length pre).
      { destruct (Nat.lt_trichotomy (length pre) (length pre')) as [Hlt | [He | Hgt]].
        - exfalso. apply Hleft'. symmetry in Heq.
          eapply earlier_occurrence; [exact Heq | exact Hm | exact Hm' | exact Hlt].
        - now symmetry.
        - exfalso. apply Hleft.
          eapply earlier_occurrence; [exact Heq | exact Hm' | exact Hm | exact Hgt]. }
      destruct (@app_inj_len _ _ _ _ Hpre Heq) as [-> Heq'].
      assert (Hml : length m' = length m).
      { rewrite (eq_ci_length Hm), (eq_ci_length Hm'). reflexivity. }
      destruct (@app_inj_len _ _ _ _ Hml Heq') as [-> ->].
      now rewrite (IH _ Hrest').
Qed.

End ReplaceAll.

(** C6. The query that optimizeSQL returns is the input with every
    occurrence of NOT IN, up to letter case, replaced by NOT EXISTS
    (occurrences from the left, not overlapping), and it is the input
    itself when NOT IN does not occur. *)
Theorem optimizeSQL_optimized (sql : str) :
  ReplacedAll "NOT IN"%string "NOT EXISTS"%string sql
    (optimized (optimizeSQL sql))
  /\ (forall out,
        ReplacedAll "NOT IN"%string "NOT EXISTS"%string sql out ->
        out = optimized (optimizeSQL sql))
  /\ (~ occurs_ci "NOT IN"%string sql -> optimized (optimizeSQL sql) = sql).
Proof.
  assert (Hne : ("NOT IN"%string : str) <> []) by discriminate.
  assert (Hopt : optimized (optimizeSQL sql) =
                 if includes (toUpperCase sql) "NOT IN"%string
                 then replace_all_i "NOT IN"%string "NOT EXISTS"%string sql
                 else sql).
  { unfold optimizeSQL.
    now destruct (includes (toUpperCase sql) "NOT IN"%string). }
  assert (Hinc : includes (toUpperCase sql) "NOT IN"%string = true
                 <-> occurs_ci "NOT IN"%string sql).
  { now apply includes_upper_iff. }
  assert (H : ReplacedAll "NOT IN"%string "NOT EXISTS"%string sql
                (optimized (optimizeSQL sql))).
  { rewrite Hopt.
    destruct (includes (toUpperCase sql) "NOT IN"%string) eqn:E.
    - now apply replace_all_i_ReplacedAll.
    - apply RA_none. intros Hocc. apply Hinc in Hocc. congruence. }
  split; [exact H|]. split.
  - intros out Hout.
    apply (ReplacedAll_functional Hne Hout H).
  - intros Hnone. rewrite Hopt.
    destruct (includes (toUpperCase sql) "NOT IN"%string) eqn:E; [|reflexivity].
    exfalso. apply Hnone. now apply Hinc.
Qed.

(** A query without NOT IN comes back as it is. *)
Lemma optimizeSQL_unchanged_example :
  ~ occurs_ci "NOT IN"%string "SELECT id FROM t WHERE a IN (1)"%string
  /\ optimized (optimizeSQL "SELECT id FROM t WHERE a IN (1)"%string)
     = ("SELECT id FROM t WHERE a IN (1)"%string : str).
Proof.
  assert (Hno : ~ occurs_ci "NOT IN"%string
                  "SELECT id FROM t WHERE a IN (1)"%string).
  { intros H. apply includes_upper_iff in H; [|vm_compute; reflexivity].
    vm_compute in H. discriminate H. }
  split; [exact Hno|].
  exact (proj2 (proj2 (optimizeSQL_optimized
                         "SELECT id FROM t WHERE a IN (1)"%string)) Hno).
Defined.

(** ** The correctness score *)

Section FloatFacts.

Local Open Scope float_scope.














End FloatFacts.

Section CorrectnessScore.

Local Open Scope float_scope.






End CorrectnessScore.

(** * formatSQL is idempotent *)

(** ** Every text has a reading as words and gaps *)

Section Parse.

Variable p : ascii -> bool.

Lemma is_gap_cons (c : ascii) (g : str) :
  p c = false -> is_gap p g -> is_gap p (c :: g).
Proof. unfold is_gap. simpl. now intros -> ->. Qed.

Lemma is_run_cons (c : ascii) (w : str) :
  p c = true -> forallb p w = true -> is_run p (c :: w).
Proof. intros Hc Hw. split; [discriminate|]. simpl. now rewrite Hc, Hw. Qed.

Lemma parse_exists (s : str) :
  exists its tail, render its tail = s /\ valid p its tail.
Proof.
  induction s as [|c s IH].
  - exists [], []. split; [reflexivity|].
    split; [constructor|]. split; [constructor | reflexivity].
  - destruct IH as [its [tail [Hs [Hok [Hgap Htail]]]]]. subst s.
    destruct (p c) eqn:Hc.
    + destruct its as [|it its].
      * exists [{| gap := []; word := [c] |}], tail.
        split; [reflexivity|]. split; [|split; [constructor | exact Htail]].
        constructor; [|constructor].
        split; [reflexivity | now apply is_run_cons].
      * inversion Hok as [|? ? [Hg1 [Hw1 Hw2]] Hok']; subst.
        destruct (gap it) as [|g0 g] eqn:Hg.
        -- exists ({| gap := []; word := c :: word it |} :: its), tail.
           split; [simpl; now rewrite Hg|].
           split; [|split; [exact Hgap | exact Htail]].
           constructor; [|exact Hok'].
           split; [reflexivity | now apply is_run_cons].
        -- exists ({| gap := []; word := [c] |} :: it :: its), tail.
           split; [reflexivity|].
           split; [|split; [|exact Htail]].
           ++ constructor; [|exact Hok].
              split; [reflexivity | now apply is_run_cons].
           ++ constructor; [rewrite Hg; discriminate | exact Hgap].
    + destruct its as [|it its].
      * exists [], (c :: tail).
        split; [reflexivity|]. split; [constructor|].
        split; [constructor | now apply is_gap_cons].
      * inversion Hok as [|? ? [Hg1 Hw1] Hok']; subst.
        exists ({| gap := c :: gap it; word := word it |} :: its), tail.
        split; [reflexivity|].
        split; [|split; [exact Hgap | exact Htail]].
        constructor; [|exact Hok'].
        split; [now apply is_gap_cons | exact Hw1].
Qed.

End Parse.

(** ** White space: trim and the collapse of runs *)

Section Whitespace.

Lemma forallb_rev (f : ascii -> bool) (l : str) :
  forallb f (rev l) = forallb f l.
Proof.
  induction l as [|c l IH]; [reflexivity|].
  simpl. rewrite forallb_app, IH. simpl. rewrite andb_true_r. apply andb_comm.
Qed.

Lemma trimStart_all_space (l : str) :
  forallb is_space l = true -> trimStart l = [].
Proof.
  induction l as [|c l IH]; simpl; [reflexivity|].
  destruct (is_space c); [exact IH | discriminate].
Qed.

Lemma trimStart_app_space (l r : str) :
  forallb is_space l = true -> trimStart (l ++ r) = trimStart r.
Proof.
  induction l as [|c l IH]; simpl; [reflexivity|].
  destruct (is_space c); [exact IH | discriminate].
Qed.

Lemma trimStart_app_nonspace (l : str) (c : ascii) (r : str) :
  is_space c = false -> trimStart (l ++ c :: r) = trimStart l ++ c :: r.
Proof.
  intros Hc. induction l as [|d l IH]; simpl.
  - now rewrite Hc.
  - destruct (is_space d); [exact IH | reflexivity].
Qed.

Lemma trimStart_decomp (s : str) :
  exists t, s = t ++ trimStart s /\ forallb is_space t = true.
Proof.
  induction s as [|c s [t [H1 H2]]]; [now exists []|].
  simpl. destruct (is_space c) eqn:Hc.
  - exists (c :: t). simpl. rewrite Hc, H2. split; [now rewrite <- H1 | reflexivity].
  - now exists [].
Qed.

Lemma trimStart_head (s : str) (c : ascii) (r : str) :
  trimStart s = c :: r -> is_space c = false.
Proof.
  induction s as [|d s IH]; simpl; [discriminate|].
  destruct (is_space d) eqn:Hd; [exact IH|].
  intros H. injection H as <- _. exact Hd.
Qed.

Lemma trimStart_fixed (c : ascii) (s : str) :
  is_space c = false -> trimStart (c :: s) = c :: s.
Proof. intros H. simpl. now rewrite H. Qed.

Lemma trimStart_idem (s : str) : trimStart (trimStart s) = trimStart s.
Proof.
  destruct (trimStart s) as [|c r] eqn:E; [reflexivity|].
  apply trimStart_fixed. exact (trimStart_head s E).
Qed.

Lemma trimEnd_app_nonspace (a : str) (c : ascii) (t : str) :
  is_space c = false -> trimEnd (a ++ c :: t) = a ++ c :: trimEnd t.
Proof.
  intros Hc. unfold trimEnd.
  rewrite rev_app_distr. simpl. rewrite <- app_assoc. simpl.
  rewrite trimStart_app_nonspace by exact Hc. rewrite rev_app_distr. simpl.
  now rewrite rev_involutive, <- app_assoc.
Qed.

Lemma trimEnd_snoc_space (t : str) (c : ascii) :
  is_space c = true -> trimEnd (t ++ [c]) = trimEnd t.
Proof.
  intros Hc. unfold trimEnd. rewrite rev_app_distr. simpl. now rewrite Hc.
Qed.

Lemma trimEnd_all_space (t : str) :
  forallb is_space t = true -> trimEnd t = [].
Proof.
  intros H. unfold trimEnd. rewrite trimStart_all_space; [reflexivity|].
  now rewrite forallb_rev.
Qed.

Lemma trimEnd_decomp (s : str) :
  exists t, s = trimEnd s ++ t /\ forallb is_space t = true.
Proof.
  destruct (trimStart_decomp (rev s)) as [t [H1 H2]].
  exists (rev t). split; [|now rewrite forallb_rev].
  unfold trimEnd. rewrite <- rev_app_distr, <- H1. now rewrite rev_involutive.
Qed.

(** A white-space character at the end of a line does not survive. *)
Lemma trim_snoc_space (l : str) (c : ascii) :
  is_space c = true -> trim (l ++ [c]) = trim l.
Proof.
  intros Hc. unfold trim.
  destruct (trimStart_decomp l) as [t [H1 H2]].
  destruct (trimStart l) as [|d r] eqn:E.
  - rewrite app_nil_r in H1. subst t.
    rewrite trimStart_all_space; [reflexivity|].
    rewrite forallb_app, H2. simpl. now rewrite Hc.
  - rewrite H1 at 1. rewrite <- app_assoc, trimStart_app_space by exact H2.
    change ((d :: r) ++ [c]) with (d :: r ++ [c]).
    rewrite trimStart_fixed by exact (trimStart_head l E).
    change (d :: r ++ [c]) with ((d :: r) ++ [c]).
    now apply trimEnd_snoc_space.
Qed.

Lemma collapse_app_nonspace (b : bool) (g : str) (c : ascii) (x : str) :
  is_space c = false ->
  replace_ws_runs b (g ++ c :: x)
  = replace_ws_runs b g ++ c :: replace_ws_runs false x.
Proof.
  intros Hc. revert b. induction g as [|d g IH]; intros b; simpl.
  - now rewrite Hc.
  - destruct (is_space d); [destruct b|]; simpl; now rewrite IH.
Qed.

Lemma collapse_run (w r : str) :
  forallb nonspace w = true ->
  replace_ws_runs false (w ++ r) = w ++ replace_ws_runs false r.
Proof.
  induction w as [|c w IH]; simpl; [reflexivity|].
  unfold nonspace at 1. destruct (is_space c); simpl; [discriminate|].
  intros H. now rewrite IH.
Qed.

(** A gap of white space collapses to one space, or stays empty. *)
Lemma collapse_spaces (b : bool) (g : str) :
  forallb is_space g = true ->
  replace_ws_runs b g = if b then [] else match g with [] => [] | _ => [space] end.
Proof.
  revert b. induction g as [|c g IH]; intros b; simpl.
  - now destruct b.
  - destruct (is_space c); [|discriminate]. intros H.
    rewrite (IH true H). now destruct b.
Qed.

End Whitespace.

(** ** White space in a text of words and gaps *)

Unset Implicit Arguments.

Section RenderWhitespace.

Lemma render_app_tail (its : list item) (t1 t2 : str) :
  render its (t1 ++ t2) = render its t1 ++ t2.
Proof.
  induction its as [|it its IH]; simpl; [reflexivity|].
  now rewrite IH, !app_assoc.
Qed.

Lemma solid_word (it : item) :
  word it <> [] /\ forallb nonspace (word it) = true ->
  exists c w, word it = c :: w /\ is_space c = false
              /\ forallb nonspace w = true.
Proof.
  intros [Hne Hall]. destruct (word it) as [|c w]; [congruence|].
  exists c, w. simpl in Hall. apply andb_true_iff in Hall as [Hc Hw].
  unfold nonspace in Hc. apply negb_true_iff in Hc. auto.
Qed.

Lemma solid_last (its : list item) :
  solid its -> its <> [] ->
  exists a c, render its [] = a ++ [c] /\ is_space c = false.
Proof.
  induction its as [|it its IH]; intros Hs Hne; [congruence|].
  inversion Hs as [|? ? Hit Hs']; subst. simpl.
  destruct its as [|it' its].
  - simpl. rewrite app_nil_r.
    destruct Hit as [Hw Hall].
    destruct (exists_last Hw) as [w' [c Hw']].
    exists (gap it ++ w'), c. rewrite Hw', app_assoc. split; [reflexivity|].
    rewrite Hw', forallb_app in Hall. apply andb_true_iff in Hall as [_ Hc].
    simpl in Hc. unfold nonspace in Hc. rewrite andb_true_r in Hc.
    now apply negb_true_iff in Hc.
  - destruct (IH Hs') as [a [c [Ha Hc]]]; [discriminate|].
    exists (gap it ++ word it ++ a), c. rewrite Ha.
    now rewrite <- !app_assoc.
Qed.

Lemma collapse_render (its : list item) (tail : str) :
  solid its ->
  replace_ws_runs false (render its tail)
  = render (map_gaps (replace_ws_runs false) its) (replace_ws_runs false tail).
Proof.
  induction its as [|it its IH]; intros Hs; [reflexivity|].
  inversion Hs as [|? ? Hit Hs']; subst.
  destruct (solid_word it Hit) as [c [w [Hw [Hc Hall]]]].
  simpl. rewrite Hw. simpl.
  rewrite collapse_app_nonspace by exact Hc.
  rewrite collapse_run by exact Hall. now rewrite IH.
Qed.

Lemma trimStart_render (it : item) (its : list item) (tail : str) :
  solid (it :: its) ->
  trimStart (render (it :: its) tail)
  = render (on_first_gap trimStart (it :: its)) tail.
Proof.
  intros Hs. inversion Hs as [|? ? Hit Hs']; subst.
  destruct (solid_word it Hit) as [c [w [Hw [Hc Hall]]]].
  simpl. rewrite Hw. simpl.
  now rewrite trimStart_app_nonspace by exact Hc.
Qed.

Lemma trimEnd_render (its : list item) (tail : str) :
  solid its -> its <> [] ->
  trimEnd (render its tail) = render its (trimEnd tail).
Proof.
  intros Hs Hne. destruct (solid_last its Hs Hne) as [a [c [Ha Hc]]].
  change tail with ([] ++ tail) at 1. rewrite render_app_tail, Ha.
  rewrite <- app_assoc. simpl.
  rewrite trimEnd_app_nonspace by exact Hc.
  change (trimEnd tail) with ([] ++ trimEnd tail) at 2.
  rewrite render_app_tail, Ha, <- app_assoc. reflexivity.
Qed.

Lemma trim_render (it : item) (its : list item) (tail : str) :
  solid (it :: its) ->
  trim (render (it :: its) tail)
  = render (on_first_gap trimStart (it :: its)) (trimEnd tail).
Proof.
  intros Hs. unfold trim. rewrite trimStart_render by exact Hs.
  apply trimEnd_render; [|discriminate].
  inversion Hs; subst. now constructor.
Qed.

End RenderWhitespace.

(** ** The words between white space *)

Section Words.

Lemma chunks_cons (s : str) : exists l ls, chunks s = l :: ls.
Proof.
  destruct s as [|c s]; simpl; [eauto|].
  destruct (is_space c); [eauto|]. destruct (chunks s); eauto.
Qed.

Lemma chunks_app_sep (a : str) (c : ascii) (b : str) :
  is_space c = true -> chunks (a ++ c :: b) = chunks a ++ chunks b.
Proof.
  intros Hc. induction a as [|d a IH]; simpl.
  - now rewrite Hc.
  - rewrite IH. destruct (is_space d); [reflexivity|].
    destruct (chunks_cons a) as [l [ls ->]]. reflexivity.
Qed.

Lemma chunks_solid (w : str) : forallb nonspace w = true -> chunks w = [w].
Proof.
  induction w as [|c w IH]; simpl; [reflexivity|].
  unfold nonspace at 1. destruct (is_space c); simpl; [discriminate|].
  intros H. now rewrite (IH H).
Qed.

Lemma words_app_sep (a : str) (c : ascii) (b : str) :
  is_space c = true -> ws_words (a ++ c :: b) = ws_words a ++ ws_words b.
Proof.
  intros Hc. unfold ws_words. now rewrite chunks_app_sep, filter_app.
Qed.

Lemma words_nil : ws_words [] = [].
Proof. reflexivity. Qed.

Lemma words_all_space (t : str) : forallb is_space t = true -> ws_words t = [].
Proof.
  induction t as [|c t IH]; [reflexivity|]. simpl.
  destruct (is_space c) eqn:Hc; [|discriminate]. intros H.
  change (c :: t) with ([] ++ c :: t). rewrite words_app_sep by exact Hc.
  now rewrite (IH H).
Qed.

Lemma words_lead (t r : str) :
  forallb is_space t = true -> ws_words (t ++ r) = ws_words r.
Proof.
  induction t as [|c t IH]; [reflexivity|]. simpl.
  destruct (is_space c) eqn:Hc; [|discriminate]. intros H.
  change (c :: t ++ r) with ([] ++ c :: (t ++ r)).
  rewrite words_app_sep by exact Hc. now rewrite (IH H).
Qed.

Lemma words_trail (u t : str) :
  forallb is_space t = true -> ws_words (u ++ t) = ws_words u.
Proof.
  destruct t as [|c t]; [now rewrite app_nil_r|]. simpl.
  destruct (is_space c) eqn:Hc; [|discriminate]. intros H.
  rewrite words_app_sep by exact Hc.
  now rewrite (words_all_space t H), app_nil_r.
Qed.

Lemma words_solid (w : str) :
  w <> [] -> forallb nonspace w = true -> ws_words w = [w].
Proof.
  intros Hne H. unfold ws_words. rewrite (chunks_solid w H). simpl.
  destruct w; [congruence | reflexivity].
Qed.

Lemma words_trim (l : str) : ws_words (trim l) = ws_words l.
Proof.
  unfold trim.
  destruct (trimEnd_decomp (trimStart l)) as [t [H1 H2]].
  destruct (trimStart_decomp l) as [t' [H1' H2']].
  rewrite H1' at 2. rewrite (words_lead _ _ H2').
  rewrite H1 at 2. now rewrite (words_trail _ _ H2).
Qed.

Lemma split_nl_cons (x : str) : exists l ls, split_nl x = l :: ls.
Proof.
  destruct x as [|c x]; simpl; [eauto|].
  destruct (code c =? 10); [eauto|]. destruct (split_nl x); eauto.
Qed.

Lemma code_10 (c : ascii) : (code c =? 10) = true -> c = nl.
Proof.
  intros Hc. apply Nat.eqb_eq in Hc. unfold code in Hc.
  rewrite <- (ascii_nat_embedding c), Hc. reflexivity.
Qed.

Lemma join_split_nl (x : str) : join [nl] (split_nl x) = x.
Proof.
  induction x as [|c x IH]; [reflexivity|]. simpl.
  destruct (split_nl_cons x) as [l [ls E]]. rewrite E in *.
  destruct (code c =? 10) eqn:Hc.
  - apply code_10 in Hc. subst c. simpl in *. now rewrite IH.
  - destruct ls; simpl in *; now rewrite <- IH.
Qed.

Lemma words_join (ls : list str) :
  ws_words (join [nl] ls) = concat (map ws_words ls).
Proof.
  induction ls as [|l ls IH]; [reflexivity|].
  destruct ls as [|l' ls].
  - simpl. now rewrite app_nil_r.
  - change (join [nl] (l :: l' :: ls)) with (l ++ nl :: join [nl] (l' :: ls)).
    rewrite words_app_sep by reflexivity. now rewrite IH.
Qed.

Lemma concat_words_filter (ls : list str) :
  concat (map ws_words (filter nonempty ls)) = concat (map ws_words ls).
Proof.
  induction ls as [|l ls IH]; [reflexivity|]. simpl.
  destruct l as [|c l]; simpl; [exact IH | now rewrite IH].
Qed.

End Words.

(** ** The first and the last step of the formatter *)

Section Normalise.

Lemma formatSQL_steps (s : str) :
  formatSQL s = relines (fold_left format_keyword keywords (squeeze s)).
Proof. reflexivity. Qed.

Lemma valid_solid (its : list item) (tail : str) :
  valid nonspace its tail -> solid its.
Proof.
  intros [Hok _]. unfold solid. eapply Forall_impl; [|exact Hok].
  intros it [_ [Hne Hall]]. now split.
Qed.

Lemma gap_spaces (g : str) : is_gap nonspace g -> forallb is_space g = true.
Proof.
  unfold is_gap, nonspace. induction g as [|c g IH]; simpl; [reflexivity|].
  rewrite negb_involutive. destruct (is_space c); simpl; [exact IH | discriminate].
Qed.

Lemma valid_tl (p : ascii -> bool) (it : item) (its : list item) (tail : str) :
  valid p (it :: its) tail -> valid p its tail.
Proof.
  intros [Hok [Hgap Htail]]. inversion Hok; subst. simpl in Hgap.
  split; [assumption|]. split; [|assumption].
  destruct its; [constructor|]. inversion Hgap; subst. assumption.
Qed.

(** What follows a word is nothing or starts with a character of the gaps. *)
Lemma valid_rest (p : ascii -> bool) (its : list item) (tail : str) :
  valid p its tail -> Forall (fun it => gap it <> []) its ->
  render its tail = [] \/
  exists c r, render its tail = c :: r /\ p c = false.
Proof.
  intros [Hok [_ Htail]] Hgap. destruct its as [|it its].
  - simpl. destruct tail as [|c t]; [now left|]. right. exists c, t.
    split; [reflexivity|]. unfold is_gap in Htail. simpl in Htail.
    apply andb_true_iff in Htail as [Hc _]. now apply negb_true_iff in Hc.
  - right. inversion Hgap as [|? ? Hg _]; subst.
    inversion Hok as [|? ? [Hig _] _]; subst.
    destruct (gap it) as [|c g] eqn:E; [congruence|].
    exists c, (g ++ word it ++ render its tail). simpl. rewrite E.
    split; [reflexivity|]. unfold is_gap in Hig. simpl in Hig.
    apply andb_true_iff in Hig as [Hc _]. now apply negb_true_iff in Hc.
Qed.

Lemma words_render (its : list item) (tail : str) :
  valid nonspace its tail -> ws_words (render its tail) = map word its.
Proof.
  induction its as [|it its IH]; intros Hv.
  - simpl. apply words_all_space. apply gap_spaces. apply Hv.
  - pose proof (valid_tl _ _ _ _ Hv) as Hv'.
    destruct Hv as [Hok [Hgap Htail]]. inversion Hok as [|? ? [Hg [Hne Hall]] _]; subst.
    simpl. rewrite (words_lead _ _ (gap_spaces _ Hg)).
    destruct (valid_rest _ _ _ Hv' Hgap) as [E | [c [r [E Hc]]]].
    + rewrite E, app_nil_r. rewrite <- (IH Hv'), E.
      now rewrite (words_solid _ Hne Hall).
    + unfold nonspace in Hc. apply negb_false_iff in Hc.
      rewrite <- (IH Hv'), E.
      rewrite (words_app_sep _ _ _ Hc), (words_solid _ Hne Hall).
      change (c :: r) with ([] ++ c :: r).
      now rewrite (words_app_sep _ _ _ Hc).
Qed.

Lemma render_single_spaced (its : list item) :
  Forall (fun it => gap it = [space]) its ->
  render its [] = concat (map (fun w => space :: w) (map word its)).
Proof.
  induction its as [|it its IH]; intros H; [reflexivity|].
  inversion H as [|? ? Hg H']; subst. simpl. now rewrite Hg, (IH H').
Qed.

Lemma join_space (w : str) (ws : list str) :
  join [space] (w :: ws) = w ++ concat (map (fun v => space :: v) ws).
Proof.
  revert w. induction ws as [|v ws IH]; intros w.
  - simpl. now rewrite app_nil_r.
  - change (join [space] (w :: v :: ws)) with (w ++ space :: join [space] (v :: ws)).
    now rewrite IH.
Qed.

(** The first step leaves the words, one space apart. *)
Lemma squeeze_words (s : str) : squeeze s = join [space] (ws_words s).
Proof.
  destruct (parse_exists nonspace s) as [its [tail [<- Hv]]].
  rewrite (words_render _ _ Hv). unfold squeeze.
  rewrite (collapse_render _ _ (valid_solid _ _ Hv)).
  destruct Hv as [Hok [Hgap Htail]].
  assert (Ht : trimEnd (replace_ws_runs false tail) = []).
  { rewrite (collapse_spaces false _ (gap_spaces _ Htail)).
    destruct tail; reflexivity. }
  destruct its as [|it its].
  - simpl. unfold trim.
    rewrite (collapse_spaces false _ (gap_spaces _ Htail)).
    destruct tail; reflexivity.
  - assert (Hs : solid (map_gaps (replace_ws_runs false) (it :: its))).
    { unfold solid, map_gaps. rewrite Forall_map. simpl.
      eapply Forall_impl; [|exact Hok]. intros x [_ [Hne Hall]]. now split. }
    change (map_gaps (replace_ws_runs false) (it :: its)) with
      ({| gap := replace_ws_runs false (gap it); word := word it |}
         :: map_gaps (replace_ws_runs false) its) in *.
    rewrite (trim_render _ _ _ Hs), Ht. simpl on_first_gap.
    inversion Hok as [|? ? [Hg _] Hok']; subst.
    assert (Hg0 : trimStart (replace_ws_runs false (gap it)) = []).
    { rewrite (collapse_spaces false _ (gap_spaces _ Hg)).
      destruct (gap it); reflexivity. }
    cbn [render gap word]. rewrite Hg0. cbn [app map].
    rewrite join_space. f_equal.
    rewrite render_single_spaced.
    + unfold map_gaps. now rewrite !map_map.
    + simpl in Hgap. unfold map_gaps. rewrite Forall_map. simpl.
      rewrite Forall_forall in *. intros x Hx.
      destruct (Hok' x Hx) as [Hgx _]. specialize (Hgap x Hx).
      rewrite (collapse_spaces false _ (gap_spaces _ Hgx)).
      destruct (gap x); [congruence | reflexivity].
Qed.

(** The last step keeps the words. *)
Lemma words_relines (x : str) : ws_words (relines x) = ws_words x.
Proof.
  unfold relines. rewrite words_join.
  change (fun line : str => 0 <? length line) with nonempty.
  rewrite concat_words_filter, map_map.
  rewrite (map_ext _ ws_words) by apply words_trim.
  now rewrite <- words_join, join_split_nl.
Qed.

Lemma squeeze_relines (x : str) : squeeze (relines x) = squeeze x.
Proof. now rewrite !squeeze_words, words_relines. Qed.

End Normalise.

(** ** The keyword patterns on words and gaps *)

Lemma keywords_kwds : keywords = map kwd_text kwds.
Proof. reflexivity. Qed.

Lemma kwds_ok : Forall kwd_ok kwds.
Proof.
  repeat constructor; discriminate.
Qed.

Section Scan.

Lemma last_opt_cons (c : ascii) (m : str) (prev : option ascii) :
  last_opt (c :: m) prev = last_opt m (Some c).
Proof.
  unfold last_opt. simpl. destruct (rev m) as [|d r]; reflexivity.
Qed.

Lemma last_opt_snoc (m : str) (c : ascii) (prev : option ascii) :
  last_opt (m ++ [c]) prev = Some c.
Proof. unfold last_opt. now rewrite rev_app_distr. Qed.

Lemma same_word_iff (w k : str) : same_word w k = true <-> eq_ci w k.
Proof. unfold same_word. now rewrite str_eqb_eq, eq_ci_upper. Qed.

Lemma eq_ci_word (m k : str) :
  eq_ci m k -> forallb is_word k = true -> forallb is_word m = true.
Proof.
  rewrite eq_ci_upper. revert k. induction m as [|c m IH]; intros [|d k] H Hk;
    try discriminate; [reflexivity|].
  simpl in *. injection H as Hc Hm. apply andb_true_iff in Hk as [Hd Hk].
  rewrite <- is_word_upper, Hc, is_word_upper, Hd. simpl. now apply (IH k).
Qed.

Lemma eq_ci_app (m a b : str) :
  eq_ci m (a ++ b) ->
  exists ma mb, m = ma ++ mb /\ eq_ci ma a /\ eq_ci mb b.
Proof.
  rewrite eq_ci_upper. unfold toUpperCase. rewrite map_app. intros H.
  apply map_eq_app in H as [ma [mb [-> [Ha Hb]]]].
  exists ma, mb. split; [reflexivity|]. now rewrite !eq_ci_upper.
Qed.

Lemma upper_space (c : ascii) : upper c = space -> c = space.
Proof.
  destruct c as [[] [] [] [] [] [] [] []]; intros H; try reflexivity;
    discriminate H.
Qed.

Lemma is_word_space : is_word space = false.
Proof. reflexivity. Qed.

(** A run of word characters at the head of a word and what follows it
    lies inside the word. *)
Lemma word_prefix (m w rest r : str) :
  forallb is_word m = true -> starts_gap rest ->
  w ++ rest = m ++ r -> exists w', w = m ++ w' /\ r = w' ++ rest.
Proof.
  revert w. induction m as [|c m IH]; intros w Hm Hrest H.
  - exists w. now split.
  - simpl in Hm. apply andb_true_iff in Hm as [Hc Hm].
    destruct w as [|d w]; simpl in H.
    + subst rest. simpl in Hrest. congruence.
    + injection H as -> H. destruct (IH w Hm Hrest H) as [w' [-> ->]].
      now exists w'.
Qed.

Lemma starts_gap_app (w rest : str) :
  forallb is_word w = true -> starts_gap (w ++ rest) -> w = [].
Proof.
  destruct w as [|c w]; [reflexivity|]. simpl.
  intros H Hs. apply andb_true_iff in H as [Hc _]. congruence.
Qed.

Lemma boundary_after_word (c : ascii) (r : str) :
  is_word c = true -> (boundary (Some c) r = true <-> starts_gap r).
Proof.
  intros Hc. unfold boundary, starts_gap. rewrite Hc.
  destruct r as [|d r]; simpl; [tauto|].
  destruct (is_word d); simpl; split; congruence.
Qed.

Lemma boundary_before_word (prev : option ascii) (c : ascii) (r : str) :
  is_word c = true -> at_gap prev -> boundary prev (c :: r) = true.
Proof.
  intros Hc Hp. unfold boundary. rewrite Hc.
  destruct prev as [d|]; simpl in *; [now rewrite Hp | reflexivity].
Qed.

Lemma strip_i_last (pat : str) (prev : option ascii) (s : str)
  (l : option ascii) (r : str) :
  strip_i pat prev s = Some (l, r) ->
  exists m, s = m ++ r /\ eq_ci m pat /\ l = last_opt m prev.
Proof.
  revert prev s. induction pat as [|x pat IH]; intros prev s H; simpl in H.
  - injection H as <- <-. exists []. repeat split.
  - destruct s as [|c s]; [discriminate|].
    destruct (ascii_eqb (upper x) (upper c)) eqn:E; [|discriminate].
    apply ascii_eqb_eq in E. destruct (IH _ _ H) as [m [-> [Hm ->]]].
    exists (c :: m). split; [reflexivity|]. split.
    + apply eq_ci_upper. apply eq_ci_upper in Hm. simpl. now rewrite E, Hm.
    + now rewrite last_opt_cons.
Qed.

Lemma strip_i_match (pat : str) (prev : option ascii) (m r : str) :
  eq_ci m pat -> strip_i pat prev (m ++ r) = Some (last_opt m prev, r).
Proof.
  revert prev m. induction pat as [|x pat IH]; intros prev m H.
  - apply eq_ci_length in H. destruct m; [reflexivity | discriminate].
  - destruct m as [|c m]; [apply eq_ci_length in H; discriminate|].
    apply eq_ci_upper in H. simpl in H. injection H as Hc Hm.
    simpl. rewrite <- Hc, ascii_eqb_refl, last_opt_cons.
    apply IH. now apply eq_ci_upper.
Qed.

Lemma last_opt_word (m : str) (prev : option ascii) :
  m <> [] -> forallb is_word m = true ->
  exists c, last_opt m prev = Some c /\ is_word c = true.
Proof.
  intros Hne Hm. destruct (exists_last Hne) as [m' [c ->]].
  exists c. rewrite last_opt_snoc. split; [reflexivity|].
  rewrite forallb_app in Hm. apply andb_true_iff in Hm as [_ Hc].
  simpl in Hc. now rewrite andb_true_r in Hc.
Qed.

End Scan.

Section ScanText.

Variables pat rep : str.
Variable p0 : ascii.
Variable pat' : str.
Hypothesis pat_head : pat = p0 :: pat'.
Hypothesis p0_word : is_word p0 = true.

Lemma bool_eq_iff (a b : bool) : (a = true <-> b = true) -> a = b.
Proof.
  destruct a, b; intros [H1 H2]; try reflexivity.
  - symmetry. now apply H1.
  - now apply H2.
Qed.

Lemma no_hit_in_gap (prev : option ascii) (c : ascii) (x : str) :
  is_word c = false -> lit_here true pat prev (c :: x) = false.
Proof.
  intros Hc. unfold lit_here. rewrite pat_head. simpl.
  destruct (ascii_eqb (upper p0) (upper c)) eqn:E; [|reflexivity].
  apply ascii_eqb_eq in E.
  rewrite <- is_word_upper, <- E, is_word_upper in Hc. congruence.
Qed.

Lemma no_hit_in_word (p c : ascii) (x : str) :
  is_word p = true -> is_word c = true ->
  lit_here true pat (Some p) (c :: x) = false.
Proof.
  intros Hp Hc. unfold lit_here.
  destruct (strip_i pat (Some p) (c :: x)) as [[l r]|]; [|reflexivity].
  unfold boundary at 1. now rewrite Hp, Hc.
Qed.

Lemma scan_gap (g : str) (prev : option ascii) (x : str) :
  is_gap is_word g ->
  replace_scan true pat rep 0 prev (g ++ x)
  = g ++ replace_scan true pat rep 0 (last_opt g prev) x.
Proof.
  revert prev. induction g as [|c g IH]; intros prev Hg; [reflexivity|].
  unfold is_gap in Hg. simpl in Hg. apply andb_true_iff in Hg as [Hc Hg].
  apply negb_true_iff in Hc.
  change ((c :: g) ++ x) with (c :: g ++ x). cbn [replace_scan].
  fold (lit_here true pat prev (c :: g ++ x)).
  rewrite (no_hit_in_gap prev c (g ++ x) Hc).
  rewrite (IH (Some c) Hg), last_opt_cons. reflexivity.
Qed.

Lemma scan_inside (w : str) (p : ascii) (x : str) :
  is_word p = true -> forallb is_word w = true ->
  replace_scan true pat rep 0 (Some p) (w ++ x)
  = w ++ replace_scan true pat rep 0 (last_opt w (Some p)) x.
Proof.
  revert p. induction w as [|c w IH]; intros p Hp Hw; [reflexivity|].
  simpl in Hw. apply andb_true_iff in Hw as [Hc Hw].
  change ((c :: w) ++ x) with (c :: w ++ x). cbn [replace_scan].
  fold (lit_here true pat (Some p) (c :: w ++ x)).
  rewrite (no_hit_in_word p c (w ++ x) Hp Hc).
  rewrite (IH c Hc Hw), last_opt_cons. reflexivity.
Qed.

Lemma scan_skip (m rest : str) (p : option ascii) :
  replace_scan true pat rep (length m) p (m ++ rest)
  = replace_scan true pat rep 0 (last_opt m p) rest.
Proof.
  revert p. induction m as [|c m IH]; intros p; [reflexivity|].
  simpl. rewrite IH, last_opt_cons. reflexivity.
Qed.

Lemma scan_hit (m rest : str) (prev : option ascii) :
  eq_ci m pat -> lit_here true pat prev (m ++ rest) = true ->
  replace_scan true pat rep 0 prev (m ++ rest)
  = rep ++ replace_scan true pat rep 0 (last_opt m prev) rest.
Proof.
  intros Hm Hhit. pose proof (eq_ci_length Hm) as L.
  destruct m as [|c m]; [rewrite pat_head in L; discriminate|].
  change ((c :: m) ++ rest) with (c :: m ++ rest) in *. cbn [replace_scan].
  fold (lit_here true pat prev (c :: m ++ rest)). rewrite Hhit.
  replace (length pat - 1) with (length m) by (simpl in L; lia).
  now rewrite scan_skip, last_opt_cons.
Qed.

Lemma scan_miss (w rest : str) (prev : option ascii) :
  is_run is_word w -> lit_here true pat prev (w ++ rest) = false ->
  replace_scan true pat rep 0 prev (w ++ rest)
  = w ++ replace_scan true pat rep 0 (last_opt w prev) rest.
Proof.
  intros [Hne Hw] Hmiss. destruct w as [|c w]; [congruence|].
  simpl in Hw. apply andb_true_iff in Hw as [Hc Hw].
  change ((c :: w) ++ rest) with (c :: w ++ rest) in *. cbn [replace_scan].
  fold (lit_here true pat prev (c :: w ++ rest)). rewrite Hmiss.
  now rewrite (scan_inside w c rest Hc Hw), last_opt_cons.
Qed.

End ScanText.

Section Hits.

Lemma last_opt_app (m1 m2 : str) (prev : option ascii) :
  last_opt (m1 ++ m2) prev = last_opt m2 (last_opt m1 prev).
Proof.
  unfold last_opt. rewrite rev_app_distr.
  destruct (rev m2) as [|c r]; reflexivity.
Qed.

Lemma run_head (w : str) :
  is_run is_word w ->
  exists c w', w = c :: w' /\ is_word c = true /\ forallb is_word w' = true.
Proof.
  intros [Hne Hw]. destruct w as [|c w']; [congruence|].
  simpl in Hw. apply andb_true_iff in Hw as [Hc Hw]. eauto.
Qed.

Lemma at_gap_last (g : str) (prev : option ascii) :
  is_gap is_word g -> g <> [] \/ at_gap prev -> at_gap (last_opt g prev).
Proof.
  intros Hg H. destruct g as [|c g].
  - destruct H as [H | H]; [congruence | exact H].
  - destruct (@exists_last _ (c :: g)) as [g' [d E]]; [discriminate|].
    rewrite E, last_opt_snoc. simpl.
    unfold is_gap in Hg. rewrite E, forallb_app in Hg.
    apply andb_true_iff in Hg as [_ Hd]. simpl in Hd.
    rewrite andb_true_r in Hd. now apply negb_true_iff in Hd.
Qed.

(** One word: the pattern matches at a word exactly when it is the word. *)
Lemma hit_one (k w rest : str) (prev : option ascii) :
  is_run is_word k -> is_run is_word w -> at_gap prev -> starts_gap rest ->
  lit_here true k prev (w ++ rest) = same_word w k.
Proof.
  intros Hk Hw Hprev Hrest. apply bool_eq_iff. rewrite same_word_iff. split.
  - unfold lit_here.
    destruct (strip_i k prev (w ++ rest)) as [[l r]|] eqn:E; [|discriminate].
    simpl. intros H. apply andb_true_iff in H as [_ H2].
    destruct (strip_i_last _ _ _ _ _ E) as [m [Hs [Hm ->]]].
    pose proof (eq_ci_word _ _ Hm (proj2 Hk)) as Hmw.
    assert (Hmne : m <> []).
    { intros ->. apply eq_ci_length in Hm. destruct Hk as [Hk _].
      destruct k; [congruence | discriminate]. }
    destruct (word_prefix m w rest r Hmw Hrest Hs) as [w' [-> ->]].
    destruct (last_opt_word m prev Hmne Hmw) as [c [Hl Hc]].
    rewrite Hl in H2. apply (boundary_after_word c _ Hc) in H2.
    destruct Hw as [_ Hw]. rewrite forallb_app in Hw.
    apply andb_true_iff in Hw as [_ Hw'].
    rewrite (starts_gap_app w' rest Hw' H2), app_nil_r. exact Hm.
  - intros Hm. unfold lit_here. rewrite (strip_i_match k prev w rest Hm).
    simpl. destruct (run_head w Hw) as [c [w' [-> [Hc Hw']]]].
    change ((c :: w') ++ rest) with (c :: w' ++ rest).
    rewrite boundary_before_word by assumption. simpl.
    destruct (last_opt_word (c :: w') prev) as [d [-> Hd]];
      [discriminate | simpl; now rewrite Hc, Hw' |].
    now apply boundary_after_word.
Qed.

Lemma eq_ci_cons (c d : ascii) (m k : str) :
  eq_ci (c :: m) (d :: k) <-> upper c = upper d /\ eq_ci m k.
Proof.
  rewrite !eq_ci_upper. simpl. split.
  - intros H. now injection H.
  - intros [-> ->]. reflexivity.
Qed.

Lemma eq_ci_two (w w2 a b : str) :
  eq_ci w a -> eq_ci w2 b -> eq_ci (w ++ space :: w2) (a ++ space :: b).
Proof.
  rewrite !eq_ci_upper. unfold toUpperCase. rewrite !map_app. simpl.
  now intros -> ->.
Qed.

(** Two words: where the pattern matches at a word, the word is the first,
    one space follows, and then a run that is the second word up to case. *)
Lemma hit_two_shape (a b w rest : str) (prev : option ascii) :
  is_run is_word a -> is_run is_word b ->
  forallb is_word w = true -> starts_gap rest ->
  lit_here true (a ++ space :: b) prev (w ++ rest) = true ->
  eq_ci w a /\
  exists mb r, rest = space :: mb ++ r /\ eq_ci mb b /\ mb <> []
               /\ forallb is_word mb = true /\ starts_gap r.
Proof.
  intros Ha Hb Hw Hrest. unfold lit_here.
  destruct (strip_i _ prev (w ++ rest)) as [[l r]|] eqn:E; [|discriminate].
  simpl. intros H. apply andb_true_iff in H as [_ H2].
  destruct (strip_i_last _ _ _ _ _ E) as [m [Hs [Hm ->]]].
  destruct (eq_ci_app _ _ _ Hm) as [ma [mb' [-> [Hma Hmb']]]].
  destruct mb' as [|c mb]; [apply eq_ci_length in Hmb'; discriminate|].
  apply eq_ci_cons in Hmb' as [Hc Hmb].
  change (upper space) with space in Hc. apply upper_space in Hc. subst c.
  pose proof (eq_ci_word _ _ Hma (proj2 Ha)) as Hmaw.
  pose proof (eq_ci_word _ _ Hmb (proj2 Hb)) as Hmbw.
  assert (Hmbne : mb <> []).
  { intros ->. apply eq_ci_length in Hmb. destruct Hb as [Hb _].
    destruct b; [congruence | discriminate]. }
  rewrite <- app_assoc in Hs.
  destruct (word_prefix ma w rest _ Hmaw Hrest Hs) as [w' [-> Hr]].
  rewrite forallb_app in Hw. apply andb_true_iff in Hw as [_ Hw'].
  destruct w' as [|x w'].
  - rewrite app_nil_r. split; [exact Hma|]. simpl in Hr.
    exists mb, r. split; [now symmetry|]. repeat split; try assumption.
    rewrite last_opt_app, last_opt_cons in H2.
    destruct (last_opt_word mb (Some space) Hmbne Hmbw) as [d [Hl Hd]].
    rewrite Hl in H2. now apply (boundary_after_word d r Hd).
  - exfalso. simpl in Hr, Hw'. injection Hr as <- _.
    rewrite is_word_space in Hw'. discriminate.
Qed.

Lemma hit_two_tail (a b w tail : str) (prev : option ascii) :
  is_run is_word a -> is_run is_word b -> is_run is_word w ->
  is_gap is_word tail ->
  lit_here true (a ++ space :: b) prev (w ++ tail) = false.
Proof.
  intros Ha Hb Hw Htail. apply not_true_is_false. intros H.
  assert (Hs : starts_gap tail).
  { destruct tail as [|c t]; [exact I|]. unfold is_gap in Htail.
    simpl in *. apply andb_true_iff in Htail as [Hc _].
    now apply negb_true_iff in Hc. }
  destruct (hit_two_shape a b w tail prev Ha Hb (proj2 Hw) Hs H)
    as [_ [mb [r [-> [_ [Hne [Hmb _]]]]]]].
  destruct mb as [|c mb]; [congruence|].
  unfold is_gap in Htail. simpl in Htail, Hmb.
  apply andb_true_iff in Hmb as [Hc _]. rewrite Hc in Htail.
  simpl in Htail. discriminate.
Qed.

Lemma hit_two (a b w g2 w2 rest2 : str) (prev : option ascii) :
  is_run is_word a -> is_run is_word b -> is_run is_word w ->
  at_gap prev -> g2 <> [] -> is_gap is_word g2 -> is_run is_word w2 ->
  starts_gap rest2 ->
  lit_here true (a ++ space :: b) prev (w ++ g2 ++ w2 ++ rest2)
  = same_word w a && str_eqb g2 [space] && same_word w2 b.
Proof.
  intros Ha Hb Hw Hprev Hg2ne Hg2 Hw2 Hrest2. apply bool_eq_iff.
  rewrite !andb_true_iff, !same_word_iff, str_eqb_eq. split.
  - intros H.
    assert (Hs : starts_gap (g2 ++ w2 ++ rest2)).
    { destruct g2 as [|c g]; [congruence|]. unfold is_gap in Hg2.
      simpl in *. apply andb_true_iff in Hg2 as [Hc _].
      now apply negb_true_iff in Hc. }
    destruct (hit_two_shape a b w _ prev Ha Hb (proj2 Hw) Hs H)
      as [Hwa [mb [r [Hr [Hmb [Hne [Hmbw Hsr]]]]]]].
    destruct g2 as [|c g]; [congruence|]. simpl in Hr. injection Hr as -> Hr.
    destruct g as [|y g].
    + simpl in Hr.
      destruct (word_prefix mb w2 rest2 r Hmbw Hrest2 Hr) as [w'' [-> ->]].
      destruct Hw2 as [_ Hw2]. rewrite forallb_app in Hw2.
      apply andb_true_iff in Hw2 as [_ Hw''].
      rewrite (starts_gap_app w'' rest2 Hw'' Hsr), app_nil_r. auto.
    + exfalso. destruct mb as [|e mb]; [congruence|].
      simpl in Hr. injection Hr as -> _.
      unfold is_gap in Hg2. simpl in Hg2, Hmbw.
      apply andb_true_iff in Hmbw as [He _]. rewrite He in Hg2.
      simpl in Hg2. discriminate.
  - intros [[Hwa ->] Hwb]. unfold lit_here.
    change (w ++ [space] ++ w2 ++ rest2) with (w ++ space :: w2 ++ rest2).
    replace (w ++ space :: w2 ++ rest2) with ((w ++ space :: w2) ++ rest2)
      by now rewrite <- app_assoc.
    rewrite (strip_i_match _ prev _ rest2 (eq_ci_two w w2 a b Hwa Hwb)).
    simpl. rewrite <- app_assoc.
    destruct (run_head w Hw) as [c [w' [-> [Hc Hw']]]].
    change ((c :: w') ++ (space :: w2) ++ rest2)
      with (c :: w' ++ (space :: w2) ++ rest2).
    rewrite boundary_before_word by assumption. simpl.
    rewrite app_comm_cons, last_opt_app, last_opt_cons.
    destruct (last_opt_word w2 (Some space) (proj1 Hw2) (proj2 Hw2))
      as [d [-> Hd]].
    now apply boundary_after_word.
Qed.

End Hits.

Section PassText.

Lemma render_starts_gap (its : list item) (tail : str) :
  Forall (ok_item is_word) its -> Forall (fun it => gap it <> []) its ->
  is_gap is_word tail -> starts_gap (render its tail).
Proof.
  intros Hok Hgap Htail. destruct its as [|it its]; simpl.
  - destruct tail as [|c t]; [exact I|]. unfold is_gap in Htail. simpl in *.
    apply andb_true_iff in Htail as [Hc _]. now apply negb_true_iff in Hc.
  - inversion Hgap as [|? ? Hg _]; subst.
    inversion Hok as [|? ? [Hig _] _]; subst.
    destruct (gap it) as [|c g]; [congruence|]. unfold is_gap in Hig.
    simpl in *. apply andb_true_iff in Hig as [Hc _].
    now apply negb_true_iff in Hc.
Qed.

Lemma kwd_text_head (k : kwd) :
  kwd_ok k -> exists p0 pat', kwd_text k = p0 :: pat' /\ is_word p0 = true.
Proof.
  destruct k as [k1 | a b]; simpl.
  - intros H. destruct (run_head k1 H) as [c [w' [-> [Hc _]]]]. eauto.
  - intros [H _]. destruct (run_head a H) as [c [w' [-> [Hc _]]]].
    simpl. eauto.
Qed.

(** The pattern of a keyword, run over a text, is [pass] on its words. *)
Lemma scan_render (k : kwd) (tail : str) :
  kwd_ok k -> is_gap is_word tail ->
  forall n its prev,
    length its <= n ->
    Forall (ok_item is_word) its ->
    Forall (fun it => gap it <> []) (tl its) ->
    match its with
    | it :: _ => gap it <> [] \/ at_gap prev
    | [] => True
    end ->
    replace_scan true (kwd_text k) (kwd_rep k) 0 prev (render its tail)
    = render (pass k its) tail.
Proof.
  intros Hk Htail.
  destruct (kwd_text_head k Hk) as [p0 [pat' [Hpat Hp0]]].
  induction n as [|n IH]; intros its prev Hlen Hok Hgaps Hfirst.
  { destruct its; [|simpl in Hlen; lia]. simpl.
    rewrite <- (app_nil_r tail) at 1.
    rewrite (scan_gap _ _ p0 pat' Hpat Hp0 tail prev [] Htail).
    simpl. now rewrite app_nil_r. }
  destruct its as [|it its].
  { simpl. rewrite <- (app_nil_r tail) at 1.
    rewrite (scan_gap _ _ p0 pat' Hpat Hp0 tail prev [] Htail).
    simpl. now rewrite app_nil_r. }
  inversion Hok as [|? ? [Hg Hw] Hok']; subst. simpl in Hgaps, Hlen.
  cbn [render].
  rewrite (scan_gap _ _ p0 pat' Hpat Hp0 (gap it) prev _ Hg).
  pose proof (at_gap_last (gap it) prev Hg Hfirst) as Hprev'.
  set (prev' := last_opt (gap it) prev) in *.
  pose proof (render_starts_gap its tail Hok' Hgaps Htail) as Hrest.
  assert (Hnext : forall its1, its1 = its ->
            match its1 with
            | it1 :: _ => gap it1 <> [] \/ at_gap (last_opt (word it) prev')
            | [] => True
            end).
  { intros its1 ->. destruct its as [|it1 its1]; [exact I|].
    left. now inversion Hgaps. }
  assert (Htl : Forall (fun it => gap it <> []) (tl its)).
  { destruct its as [|it1 its1]; [constructor|]. now inversion Hgaps. }
  assert (Hl1 : length its <= n) by lia.
  assert (Hl2 : length (tl its) <= n) by (destruct its; simpl in *; lia).
  destruct k as [k1 | a b]; cbn [kwd_text kwd_rep kwd_ok pass] in *.
  - rewrite <- (hit_one k1 (word it) (render its tail) prev' Hk Hw Hprev' Hrest).
    destruct (lit_here true k1 prev' (word it ++ render its tail)) eqn:E.
    + pose proof E as E'.
      rewrite (hit_one k1 (word it) _ prev' Hk Hw Hprev' Hrest) in E'.
      apply same_word_iff in E'.
      rewrite (scan_hit _ _ p0 pat' Hpat (word it) _ prev' E' E).
      rewrite (IH its _ Hl1 Hok' Htl (Hnext its eq_refl)).
      apply eq_ci_upper in E'. cbn [render mark gap word].
      rewrite E', <- !app_assoc. reflexivity.
    + rewrite (scan_miss _ _ (word it) _ prev' Hw E).
      rewrite (IH its _ Hl1 Hok' Htl (Hnext its eq_refl)).
      reflexivity.
  - destruct Hk as [Ha Hb].
    destruct its as [|it2 its''].
    + cbn [render] in *.
      pose proof (hit_two_tail a b (word it) tail prev' Ha Hb Hw Htail) as E.
      rewrite (scan_miss _ _ (word it) _ prev' Hw E).
      rewrite <- (app_nil_r tail) at 1.
      rewrite (scan_gap _ _ p0 pat' Hpat Hp0 tail _ [] Htail).
      simpl. now rewrite app_nil_r.
    + inversion Hok' as [|? ? [Hg2 Hw2] Hok'']; subst.
      inversion Hgaps as [|? ? Hg2ne Hgaps'']; subst.
      pose proof (render_starts_gap its'' tail Hok'' Hgaps'' Htail) as Hrest2.
      cbn [render] in *.
      rewrite <- (hit_two a b (word it) (gap it2) (word it2) (render its'' tail)
                    prev' Ha Hb Hw Hprev' Hg2ne Hg2 Hw2 Hrest2).
      destruct (lit_here true (a ++ space :: b) prev'
                  (word it ++ gap it2 ++ word it2 ++ render its'' tail)) eqn:E.
      * pose proof E as E'.
        rewrite (hit_two a b (word it) (gap it2) (word it2) (render its'' tail)
                   prev' Ha Hb Hw Hprev' Hg2ne Hg2 Hw2 Hrest2) in E'.
        apply andb_true_iff in E' as [E' E3].
        apply andb_true_iff in E' as [E1 E2].
        apply same_word_iff in E1. apply same_word_iff in E3.
        apply str_eqb_eq in E2. rewrite E2 in *.
        pose proof (eq_ci_two _ _ _ _ E1 E3) as Em.
        change (word it ++ [space] ++ word it2 ++ render its'' tail)
          with (word it ++ space :: word it2 ++ render its'' tail) in *.
        replace (word it ++ space :: word it2 ++ render its'' tail)
          with ((word it ++ space :: word it2) ++ render its'' tail) in *
          by now rewrite <- app_assoc.
        rewrite (scan_hit _ _ p0 pat' Hpat _ _ prev' Em E).
        assert (Hfirst2 : match its'' with
                          | it3 :: _ => gap it3 <> [] \/
                              at_gap (last_opt (word it ++ space :: word it2) prev')
                          | [] => True
                          end).
        { destruct its'' as [|it3 its3]; [exact I|]. left. now inversion Hgaps''. }
        assert (Htl2 : Forall (fun it => gap it <> []) (tl its'')).
        { destruct its'' as [|it3 its3]; [constructor|]. now inversion Hgaps''. }
        rewrite (IH its'' _ Hl2 Hok'' Htl2 Hfirst2).
        apply eq_ci_upper in Em.
        cbn [render mark raise gap word]. unfold kwd_rep. cbn [kwd_text].
        rewrite <- Em, E2.
        unfold toUpperCase. rewrite map_app. cbn [map].
        change (upper space) with space.
        rewrite <- !app_assoc. simpl. rewrite <- !app_assoc. reflexivity.
      * rewrite (scan_miss _ _ (word it) _ prev' Hw E).
        change (gap it2 ++ word it2 ++ render its'' tail)
          with (render (it2 :: its'') tail).
        rewrite (IH (it2 :: its'') _ Hl1 Hok' Htl (Hnext _ eq_refl)).
        reflexivity.
Qed.

End PassText.

(** ** All keywords in turn *)

Section Passes.

Lemma pass_step (k : kwd) (n : nat) (its : list item) :
  length its <= n -> Forall2 step its (pass k its).
Proof.
  revert its. induction n as [|n IH]; intros its Hlen.
  { destruct its; [constructor | simpl in Hlen; lia]. }
  destruct its as [|it its]; [constructor|]. simpl in Hlen.
  assert (Hl1 : length its <= n) by lia.
  assert (Hl2 : length (tl its) <= n) by (destruct its; simpl in *; lia).
  destruct k as [k1 | a b]; cbn [pass].
  - destruct (same_word (word it) k1); constructor;
      unfold step; auto.
  - destruct its as [|it2 its''].
    + constructor; [unfold step; auto | constructor].
    + destruct (same_word (word it) a && str_eqb (gap it2) [space]
                && same_word (word it2) b).
      * constructor; [unfold step; auto|].
        constructor; [unfold step; auto|]. now apply IH.
      * constructor; [unfold step; auto|]. now apply (IH (it2 :: its'')).
Qed.

Lemma is_gap_snoc_nl (g : str) : is_gap is_word g -> is_gap is_word (g ++ [nl]).
Proof.
  unfold is_gap. intros H. now rewrite forallb_app, H.
Qed.

Lemma is_run_upper (w : str) : is_run is_word w -> is_run is_word (toUpperCase w).
Proof.
  intros [Hne Hw]. split.
  - destruct w; [congruence | discriminate].
  - clear Hne. unfold toUpperCase. induction w as [|c w IH]; [reflexivity|].
    simpl in *. apply andb_true_iff in Hw as [Hc Hw].
    now rewrite is_word_upper, Hc, (IH Hw).
Qed.

Lemma step_ok (x y : item) :
  step x y -> ok_item is_word x -> ok_item is_word y.
Proof.
  intros [-> | [-> | ->]] [Hg Hw]; [now split | |]; split; simpl;
    auto using is_gap_snoc_nl, is_run_upper.
Qed.

Lemma step_gap (x y : item) : step x y -> gap x <> [] -> gap y <> [].
Proof.
  intros [-> | [-> | ->]] H; simpl; auto.
  destruct (gap x); [congruence | discriminate].
Qed.

Lemma pass_valid (k : kwd) (its : list item) (tail : str) :
  valid is_word its tail -> valid is_word (pass k its) tail.
Proof.
  intros [Hok [Hgap Htail]].
  pose proof (pass_step k (length its) its (le_n _)) as Hs.
  split; [|split; [|exact Htail]].
  - clear Hgap. induction Hs as [|x y l l' Hxy _ IH]; [constructor|].
    inversion Hok; subst. constructor; [now apply (step_ok x) | now apply IH].
  - destruct Hs as [|x y l l' _ Hs]; [constructor|]. simpl in *.
    clear Hok. induction Hs as [|x' y' l l' Hxy _ IH]; [constructor|].
    inversion Hgap; subst. constructor; [now apply (step_gap x') | now apply IH].
Qed.

Lemma passes_valid (ks : list kwd) (its : list item) (tail : str) :
  valid is_word its tail -> valid is_word (passes ks its) tail.
Proof.
  revert its. induction ks as [|k ks IH]; intros its Hv; [exact Hv|].
  simpl. apply IH. now apply pass_valid.
Qed.

(** The loop of the formatter on a text, as passes over its words. *)
Lemma format_render (ks : list kwd) (its : list item) (tail : str) :
  Forall kwd_ok ks -> valid is_word its tail ->
  fold_left format_keyword (map kwd_text ks) (render its tail)
  = render (passes ks its) tail.
Proof.
  intros Hks. revert its. induction Hks as [|k ks Hk _ IH]; intros its Hv;
    [reflexivity|].
  simpl. unfold format_keyword at 2. unfold replace_all_word_i.
  destruct Hv as [Hok [Hgap Htail]].
  change (nl :: toUpperCase (kwd_text k)) with (kwd_rep k).
  rewrite (scan_render k tail Hk Htail (length its) its None (le_n _) Hok Hgap).
  - apply IH. apply pass_valid. now repeat split.
  - destruct its; [exact I | now right].
Qed.

End Passes.

(** ** Two runs of the passes side by side

    The first run starts from the squeezed input and ends in [f]; the
    second starts from the squeezed output of the first.  An item [x] of
    the first run, the item [x'] at the same place in the second and the
    item [f] there at the end of the first run stay linked through every
    pass, so both runs mark the same words. *)

Section Lockstep.

Lemma nls_snoc (m : nat) : nls m ++ [nl] = nls (S m).
Proof.
  unfold nls. induction m as [|m IH]; [reflexivity|].
  simpl. now rewrite IH.
Qed.

Lemma snoc_nl_not_space (g : str) : g ++ [nl] <> [space].
Proof.
  intros H. apply (f_equal (@rev ascii)) in H.
  rewrite rev_app_distr in H. simpl in H. discriminate.
Qed.

Lemma linked_mark (x x' f : item) :
  linked x x' f -> later (mark x) f -> linked (mark x) (mark x') f.
Proof.
  intros [Hu [Hw [Hsp Hg]]] Hl. unfold later in Hl. simpl in Hl.
  rewrite toUpperCase_idem in Hl.
  repeat split; simpl.
  - now rewrite !toUpperCase_idem.
  - rewrite <- Hu. destruct Hl as [-> | ->]; reflexivity.
  - intros H. now apply snoc_nl_not_space in H.
  - intros H. now apply snoc_nl_not_space in H.
  - destruct Hg as [-> | [g [m [H1 [H2 [H3 H4]]]]]]; [now left|].
    right. exists g, (S m). rewrite H1, H2, <- !nls_snoc.
    rewrite <- app_assoc. split; [reflexivity|].
    split; [|now split]. now rewrite <- app_assoc.
Qed.

Lemma linked_raise (x x' f : item) :
  linked x x' f -> later (raise x) f -> linked (raise x) (raise x') f.
Proof.
  intros [Hu [Hw [Hsp Hg]]] Hl. unfold later in Hl. simpl in Hl.
  rewrite toUpperCase_idem in Hl.
  repeat split; simpl; try tauto.
  - now rewrite !toUpperCase_idem.
  - rewrite <- Hu. destruct Hl as [-> | ->]; reflexivity.
Qed.

Lemma linked_same_word (x x' f : item) (k : str) :
  linked x x' f -> same_word (word x') k = same_word (word x) k.
Proof. intros [Hu _]. unfold same_word. now rewrite Hu. Qed.

Lemma linked_space (x x' f : item) :
  linked x x' f -> str_eqb (gap x') [space] = str_eqb (gap x) [space].
Proof.
  intros [_ [_ [Hsp _]]]. apply bool_eq_iff. rewrite !str_eqb_eq. tauto.
Qed.

Lemma pass_linked (k : kwd) (n : nat) :
  forall X X' F,
    length X <= n -> linked_all X X' F -> Forall2 later (pass k X) F ->
    linked_all (pass k X) (pass k X') F.
Proof.
  induction n as [|n IH]; intros X X' F Hlen HL Hlat.
  { destruct X; [|simpl in Hlen; lia]. inversion HL; subst. constructor. }
  destruct HL as [|x x' f Xr Xr' Fr Hx HL]; [constructor|].
  simpl in Hlen.
  assert (Hl1 : length Xr <= n) by lia.
  assert (Hl2 : length (tl Xr) <= n) by (destruct Xr; simpl in *; lia).
  destruct k as [k1 | a b]; cbn [pass] in *.
  - rewrite (linked_same_word x x' f k1 Hx).
    destruct (same_word (word x) k1); inversion Hlat; subst.
    + constructor; [now apply linked_mark | now apply IH].
    + constructor; [exact Hx | now apply IH].
  - destruct HL as [|x2 x2' f2 Xr2 Xr2' Fr2 Hx2 HL].
    + constructor; [exact Hx | constructor].
    + rewrite (linked_same_word x x' f a Hx),
        (linked_same_word x2 x2' f2 b Hx2), (linked_space x2 x2' f2 Hx2).
      destruct (same_word (word x) a && str_eqb (gap x2) [space]
                && same_word (word x2) b).
      * inversion Hlat as [|? ? ? ? Hl1' Hlat']; subst.
        inversion Hlat' as [|? ? ? ? Hl2' Hlat'']; subst.
        constructor; [now apply linked_mark|].
        constructor; [now apply linked_raise|]. now apply IH.
      * inversion Hlat as [|? ? ? ? Hl1' Hlat']; subst.
        constructor; [exact Hx|].
        apply (IH (x2 :: Xr2) (x2' :: Xr2') (f2 :: Fr2) Hl1);
          [now constructor | exact Hlat'].
Qed.

Lemma grows_refl (x : item) : grows x x.
Proof. split; [now left | exists 0; now rewrite app_nil_r]. Qed.

Lemma grows_trans (x y z : item) : grows x y -> grows y z -> grows x z.
Proof.
  intros [Hw1 [n1 Hg1]] [Hw2 [n2 Hg2]]. split.
  - unfold later in *.
    destruct Hw1 as [E1 | E1], Hw2 as [E2 | E2]; rewrite E2, E1;
      rewrite ?toUpperCase_idem; auto.
  - exists (n1 + n2). rewrite Hg2, Hg1, <- app_assoc. unfold nls.
    now rewrite repeat_app.
Qed.

Lemma step_grows (x y : item) : step x y -> grows x y.
Proof.
  intros [-> | [-> | ->]]; [apply grows_refl | |]; split; simpl.
  - now right.
  - now exists 1.
  - now right.
  - exists 0. now rewrite app_nil_r.
Qed.

Lemma passes_grows (ks : list kwd) (its : list item) :
  Forall2 grows its (passes ks its).
Proof.
  revert its. induction ks as [|k ks IH]; intros its.
  - simpl. induction its; constructor; [apply grows_refl | assumption].
  - simpl. specialize (IH (pass k its)).
    pose proof (pass_step k (length its) its (le_n _)) as Hs.
    revert IH. generalize (passes ks (pass k its)) as F.
    induction Hs as [|x y l l' Hxy _ IHs]; intros F HF.
    + inversion HF; subst. constructor.
    + inversion HF; subst. constructor.
      * apply (grows_trans x y); [now apply step_grows | assumption].
      * now apply IHs.
Qed.

Lemma passes_linked (ks : list kwd) :
  forall X X',
    linked_all X X' (passes ks X) ->
    linked_all (passes ks X) (passes ks X') (passes ks X).
Proof.
  induction ks as [|k ks IH]; intros X X' HL; [exact HL|].
  simpl in *. apply IH.
  apply (pass_linked k (length X)); [lia | exact HL |].
  eapply Forall2_impl; [|apply passes_grows]. now intros a b [H _].
Qed.

End Lockstep.

(** ** Lines that differ by a space before a line break *)

Section Relines.

Lemma split_nl_app_nl (a b : str) :
  split_nl (a ++ nl :: b) = split_nl a ++ split_nl b.
Proof.
  induction a as [|c a IH]; [reflexivity|].
  simpl. rewrite IH. destruct (code c =? 10); [reflexivity|].
  destruct (split_nl_cons a) as [l [ls ->]]. reflexivity.
Qed.

Lemma split_nl_snoc (a : str) (c : ascii) :
  (code c =? 10) = false ->
  exists ls l, split_nl a = ls ++ [l] /\ split_nl (a ++ [c]) = ls ++ [l ++ [c]].
Proof.
  intros Hc. induction a as [|d a [ls [l [H1 H2]]]].
  - exists [], []. simpl. now rewrite Hc.
  - simpl. rewrite H1, H2. destruct (code d =? 10).
    + exists ([] :: ls), l. now split.
    + destruct ls as [|l0 ls0].
      * exists [], (d :: l). now split.
      * exists ((d :: l0) :: ls0), l. now split.
Qed.

Lemma relines_space_nl (a b : str) :
  relines (a ++ space :: nl :: b) = relines (a ++ nl :: b).
Proof.
  unfold relines.
  replace (a ++ space :: nl :: b) with ((a ++ [space]) ++ nl :: b)
    by now rewrite <- app_assoc.
  rewrite !split_nl_app_nl, !map_app.
  destruct (split_nl_snoc a space eq_refl) as [ls [l [-> ->]]].
  rewrite !map_app. simpl. now rewrite (trim_snoc_space l space eq_refl).
Qed.

Lemma same_lines_refl (x : str) : same_lines x x.
Proof. now intros a b. Qed.

Lemma same_lines_app (x y u v : str) :
  same_lines x y -> same_lines u v -> same_lines (x ++ u) (y ++ v).
Proof.
  intros H1 H2 a b.
  rewrite <- !app_assoc, (H1 a (u ++ b)).
  rewrite !(app_assoc a), (H2 (a ++ y) b). reflexivity.
Qed.

Lemma same_lines_gap (g : str) (m : nat) :
  same_lines (g ++ space :: nls (S m)) (g ++ nls (S m)).
Proof.
  intros a b. simpl. rewrite <- !app_assoc. simpl.
  rewrite !(app_assoc a). apply relines_space_nl.
Qed.

Lemma linked_close (X X' F : list item) :
  linked_all X X' F -> X = F -> Forall2 close X X'.
Proof.
  induction 1 as [|x x' f l l' lf [_ [Hw [_ Hg]]] _ IH]; intros E;
    [constructor|].
  injection E as <- <-. constructor; [|now apply IH].
  split; [exact Hw|].
  destruct Hg as [Hg | [g [m [H1 [H2 [H3 H4]]]]]]; [now left|].
  right. destruct m as [|m].
  - exfalso. apply H3. rewrite H1 in H4. simpl in H4.
    now rewrite app_nil_r in H4.
  - now exists g, m.
Qed.

Lemma close_render (X X' : list item) (tail : str) :
  Forall2 close X X' -> same_lines (render X' tail) (render X tail).
Proof.
  induction 1 as [|x x' l l' [Hw Hg] _ IH]; [apply same_lines_refl|].
  simpl. rewrite Hw. apply same_lines_app.
  - destruct Hg as [-> | [g [m [-> ->]]]];
      [apply same_lines_refl | apply same_lines_gap].
  - apply same_lines_app; [apply same_lines_refl | exact IH].
Qed.

Lemma linked_relines (F F' : list item) (tail : str) :
  linked_all F F' F -> relines (render F' tail) = relines (render F tail).
Proof.
  intros H.
  pose proof (close_render F F' tail (linked_close F F' F H eq_refl) [] []) as E.
  simpl in E. now rewrite !app_nil_r in E.
Qed.

End Relines.

(** ** Squeezing a text of words and gaps *)

Section Squeeze.

Lemma collapse_app (b : bool) (g x : str) :
  replace_ws_runs b (g ++ x)
  = replace_ws_runs b g ++ replace_ws_runs (ends_space b g) x.
Proof.
  revert b. induction g as [|c g IH]; intros b; [reflexivity|].
  simpl. destruct (is_space c); [destruct b|]; simpl; now rewrite IH.
Qed.

Lemma nls_spaces (n : nat) : forallb is_space (nls n) = true.
Proof. induction n as [|n IH]; [reflexivity | exact IH]. Qed.

Lemma collapse_nls (b : bool) (g : str) (n : nat) :
  replace_ws_runs b (g ++ nls (S n))
  = replace_ws_runs b g ++ (if ends_space b g then [] else [space]).
Proof.
  rewrite collapse_app.
  now rewrite (collapse_spaces (ends_space b g) (nls (S n)) (nls_spaces (S n))).
Qed.

Lemma collapse_no_nl (b : bool) (s : str) : ~ In nl (replace_ws_runs b s).
Proof.
  revert b. induction s as [|c s IH]; intros b; simpl; [tauto|].
  destruct (is_space c) eqn:Hc; [destruct b|]; simpl.
  - apply IH.
  - intros [H | H]; [discriminate H | now apply IH in H].
  - intros [H | H]; [subst c; discriminate Hc | now apply IH in H].
Qed.

Lemma is_gap_collapse (b : bool) (g : str) :
  is_gap is_word g -> is_gap is_word (replace_ws_runs b g).
Proof.
  unfold is_gap. revert b. induction g as [|c g IH]; intros b; simpl;
    [reflexivity|].
  intros H. apply andb_true_iff in H as [Hc Hg].
  destruct (is_space c); [destruct b|]; simpl; rewrite ?Hc; simpl; now apply IH.
Qed.

Lemma is_gap_trimStart (g : str) :
  is_gap is_word g -> is_gap is_word (trimStart g).
Proof.
  unfold is_gap. induction g as [|c g IH]; simpl; [reflexivity|].
  intros H. destruct (is_space c); [|exact H].
  apply andb_true_iff in H as [_ Hg]. now apply IH.
Qed.

Lemma is_gap_trimEnd (g : str) :
  is_gap is_word g -> is_gap is_word (trimEnd g).
Proof.
  unfold trimEnd. intros H. unfold is_gap. rewrite forallb_rev.
  apply is_gap_trimStart. unfold is_gap. now rewrite forallb_rev.
Qed.

Lemma word_nonspace (c : ascii) : is_word c = true -> is_space c = false.
Proof.
  destruct c as [[] [] [] [] [] [] [] []]; intros H; try reflexivity;
    discriminate H.
Qed.

Lemma valid_word_solid (its : list item) (tail : str) :
  valid is_word its tail -> solid its.
Proof.
  intros [Hok _]. unfold solid. eapply Forall_impl; [|exact Hok].
  intros it [_ [Hne Hall]]. split; [exact Hne|].
  clear Hne. induction (word it) as [|c w IH]; [reflexivity|].
  simpl in *. apply andb_true_iff in Hall as [Hc Hw].
  unfold nonspace at 1. now rewrite (word_nonspace c Hc), (IH Hw).
Qed.

Lemma solid_map_gaps (f : str -> str) (its : list item) :
  solid its -> solid (map_gaps f its).
Proof.
  unfold solid, map_gaps. intros H. rewrite Forall_map. exact H.
Qed.

Lemma squeeze_render (it : item) (its : list item) (tail : str) :
  valid is_word (it :: its) tail ->
  squeeze (render (it :: its) tail)
  = render (flat (it :: its)) (trimEnd (replace_ws_runs false tail)).
Proof.
  intros Hv. pose proof (valid_word_solid _ _ Hv) as Hs.
  unfold squeeze. rewrite (collapse_render _ _ Hs).
  apply (trim_render _ (map_gaps (replace_ws_runs false) its)).
  apply (solid_map_gaps _ (it :: its) Hs).
Qed.

Lemma flat_valid (its : list item) (tail : str) :
  valid is_word its tail ->
  valid is_word (flat its) (trimEnd (replace_ws_runs false tail)).
Proof.
  intros [Hok [Hgap Htail]].
  split; [|split; [|now apply is_gap_trimEnd, is_gap_collapse]].
  - destruct its as [|it its]; [constructor|].
    inversion Hok as [|? ? [Hg Hw] Hok']; subst.
    change (flat (it :: its)) with
      ({| gap := trimStart (replace_ws_runs false (gap it)); word := word it |}
         :: map_gaps (replace_ws_runs false) its).
    constructor.
    + split; [|exact Hw]. simpl.
      now apply is_gap_trimStart, is_gap_collapse.
    + unfold map_gaps. rewrite Forall_map. eapply Forall_impl; [|exact Hok'].
      intros x [Hgx Hwx]. split; [|exact Hwx]. now apply is_gap_collapse.
  - destruct its as [|it its]; [constructor|]. simpl in Hgap.
    change (Forall (fun it => gap it <> [])
              (map_gaps (replace_ws_runs false) its)).
    unfold map_gaps. rewrite Forall_map. eapply Forall_impl; [|exact Hgap].
    intros x Hx. simpl in *. destruct (gap x) as [|c g]; [congruence|].
    simpl. destruct (is_space c); discriminate.
Qed.

(** A text has one reading as words and gaps. *)
Lemma gap_unique (gx gy : str) (c : ascii) (r1 r2 : str) :
  is_gap is_word gx -> is_gap is_word gy -> is_word c = true ->
  gx ++ c :: r1 = gy ++ c :: r2 -> gx = gy /\ r1 = r2.
Proof.
  unfold is_gap. revert gy. induction gx as [|d gx IH]; intros [|e gy] Hx Hy Hc H;
    simpl in *.
  - injection H as ->. now split.
  - injection H as <- _. rewrite Hc in Hy. discriminate.
  - injection H as -> _. rewrite Hc in Hx. discriminate.
  - injection H as -> H. apply andb_true_iff in Hx as [_ Hx].
    apply andb_true_iff in Hy as [_ Hy].
    destruct (IH gy Hx Hy Hc H) as [-> ->]. now split.
Qed.

Lemma render_inj (X Y : list item) (t1 t2 : str) :
  Forall2 (fun x y => word x = word y) X Y ->
  Forall (ok_item is_word) X -> Forall (ok_item is_word) Y ->
  render X t1 = render Y t2 ->
  Forall2 (fun x y => gap x = gap y) X Y /\ t1 = t2.
Proof.
  induction 1 as [|x y X Y Hw _ IH]; intros HX HY H.
  - split; [constructor | exact H].
  - inversion HX as [|? ? [Hgx Hwx] HX']; subst.
    inversion HY as [|? ? [Hgy _] HY']; subst.
    simpl in H. rewrite <- Hw in H.
    destruct (run_head (word x) Hwx) as [c [w' [E [Hc _]]]].
    rewrite E in H. simpl in H.
    destruct (gap_unique _ _ c _ _ Hgx Hgy Hc H) as [Hg Hr].
    apply app_inv_head in Hr. destruct (IH HX' HY' Hr) as [IH1 IH2].
    split; [now constructor | exact IH2].
Qed.

End Squeeze.

(** ** The second run starts linked to the first *)

Section SecondRun.

Lemma ws_words_runs (s : str) : Forall (is_run nonspace) (ws_words s).
Proof.
  destruct (parse_exists nonspace s) as [its [tail [<- Hv]]].
  rewrite (words_render _ _ Hv). destruct Hv as [Hok _].
  rewrite Forall_map. eapply Forall_impl; [|exact Hok]. now intros it [_ H].
Qed.

Lemma words_join_space (W : list str) :
  Forall (is_run nonspace) W -> ws_words (join [space] W) = W.
Proof.
  induction 1 as [|w W [Hne Hw] HW IH]; [reflexivity|].
  destruct W as [|w' W].
  - simpl. now apply words_solid.
  - change (join [space] (w :: w' :: W))
      with (w ++ space :: join [space] (w' :: W)).
    rewrite (words_app_sep w space _ eq_refl), IH.
    now rewrite (words_solid w Hne Hw).
Qed.

Lemma squeeze_idem (s : str) : squeeze (squeeze s) = squeeze s.
Proof.
  rewrite (squeeze_words (squeeze s)), (squeeze_words s).
  now rewrite (words_join_space _ (ws_words_runs s)).
Qed.

Lemma later_upper (x f : item) :
  later x f -> toUpperCase (word x) = toUpperCase (word f).
Proof.
  intros [-> | ->]; [reflexivity | now rewrite toUpperCase_idem].
Qed.

Lemma in_nl_nls (g : str) (n : nat) : In nl (g ++ nls (S n)).
Proof. apply in_or_app. right. now left. Qed.

Lemma link_mid (x f : item) :
  grows x f -> replace_ws_runs false (gap x) = gap x -> gap x <> [] ->
  linked x {| gap := replace_ws_runs false (gap f); word := word f |} f.
Proof.
  intros [Hw [n Hg]] Hc Hne.
  split; [now apply later_upper|]. split; [reflexivity|]. cbn [gap].
  rewrite Hg. destruct n as [|n].
  - simpl. rewrite app_nil_r, Hc. split; [tauto | now left].
  - rewrite collapse_nls, Hc.
    destruct (ends_space false (gap x)) eqn:E.
    + rewrite app_nil_r. split; [tauto | now left].
    + split.
      * split; intros H.
        -- rewrite H in E. discriminate E.
        -- destruct (gap x) as [|c g]; [congruence|].
           destruct g; discriminate H.
      * right. exists (gap x), 0. simpl. rewrite app_nil_r.
        split; [reflexivity|]. split; [reflexivity|]. split.
        -- rewrite <- Hc. apply collapse_no_nl.
        -- apply in_nl_nls.
Qed.

Lemma link_first (x f : item) :
  grows x f -> trimStart (replace_ws_runs false (gap x)) = gap x ->
  linked x
    {| gap := trimStart (replace_ws_runs false (gap f)); word := word f |} f.
Proof.
  intros [Hw [n Hg]] Hc.
  split; [now apply later_upper|]. split; [reflexivity|]. cbn [gap].
  rewrite Hg. destruct n as [|n].
  - simpl. rewrite app_nil_r, Hc. split; [tauto | now left].
  - rewrite collapse_nls.
    destruct (ends_space false (gap x)) eqn:E.
    + rewrite app_nil_r, Hc. split; [tauto | now left].
    + destruct (gap x) as [|d g0] eqn:Eg.
      * simpl. split; [tauto | now left].
      * pose proof (trimStart_head _ Hc) as Hd.
        destruct (trimStart_decomp (replace_ws_runs false (d :: g0)))
          as [t [Ht1 Ht2]].
        rewrite Hc in Ht1. rewrite Ht1, <- app_assoc.
        rewrite (trimStart_app_space _ _ Ht2).
        change ((d :: g0) ++ [space]) with (d :: g0 ++ [space]).
        rewrite (trimStart_fixed d _ Hd).
        split.
        -- split; intros H.
           ++ injection H as -> _. discriminate Hd.
           ++ injection H as _ H. destruct g0; discriminate H.
        -- right. exists (d :: g0), 0. simpl. rewrite app_nil_r.
           split; [reflexivity|]. split; [reflexivity|]. split.
           ++ intros Hin. apply (collapse_no_nl false (d :: g0)).
              rewrite Ht1. apply in_or_app. now right.
           ++ apply (in_nl_nls (d :: g0) n).
Qed.

Lemma passes_nil (ks : list kwd) : passes ks [] = [].
Proof. induction ks as [|k ks IH]; [reflexivity | exact IH]. Qed.

End SecondRun.

Section Idempotence.

Lemma flat_words (its : list item) :
  Forall2 (fun x y => word x = word y) (flat its) its.
Proof.
  destruct its as [|it its]; [constructor|].
  change (flat (it :: its)) with
    ({| gap := trimStart (replace_ws_runs false (gap it)); word := word it |}
       :: map_gaps (replace_ws_runs false) its).
  constructor; [reflexivity|].
  induction its as [|x its IH]; constructor; [reflexivity | exact IH].
Qed.

(** The gaps of a squeezed text are squeezed already: they are what
    squeezing makes of them. *)
Lemma squeezed_gaps (it : item) (its : list item) (tail : str) :
  valid is_word (it :: its) tail ->
  squeeze (render (it :: its) tail) = render (it :: its) tail ->
  trimStart (replace_ws_runs false (gap it)) = gap it
  /\ Forall (fun x => replace_ws_runs false (gap x) = gap x) its
  /\ trimEnd (replace_ws_runs false tail) = tail.
Proof.
  intros Hv Hs. rewrite (squeeze_render it its tail Hv) in Hs.
  pose proof (flat_valid _ _ Hv) as [Hok' _]. pose proof Hv as [Hok _].
  destruct (render_inj _ _ _ _ (flat_words (it :: its)) Hok' Hok Hs)
    as [Hg Ht].
  change (flat (it :: its)) with
    ({| gap := trimStart (replace_ws_runs false (gap it)); word := word it |}
       :: map_gaps (replace_ws_runs false) its) in Hg.
  inversion Hg as [|? ? ? ? H1 H2]; subst. split; [exact H1|].
  split; [|exact Ht]. clear - H2.
  induction its as [|x its IH]; [constructor|].
  inversion H2; subst. constructor; [assumption | now apply IH].
Qed.

Lemma link_rest (Z F : list item) :
  Forall2 grows Z F ->
  Forall (fun x => replace_ws_runs false (gap x) = gap x) Z ->
  Forall (fun x => gap x <> []) Z ->
  linked_all Z (map_gaps (replace_ws_runs false) F) F.
Proof.
  induction 1 as [|x f Z F Hxf _ IH]; intros Hc Hne; [constructor|].
  inversion Hc; subst. inversion Hne; subst.
  simpl. constructor; [now apply link_mid | now apply IH].
Qed.

(** The second run of the passes ends with the lines of the first. *)
Lemma second_run (c : str) :
  squeeze c = c ->
  relines (fold_left format_keyword keywords
             (squeeze (fold_left format_keyword keywords c)))
  = relines (fold_left format_keyword keywords c).
Proof.
  intros Hc.
  destruct (parse_exists is_word c) as [Z [tail [Hr Hv]]]. subst c.
  rewrite keywords_kwds.
  rewrite (format_render kwds Z tail kwds_ok Hv).
  pose proof (passes_valid kwds Z tail Hv) as HvF.
  pose proof (passes_grows kwds Z) as Hgrow.
  destruct Z as [|z Z].
  - pose proof (format_render kwds [] tail kwds_ok Hv) as E.
    rewrite passes_nil in *. change (render [] tail) with tail in *.
    now rewrite Hc, E.
  - destruct (squeezed_gaps z Z tail Hv Hc) as [Hg0 [Hgs Htail]].
    destruct (passes kwds (z :: Z)) as [|f F] eqn:EF; [inversion Hgrow|].
    rewrite (squeeze_render f F tail HvF), Htail.
    pose proof (flat_valid _ _ HvF) as HvF'. rewrite Htail in HvF'.
    rewrite (format_render kwds _ tail kwds_ok HvF').
    apply linked_relines.
    rewrite <- EF. apply passes_linked. rewrite EF.
    inversion Hgrow as [|? ? ? ? Hzf Hrest]; subst.
    change (flat (f :: F)) with
      ({| gap := trimStart (replace_ws_runs false (gap f)); word := word f |}
         :: map_gaps (replace_ws_runs false) F).
    constructor; [now apply link_first|].
    apply link_rest; [exact Hrest | exact Hgs|].
    destruct Hv as [_ [Hne _]]. exact Hne.
Qed.

End Idempotence.

(** C2. The keyword formatter is idempotent on its own output: formatting
    the result of formatSQL again changes nothing. *)
Theorem formatSQL_idempotent (s : str) :
  formatSQL (formatSQL s) = formatSQL s.
Proof.
  rewrite (formatSQL_steps (formatSQL s)), (formatSQL_steps s).
  rewrite squeeze_relines. apply second_run. apply squeeze_idem.
Qed.

(** * Further properties *)

Import Notions.

(** ** White space around a text *)

Section Trim.

Lemma trimEnd_app_spaces (x b : str) : blank b -> trimEnd (x ++ b) = trimEnd x.
Proof.
  intros Hb. unfold trimEnd. rewrite rev_app_distr.
  rewrite trimStart_app_space; [reflexivity|].
  now rewrite forallb_rev.
Qed.

Lemma trim_app_spaces (a s b : str) :
  blank a -> blank b -> trim (a ++ s ++ b) = trim s.
Proof.
  intros Ha Hb. unfold trim. rewrite (@trimStart_app_space a (s ++ b) Ha).
  destruct (trimStart_decomp s) as [t [Hs Ht]].
  destruct (trimStart s) as [|c r] eqn:E.
  - rewrite app_nil_r in Hs. subst t.
    rewrite trimStart_all_space; [reflexivity|].
    unfold blank in Hb. now rewrite forallb_app, Ht, Hb.
  - assert (Hc : is_space c = false) by (eapply trimStart_head; eauto).
    rewrite Hs at 1. rewrite <- app_assoc.
    rewrite (@trimStart_app_space t _ Ht).
    change ((c :: r) ++ b) with (c :: (r ++ b)).
    rewrite (@trimStart_fixed c _ Hc).
    change (c :: r ++ b) with ((c :: r) ++ b).
    now apply trimEnd_app_spaces.
Qed.

Lemma trim_idem (s : str) : trim (trim s) = trim s.
Proof.
  destruct (trimStart_decomp s) as [a [Ha Hsa]].
  destruct (trimEnd_decomp (trimStart s)) as [b [Hb Hsb]].
  fold (trim s) in Hb.
  rewrite <- (trim_app_spaces a (trim s) b Hsa Hsb).
  now rewrite <- Hb, <- Ha.
Qed.




End Trim.

(** ** What the patterns match *)

Section Matchers.


Lemma lit_i_In (p s r : str) :
  In r (lit_i p s) <-> exists m, s = m ++ r /\ eq_ci m p.
Proof.
  unfold lit_i. revert s. induction p as [|c p IH]; intros s; cbn.
  - split.
    + intros [H|[]]. subst. now exists [].
    + intros [m [-> Hm]]. apply eq_ci_length in Hm.
      destruct m; [now left | discriminate].
  - destruct s as [|d s].
    + split; [intros []|]. intros [m [Hs Hm]]. apply eq_ci_length in Hm.
      destruct m; discriminate.
    + destruct (ascii_eqb (upper c) (upper d)) eqn:E.
      * apply ascii_eqb_eq in E. rewrite IH. split.
        -- intros [m [-> Hm]]. exists (d :: m). split; [reflexivity|].
           apply eq_ci_cons. now split.
        -- intros [m [Hs Hm]]. destruct m as [|e m].
           ++ apply eq_ci_length in Hm. discriminate.
           ++ inversion Hs; subst. apply eq_ci_cons in Hm. now exists m.
      * split; [intros []|]. intros [m [Hs Hm]]. destruct m as [|e m].
        -- apply eq_ci_length in Hm. discriminate.
        -- inversion Hs; subst. apply eq_ci_cons in Hm as [Hu _].
           rewrite Hu, ascii_eqb_refl in E. discriminate.
Qed.

Lemma seq_In (m1 m2 : matcher) (s r : str) :
  In r (seq m1 m2 s) <-> exists r1, In r1 (m1 s) /\ In r (m2 r1).
Proof. unfold seq. apply in_flat_map. Qed.


Lemma chr_In (p : ascii -> bool) (s r : str) :
  In r (chr p s) <-> exists c, s = c :: r /\ p c = true.
Proof.
  unfold chr. destruct s as [|c s].
  - split; [intros [] | intros [c [H _]]; discriminate].
  - destruct (p c) eqn:E.
    + split.
      * intros [H|[]]. subst. now exists c.
      * intros [d [H Hd]]. inversion H; subst. now left.
    + split; [intros []|]. intros [d [H Hd]]. inversion H; subst. congruence.
Qed.

Lemma star_In (p : ascii -> bool) (s r : str) :
  In r (star p s) <-> exists x, s = x ++ r /\ forallb p x = true.
Proof.
  revert r. induction s as [|c s IH]; intros r; cbn.
  - split.
    + intros [H|[]]. subst. now exists [].
    + intros [x [H _]]. symmetry in H. apply app_eq_nil in H as [_ ->].
      now left.
  - destruct (p c) eqn:E.
    + rewrite in_app_iff, IH. split.
      * intros [[x [-> Hx]] | [H|[]]].
        -- exists (c :: x). split; [reflexivity|]. cbn. now rewrite E.
        -- subst. now exists [].
      * intros [x [H Hx]]. destruct x as [|d x].
        -- right. left. exact H.
        -- left. inversion H; subst. cbn in Hx.
           apply andb_true_iff in Hx as [_ Hx]. now exists x.
    + split.
      * intros [H|[]]. subst. now exists [].
      * intros [x [H Hx]]. destruct x as [|d x]; [now left|].
        inversion H; subst. cbn in Hx. rewrite E in Hx. discriminate.
Qed.

Lemma plus_In (p : ascii -> bool) (s r : str) :
  In r (plus p s) <-> exists x, x <> [] /\ s = x ++ r /\ forallb p x = true.
Proof.
  unfold plus. rewrite seq_In. split.
  - intros [r1 [H1 H2]]. apply chr_In in H1 as [c [-> Hc]].
    apply star_In in H2 as [x [-> Hx]].
    exists (c :: x). split; [discriminate|]. split; [reflexivity|].
    cbn. now rewrite Hc.
  - intros [x [Hne [-> Hx]]]. destruct x as [|c x]; [congruence|].
    cbn in Hx. apply andb_true_iff in Hx as [Hc Hx].
    exists (x ++ r). split; [apply chr_In; now exists c|].
    apply star_In. now exists x.
Qed.





End Matchers.

(** ** validateSQL: what the result depends on *)

Section ValidateMore.

Lemma validateSQL_trim_eq (a b dialect : str) :
  trim a = trim b -> validateSQL a dialect = validateSQL b dialect.
Proof. intros H. unfold validateSQL. now rewrite H. Qed.

Lemma squeeze_trim (s : str) : squeeze (trim s) = squeeze s.
Proof. now rewrite !squeeze_words, words_trim. Qed.

Lemma formatSQL_trim (s : str) : formatSQL (trim s) = formatSQL s.
Proof. now rewrite !formatSQL_steps, squeeze_trim. Qed.

Lemma validateSQL_warnings (sql dialect : str) :
  warnings (validateSQL sql dialect) =
  (if hasKeyword sql then [] else [no_keywords_warning])
  ++ (if includes (toUpperCase (trim sql)) "SELECT *"%string
      then [select_star_warning] else [])
  ++ (if (includes (toUpperCase (trim sql)) "UPDATE"%string
          || includes (toUpperCase (trim sql)) "DELETE"%string)
         && negb (includes (toUpperCase (trim sql)) "WHERE"%string)
      then [no_where_warning] else []).
Proof.
  unfold validateSQL. fold (hasKeyword sql).
  destruct (hasKeyword sql); cbv beta iota zeta delta [warnings negb];
    unfold push;
    destruct (includes (toUpperCase (trim sql)) "SELECT *"%string);
    destruct (includes (toUpperCase (trim sql)) "UPDATE"%string);
    destruct (includes (toUpperCase (trim sql)) "DELETE"%string);
    destruct (includes (toUpperCase (trim sql)) "WHERE"%string);
    reflexivity.
Qed.

Lemma includes_prefix (s p q : str) :
  includes s (p ++ q) = true -> includes s p = true.
Proof.
  rewrite !includes_iff. intros [a [b ->]]. exists a, (q ++ b).
  now rewrite <- app_assoc.
Qed.

Lemma hasKeyword_includes (sql kw : str) :
  In kw sqlKeywords -> includes (toUpperCase (trim sql)) kw = true ->
  hasKeyword sql = true.
Proof.
  intros Hin H. unfold hasKeyword, some. apply existsb_exists. eauto.
Qed.

Lemma no_keyword_no_advice (sql : str) :
  hasKeyword sql = false ->
  includes (toUpperCase (trim sql)) "SELECT *"%string = false
  /\ includes (toUpperCase (trim sql)) "UPDATE"%string = false
  /\ includes (toUpperCase (trim sql)) "DELETE"%string = false.
Proof.
  intros H. repeat split; apply not_true_is_false; intros Hi.
  - apply (includes_prefix _ ("SELECT"%string : str) (" *"%string : str)) in Hi.
    rewrite (hasKeyword_includes sql ("SELECT"%string : str)) in H;
      [discriminate | cbn; tauto | exact Hi].
  - rewrite (hasKeyword_includes sql ("UPDATE"%string : str)) in H;
      [discriminate | cbn; tauto | exact Hi].
  - rewrite (hasKeyword_includes sql ("DELETE"%string : str)) in H;
      [discriminate | cbn; tauto | exact Hi].
Qed.

Lemma In_str (x : str) (l : list str) :
  In x l <-> existsb (str_eqb x) l = true.
Proof.
  rewrite existsb_exists. split.
  - intros H. exists x. split; [exact H | apply str_eqb_refl].
  - intros [y [H E]]. apply str_eqb_eq in E. now subst.
Qed.

End ValidateMore.

(** X1. White space before and after the query does not change the result of
    validateSQL. *)
Theorem validateSQL_ignores_outer_space (a sql b dialect : str) :
  blank a -> blank b ->
  validateSQL (a ++ sql ++ b) dialect = validateSQL sql dialect.
Proof.
  intros Ha Hb. apply validateSQL_trim_eq. now apply trim_app_spaces.
Qed.

Lemma validateSQL_ignores_outer_space_example :
  validateSQL ("  "%string ++ "select 1"%string ++ [nl; " "%char]) "mysql"%string
  = validateSQL "select 1"%string "mysql"%string.
Proof.
  apply (validateSQL_ignores_outer_space
           ("  "%string : str) ("select 1"%string : str) [nl; " "%char]
           ("mysql"%string : str)); reflexivity.
Defined.

(** X2. The [formatted] field of validateSQL is the formatter's output for the
    query as given: trimming first makes no difference. *)
Theorem validateSQL_formatted (sql dialect : str) :
  formatted (validateSQL sql dialect) = formatSQL sql.
Proof.
  transitivity (formatSQL (trim sql)); [|apply formatSQL_trim].
  unfold validateSQL.
  destruct (negb (some _ sqlKeywords)); reflexivity.
Qed.

(** X3. A query that validateSQL rejects carries the no-keywords warning and
    no other. *)
Theorem validateSQL_invalid_one_warning (sql dialect : str) :
  isValid (validateSQL sql dialect) = false ->
  warnings (validateSQL sql dialect) = [no_keywords_warning].
Proof.
  rewrite validateSQL_isValid, validateSQL_warnings. intros H.
  destruct (no_keyword_no_advice sql H) as [H1 [H2 H3]].
  now rewrite H, H1, H2, H3.
Qed.

Lemma validateSQL_invalid_one_warning_example :
  warnings (validateSQL "show me the users"%string "sqlite"%string)
  = [no_keywords_warning].
Proof.
  apply (validateSQL_invalid_one_warning
           ("show me the users"%string : str) ("sqlite"%string : str)).
  vm_compute. reflexivity.
Defined.


(** ** validateSQL: the suggestions *)

Section Suggestions.





End Suggestions.


Lemma dialect_hints (sql dialect : str) :
  (In postgresql_suggestion (suggestions (validateSQL sql dialect))
   <-> dialect = ("postgresql"%string : str))
  /\ (In mysql_suggestion (suggestions (validateSQL sql dialect))
      <-> dialect = ("mysql"%string : str))
  /\ length (suggestions (validateSQL sql dialect)) <= 2.
Proof.
  rewrite validateSQL_suggestions, !In_str.
  destruct (includes (toUpperCase (trim sql)) "JOIN"%string
            && negb (test join_type_re (toUpperCase (trim sql))));
    destruct (str_eqb dialect "postgresql"%string) eqn:P;
    destruct (str_eqb dialect "mysql"%string) eqn:M;
    try (apply str_eqb_eq in P); try (apply str_eqb_eq in M);
    try (assert (dialect <> ("postgresql"%string : str))
           by (intros E; apply str_eqb_eq in E; congruence));
    try (assert (dialect <> ("mysql"%string : str))
           by (intros E; apply str_eqb_eq in E; congruence));
    try (subst dialect; discriminate M);
    vm_compute; intuition (congruence || lia).
Qed.

(** X6. The dialect hints of validateSQL: the PostgreSQL hint is given exactly
    for the dialect "postgresql" and the MySQL hint exactly for "mysql",
    letter for letter; there are never more than two suggestions. *)
Theorem validateSQL_dialect_hint (sql dialect : str) :
  (In postgresql_suggestion (suggestions (validateSQL sql dialect))
   <-> dialect = ("postgresql"%string : str))
  /\ (In mysql_suggestion (suggestions (validateSQL sql dialect))
      <-> dialect = ("mysql"%string : str))
  /\ length (suggestions (validateSQL sql dialect)) <= 2.
Proof. apply dialect_hints. Qed.



(** X8. The validator tool falls back on PostgreSQL: its result carries the
    PostgreSQL hint exactly when the dialect is missing, empty or
    "postgresql". *)
Theorem sqlValidatorTool_postgresql_hint (context : Tools.ValidatorContext) :
  In postgresql_suggestion
     (suggestions (Tools.sqlValidatorTool_execute context))
  <-> Tools.dialect context = None
      \/ Tools.dialect context = Some []
      \/ Tools.dialect context = Some ("postgresql"%string : str).
Proof.
  unfold Tools.sqlValidatorTool_execute.
  destruct (dialect_hints (Tools.sql context)
              (Tools.str_or (Tools.dialect context) "postgresql"%string))
    as [-> _].
  destruct (Tools.dialect context) as [[|c d]|]; cbn [Tools.str_or].
  - split; [tauto | reflexivity].
  - split.
    + intros ->. right. right. reflexivity.
    + intros [H|[H|H]]; try discriminate H. now inversion H.
  - split; [tauto | reflexivity].
Qed.

(** ** formatSQL: what the formatter keeps *)

Section Letters.

Lemma visible_app (a b : str) : visible (a ++ b) = visible a ++ visible b.
Proof. unfold visible, toUpperCase. now rewrite filter_app, map_app. Qed.

Lemma visible_blank (t : str) : blank t -> visible t = [].
Proof.
  unfold blank, visible. induction t as [|c t IH]; [reflexivity|].
  cbn. intros H. apply andb_true_iff in H as [Hc H].
  unfold nonspace at 1. rewrite Hc. cbn. now apply IH.
Qed.

Lemma visible_nil_blank (t : str) : visible t = [] -> blank t.
Proof.
  unfold blank, visible. induction t as [|c t IH]; [reflexivity|].
  cbn. unfold nonspace at 1. destruct (is_space c); cbn; [exact IH | discriminate].
Qed.

Lemma visible_trimStart (s : str) : visible (trimStart s) = visible s.
Proof.
  destruct (trimStart_decomp s) as [t [Hs Ht]].
  rewrite Hs at 2. now rewrite visible_app, (visible_blank t Ht).
Qed.

Lemma visible_trimEnd (s : str) : visible (trimEnd s) = visible s.
Proof.
  destruct (trimEnd_decomp s) as [t [Hs Ht]].
  rewrite Hs at 2. now rewrite visible_app, (visible_blank t Ht), app_nil_r.
Qed.

Lemma visible_trim (s : str) : visible (trim s) = visible s.
Proof. unfold trim. now rewrite visible_trimEnd, visible_trimStart. Qed.

Lemma visible_cons (c : ascii) (x : str) :
  visible (c :: x) = (if is_space c then [] else [upper c]) ++ visible x.
Proof.
  unfold visible. cbn [filter]. unfold nonspace at 1.
  destruct (is_space c); reflexivity.
Qed.

Lemma visible_collapse (b : bool) (s : str) :
  visible (replace_ws_runs b s) = visible s.
Proof.
  revert b. induction s as [|c s IH]; intros b; [reflexivity|].
  cbn [replace_ws_runs]. rewrite (visible_cons c s).
  destruct (is_space c) eqn:E.
  - destruct b; [apply IH|]. rewrite visible_cons. apply IH.
  - rewrite visible_cons, E. now rewrite IH.
Qed.

Lemma visible_squeeze (s : str) : visible (squeeze s) = visible s.
Proof. unfold squeeze. now rewrite visible_trim, visible_collapse. Qed.

Lemma visible_join_nl (ls : list str) :
  visible (join [nl] ls) = concat (map visible ls).
Proof.
  induction ls as [|l ls IH]; [reflexivity|].
  destruct ls as [|l' ls'].
  - cbn. now rewrite app_nil_r.
  - change (join [nl] (l :: l' :: ls')) with (l ++ [nl] ++ join [nl] (l' :: ls')).
    rewrite !visible_app, IH. reflexivity.
Qed.

Lemma visible_lines (f : str -> str) (ls : list str) :
  (forall l, visible (f l) = visible l) ->
  concat (map visible (filter (fun line => 0 <? length line) (map f ls)))
  = concat (map visible ls).
Proof.
  intros Hf. induction ls as [|l ls IH]; [reflexivity|].
  cbn [map filter]. destruct (0 <? length (f l)) eqn:L.
  - cbn [map concat]. now rewrite IH, Hf.
  - rewrite IH. cbn [map concat]. rewrite <- (Hf l).
    destruct (f l); [reflexivity | discriminate L].
Qed.

Lemma visible_relines (x : str) : visible (relines x) = visible x.
Proof.
  unfold relines. rewrite visible_join_nl.
  rewrite (visible_lines trim (split_nl x) visible_trim).
  rewrite <- visible_join_nl. now rewrite join_split_nl.
Qed.

Lemma visible_eq_ci (m k : str) : eq_ci m k -> visible m = visible k.
Proof.
  intros H. apply eq_ci_upper in H. unfold visible.
  assert (E : forall s, toUpperCase (filter nonspace s)
                        = filter nonspace (toUpperCase s)).
  { induction s as [|c s IH]; [reflexivity|].
    assert (Hc : nonspace (upper c) = nonspace c)
      by (unfold nonspace; now rewrite is_space_upper).
    unfold toUpperCase in *. cbn [map filter]. rewrite Hc.
    destruct (nonspace c); cbn [map]; now rewrite <- IH. }
  now rewrite !E, H.
Qed.

Lemma visible_upper (k : str) : visible (toUpperCase k) = visible k.
Proof.
  apply visible_eq_ci. apply eq_ci_upper. apply toUpperCase_idem.
Qed.

(** A replacement that keeps the visible text of what it replaces keeps
    the visible text of the whole. *)
Lemma visible_scan (b : bool) (pat rep : str) :
  pat <> [] -> visible rep = visible pat ->
  forall s k prev,
    visible (replace_scan b pat rep k prev s) = visible (skipn k s).
Proof.
  intros Hne Hrep. induction s as [|c s IH]; intros k prev.
  - now destruct k.
  - destruct k as [|k]; cbn [replace_scan skipn]; [|apply IH].
    destruct (lit_here b pat prev (c :: s)) eqn:E.
    + unfold lit_here in E.
      destruct (strip_i pat prev (c :: s)) as [[l rest]|] eqn:HS;
        [|discriminate].
      destruct (strip_i_sound pat prev (c :: s) HS) as [m [Hs Hm]].
      rewrite visible_app, IH, Hrep.
      destruct m as [|d m]; [apply eq_ci_length in Hm; destruct pat;
                              [congruence | discriminate]|].
      inversion Hs; subst.
      rewrite <- (@eq_ci_length _ _ Hm). cbn [length].
      replace (S (length m) - 1) with (length m) by lia.
      rewrite skipn_app, skipn_all, Nat.sub_diag. cbn [skipn app].
      change (d :: m ++ rest) with ((d :: m) ++ rest).
      now rewrite visible_app, (visible_eq_ci _ _ Hm).
    + change (c :: replace_scan b pat rep 0 (Some c) s)
        with ([c] ++ replace_scan b pat rep 0 (Some c) s).
      change (c :: s) with ([c] ++ s).
      now rewrite !visible_app, IH.
Qed.

Lemma visible_format_keyword (x kw : str) :
  kw <> [] -> visible (format_keyword x kw) = visible x.
Proof.
  intros Hne. unfold format_keyword, replace_all_word_i.
  rewrite (visible_scan true kw (nl :: toUpperCase kw) Hne); [reflexivity|].
  change (nl :: toUpperCase kw) with ([nl] ++ toUpperCase kw).
  now rewrite visible_app, visible_upper.
Qed.

Lemma visible_passes (kws : list str) (x : str) :
  Forall (fun kw => kw <> []) kws ->
  visible (fold_left format_keyword kws x) = visible x.
Proof.
  intros H. revert x. induction H as [|kw kws Hkw _ IH]; intros x;
    [reflexivity|].
  cbn [fold_left]. now rewrite IH, visible_format_keyword.
Qed.

Lemma keywords_nonempty : Forall (fun kw : str => kw <> []) keywords.
Proof. unfold keywords. repeat constructor; discriminate. Qed.

Lemma visible_formatSQL (s : str) : visible (formatSQL s) = visible s.
Proof.
  rewrite formatSQL_steps, visible_relines.
  rewrite (visible_passes keywords (squeeze s) keywords_nonempty).
  apply visible_squeeze.
Qed.

Lemma formatSQL_blank (s : str) : formatSQL s = [] -> blank s.
Proof.
  intros H. apply visible_nil_blank. now rewrite <- visible_formatSQL, H.
Qed.

Lemma blank_formatSQL (s : str) : blank s -> formatSQL s = [].
Proof.
  intros H. rewrite formatSQL_steps.
  assert (E : squeeze s = []).
  { rewrite squeeze_words. unfold blank in H.
    now rewrite (words_all_space s H). }
  rewrite E. vm_compute. reflexivity.
Qed.

End Letters.

(** X9. formatSQL changes white space and letter case only: without its white
    space and in upper case, the output is the input. *)
Theorem formatSQL_keeps_visible_text (s : str) :
  visible (formatSQL s) = visible s.
Proof. apply visible_formatSQL. Qed.

(** X10. formatSQL gives the empty text exactly for a text of white space only
    (the empty text included). *)
Theorem formatSQL_empty_iff_blank (s : str) :
  formatSQL s = [] <-> blank s.
Proof. split; [apply formatSQL_blank | apply blank_formatSQL]. Qed.

(** X11. formatSQL reads its input as white-space separated words: two texts
    with the same words are formatted alike, however the words are spaced
    and broken into lines. *)
Theorem formatSQL_same_words (s t : str) :
  ws_words s = ws_words t -> formatSQL s = formatSQL t.
Proof.
  intros H. rewrite !formatSQL_steps, !squeeze_words. now rewrite H.
Qed.

Lemma formatSQL_same_words_example :
  formatSQL (("select  id"%string : str) ++ nl :: ("from t"%string : str))
  = formatSQL "select id from t"%string.
Proof.
  apply (formatSQL_same_words
           (("select  id"%string : str) ++ nl :: ("from t"%string : str))
           ("select id from t"%string : str)).
  reflexivity.
Defined.

(** ** formatSQL: the lines of the output *)

Section Lines.

Lemma split_nl_no_nl (a : str) : ~ In nl a -> split_nl a = [a].
Proof.
  induction a as [|c a IH]; intros H; [reflexivity|].
  cbn. destruct (code c =? 10) eqn:E.
  - apply code_10 in E. subst c. elim H. now left.
  - rewrite IH; [reflexivity|]. intros Hin. apply H. now right.
Qed.

Lemma split_nl_pieces (x : str) : Forall (fun l => ~ In nl l) (split_nl x).
Proof.
  induction x as [|c x IH]; [repeat constructor; intros []|].
  cbn. destruct (code c =? 10) eqn:E.
  - constructor; [intros [] | exact IH].
  - destruct (split_nl x) as [|l ls]; [repeat constructor|].
    + intros [Hc|[]]. subst c. discriminate E.
    + inversion IH; subst. constructor; [|assumption].
      intros [Hc|H]; [subst c; discriminate E | contradiction].
Qed.

Lemma split_nl_app (a x : str) :
  ~ In nl a ->
  split_nl (a ++ x) = (a ++ hd [] (split_nl x)) :: tl (split_nl x).
Proof.
  induction a as [|c a IH]; intros H.
  - cbn [app]. destruct (split_nl_cons x) as [l [ls ->]]. reflexivity.
  - cbn [app split_nl]. destruct (code c =? 10) eqn:E.
    + apply code_10 in E. subst c. elim H. now left.
    + rewrite IH; [reflexivity|]. intros Hin. apply H. now right.
Qed.

Lemma split_join_nl (ls : list str) :
  ls <> [] -> Forall (fun l => ~ In nl l) ls -> split_nl (join [nl] ls) = ls.
Proof.
  intros Hne H.
  assert (G : ls = [] \/ split_nl (join [nl] ls) = ls);
    [|destruct G as [G|G]; [contradiction | exact G]].
  clear Hne. induction H as [|l ls Hl Hls IH]; [now left|]. right.
  destruct ls as [|l' ls'].
  - cbn. now apply split_nl_no_nl.
  - change (join [nl] (l :: l' :: ls')) with (l ++ nl :: join [nl] (l' :: ls')).
    destruct IH as [IH|IH]; [discriminate IH|].
    now rewrite split_nl_app_nl, (split_nl_no_nl l Hl), IH.
Qed.

Lemma trim_decomp (x : str) : exists a b, x = a ++ trim x ++ b.
Proof.
  destruct (trimStart_decomp x) as [a [Ha _]].
  destruct (trimEnd_decomp (trimStart x)) as [b [Hb _]].
  exists a, b. unfold trim. now rewrite <- Hb.
Qed.

Lemma trim_sub (x : str) (c : ascii) : In c (trim x) -> In c x.
Proof.
  destruct (trim_decomp x) as [a [b H]]. intros Hin. rewrite H.
  apply in_or_app. right. apply in_or_app. now left.
Qed.

(** The lines that [relines] joins. *)
Lemma relines_lines (x : str) :
  let ls := filter (fun line => 0 <? length line) (map trim (split_nl x)) in
  ls <> [] -> split_nl (relines x) = ls.
Proof.
  intros ls Hne. unfold relines. fold ls. apply split_join_nl; [exact Hne|].
  unfold ls. apply Forall_forall. intros l Hl.
  apply filter_In in Hl as [Hl _]. apply in_map_iff in Hl as [p [<- Hp]].
  intros Hin. apply trim_sub in Hin.
  pose proof (split_nl_pieces x) as Hall.
  rewrite Forall_forall in Hall. now apply (Hall p Hp).
Qed.

End Lines.

Section Single.

Lemma single_weaken (p : bool) (s : str) :
  single p s = true -> single false s = true.
Proof.
  destruct s as [|c s]; [reflexivity|]. cbn. intros H.
  apply andb_true_iff in H as [H H3]. apply andb_true_iff in H as [H1 _].
  now rewrite H1, H3.
Qed.

Lemma single_app (q : bool) (a b : str) :
  single q (a ++ b) = true -> single q a = true /\ single false b = true.
Proof.
  revert q. induction a as [|c a IH]; intros q H.
  - split; [reflexivity | now apply (single_weaken q)].
  - cbn in H. apply andb_true_iff in H as [H H3].
    destruct (IH _ H3) as [Ha Hb]. split; [|exact Hb].
    cbn. now rewrite H, Ha.
Qed.

Lemma single_skipn (q : bool) (n : nat) (s : str) :
  single q s = true -> single false (skipn n s) = true.
Proof.
  intros H. rewrite <- (firstn_skipn n s) in H.
  now apply single_app in H.
Qed.

Lemma single_join (p : bool) (a b : str) :
  single p a = true -> single (after p a) b = true ->
  single p (a ++ b) = true.
Proof.
  revert p. induction a as [|c a IH]; intros p Ha Hb; [exact Hb|].
  cbn in Ha. apply andb_true_iff in Ha as [H H3].
  cbn. rewrite H. cbn. apply IH; [exact H3 | exact Hb].
Qed.

Lemma single_collapse (b : bool) (s : str) :
  single b (replace_ws_runs b s) = true.
Proof.
  revert b. induction s as [|c s IH]; intros b; [reflexivity|].
  cbn [replace_ws_runs]. destruct (is_space c) eqn:E.
  - destruct b; [apply IH|]. cbn. apply IH.
  - cbn. rewrite E. cbn.
    assert (Hs : ascii_eqb c space = false).
    { apply not_true_is_false. intros H. apply ascii_eqb_eq in H. now subst c. }
    rewrite Hs, andb_false_r. cbn. apply IH.
Qed.

Lemma single_trim (q : bool) (x : str) :
  single q x = true -> single false (trim x) = true.
Proof.
  intros H. destruct (trim_decomp x) as [a [b E]]. rewrite E in H.
  apply single_app in H as [_ H]. now apply single_app in H as [H _].
Qed.

Lemma single_squeeze (s : str) : single false (squeeze s) = true.
Proof.
  unfold squeeze. apply (single_trim false). apply single_collapse.
Qed.

(** A replacement that starts and ends outside the spaces keeps the
    spacing. *)
Lemma single_scan (b : bool) (pat rep : str) :
  single true rep = true -> (forall p, after p rep = false) ->
  forall s k prev po,
    single (if k =? 0 then po else false) (skipn k s) = true ->
    single (if k =? 0 then po else false) (replace_scan b pat rep k prev s)
    = true.
Proof.
  intros Hrep Hend. induction s as [|c s IH]; intros k prev po H.
  - now destruct k.
  - destruct k as [|k].
    + cbn [Nat.eqb skipn] in H. cbn [Nat.eqb replace_scan].
      destruct (lit_here b pat prev (c :: s)).
      * apply single_join.
        -- destruct po; [exact Hrep | now apply (single_weaken true)].
        -- rewrite Hend.
           specialize (IH (length pat - 1) (Some c) false).
           assert (Hk : (if length pat - 1 =? 0 then false else false) = false)
             by (now destruct (length pat - 1 =? 0)).
           rewrite Hk in IH. apply IH.
           cbn in H. apply andb_true_iff in H as [_ H].
           now apply (single_skipn (ascii_eqb c space)).
      * cbn in H. apply andb_true_iff in H as [H1 H3].
        cbn. rewrite H1. cbn. apply (IH 0 (Some c) (ascii_eqb c space)).
        exact H3.
    + cbn [Nat.eqb skipn] in H. cbn [Nat.eqb replace_scan].
      specialize (IH k (Some c) false).
      assert (Hk : (if k =? 0 then false else false) = false)
        by (now destruct (k =? 0)).
      rewrite Hk in IH. now apply IH.
Qed.

Lemma keywords_reps :
  Forall (fun kw : str =>
            single true (nl :: toUpperCase kw) = true
            /\ forall p, after p (nl :: toUpperCase kw) = false) keywords.
Proof.
  unfold keywords. repeat constructor; intros p; destruct p; reflexivity.
Qed.

Lemma single_passes (kws : list str) (x : str) :
  Forall (fun kw : str =>
            single true (nl :: toUpperCase kw) = true
            /\ forall p, after p (nl :: toUpperCase kw) = false) kws ->
  single false x = true ->
  single false (fold_left format_keyword kws x) = true.
Proof.
  intros H. revert x. induction H as [|kw kws [H1 H2] _ IH]; intros x Hx;
    [exact Hx|].
  cbn [fold_left]. apply IH. unfold format_keyword, replace_all_word_i.
  apply (single_scan true kw (nl :: toUpperCase kw) H1 H2 x 0 None false).
  exact Hx.
Qed.

(** In such a text the collapse of white-space runs changes no line. *)
Lemma single_pieces (x : str) (q : bool) :
  single q x = true ->
  replace_ws_runs q (hd [] (split_nl x)) = hd [] (split_nl x)
  /\ Forall (fun l => replace_ws_runs false l = l) (tl (split_nl x)).
Proof.
  revert q. induction x as [|c x IH]; intros q H.
  - split; [reflexivity | constructor].
  - cbn in H. apply andb_true_iff in H as [H H3].
    apply andb_true_iff in H as [H1 H2].
    destruct (IH _ H3) as [I0 Is].
    cbn [split_nl]. destruct (code c =? 10) eqn:E.
    + apply code_10 in E. subst c. cbn [hd tl]. split; [reflexivity|].
      change (ascii_eqb nl space) with false in *.
      destruct (split_nl_cons x) as [l [ls El]]. rewrite El in *.
      cbn [hd tl] in *. now constructor.
    + destruct (split_nl_cons x) as [l [ls El]]. rewrite El in *.
      cbn [hd tl] in *. split; [|exact Is].
      cbn [replace_ws_runs].
      assert (Hnl : ascii_eqb c nl = false).
      { apply not_true_is_false. intros Hc. apply ascii_eqb_eq in Hc.
        subst c. discriminate E. }
      rewrite Hnl, orb_false_r in H1.
      destruct (is_space c) eqn:Sp.
      * cbn in H1. rewrite H1 in *. rewrite andb_true_r in H2.
        apply negb_true_iff in H2. subst q.
        apply ascii_eqb_eq in H1. subst c. now rewrite I0.
      * assert (Hs : ascii_eqb c space = false).
        { apply not_true_is_false. intros Hc. apply ascii_eqb_eq in Hc.
          now subst c. }
        rewrite Hs in I0. now rewrite I0.
Qed.

Lemma single_lines (x : str) :
  single false x = true ->
  Forall (fun l => squeeze (trim l) = trim l) (split_nl x).
Proof.
  intros H. destruct (single_pieces x false H) as [H0 Hs].
  destruct (split_nl_cons x) as [l [ls E]]. rewrite E in *. cbn [hd tl] in *.
  assert (Hall : Forall (fun l => replace_ws_runs false l = l) (l :: ls))
    by now constructor.
  eapply Forall_impl; [|exact Hall]. intros p Hp. cbn beta in *.
  rewrite squeeze_trim. unfold squeeze. now rewrite Hp.
Qed.

End Single.

Section FormatLines.

Lemma formatSQL_split (s : str) :
  ~ blank s ->
  split_nl (formatSQL s)
  = filter (fun line => 0 <? length line)
      (map trim (split_nl (fold_left format_keyword keywords (squeeze s)))).
Proof.
  intros Hs. rewrite formatSQL_steps. apply relines_lines.
  intros E. apply Hs. apply formatSQL_blank. rewrite formatSQL_steps.
  unfold relines. now rewrite E.
Qed.

End FormatLines.

(** X12. The lines of a formatted text: none is empty, and each consists of its
    words with single spaces between them, so no line starts or ends with
    white space and no tab or other white space is left. *)
Theorem formatSQL_lines (s : str) :
  ~ blank s ->
  Forall (fun l => l <> [] /\ l = join [space] (ws_words l))
    (split_nl (formatSQL s)).
Proof.
  intros Hs. rewrite (formatSQL_split s Hs). apply Forall_forall.
  intros l Hl. apply filter_In in Hl as [Hl Hne].
  split; [destruct l; [discriminate Hne | discriminate]|].
  apply in_map_iff in Hl as [p [<- Hp]].
  rewrite <- squeeze_words. symmetry.
  assert (Hx : single false (fold_left format_keyword keywords (squeeze s))
               = true)
    by (apply single_passes; [apply keywords_reps | apply single_squeeze]).
  pose proof (single_lines _ Hx) as Hall. rewrite Forall_forall in Hall.
  exact (Hall p Hp).
Qed.

Lemma formatSQL_lines_example :
  Forall (fun l => l <> [] /\ l = join [space] (ws_words l))
    (split_nl (formatSQL "select  a ,b from t"%string)).
Proof.
  apply (formatSQL_lines ("select  a ,b from t"%string : str)).
  intros H. discriminate H.
Defined.

(** ** formatSQL: what a line starts with *)

Section Heads.

Lemma pass_hit (k : kwd) (n : nat) (its : list item) :
  length its <= n -> Forall2 (hit k) its (pass k its).
Proof.
  revert its. induction n as [|n IH]; intros its Hlen.
  { destruct its; [constructor | simpl in Hlen; lia]. }
  destruct its as [|it its]; [constructor|]. simpl in Hlen.
  assert (Hl1 : length its <= n) by lia.
  assert (Hl2 : length (tl its) <= n) by (destruct its; simpl in *; lia).
  destruct k as [k1 | a b]; cbn [pass].
  - destruct (same_word (word it) k1) eqn:E; constructor;
      try (now apply IH); unfold hit; cbn [kwd_head]; auto.
  - destruct its as [|it2 its''].
    + constructor; [unfold hit; auto | constructor].
    + destruct (same_word (word it) a && str_eqb (gap it2) [space]
                && same_word (word it2) b) eqn:E.
      * apply andb_true_iff in E as [E _]. apply andb_true_iff in E as [E _].
        constructor; [unfold hit; cbn [kwd_head]; auto|].
        constructor; [unfold hit; auto|]. now apply IH.
      * constructor; [unfold hit; auto|]. now apply (IH (it2 :: its'')).
Qed.

Lemma line_heads_upper (h : str) : In h line_heads -> toUpperCase h = h.
Proof.
  intros H. unfold line_heads, kwds in H. cbn in H.
  repeat (destruct H as [<- | H]; [reflexivity|]). destruct H.
Qed.

Lemma line_heads_runs (h : str) : In h line_heads -> is_run is_word h.
Proof.
  intros H. unfold line_heads, kwds in H. cbn in H.
  repeat (destruct H as [<- | H]; [split; [discriminate | reflexivity]|]).
  destruct H.
Qed.

Lemma hit_headed (k : kwd) (x y : item) :
  In k kwds -> hit k x y -> headed x -> headed y.
Proof.
  intros Hk [-> | [[-> Hw] | ->]] Hx; [exact Hx | |].
  - intros _. cbn [mark word].
    assert (Hh : In (kwd_head k) line_heads)
      by (unfold line_heads; now apply in_map).
    unfold same_word in Hw. apply str_eqb_eq in Hw.
    now rewrite Hw, (line_heads_upper _ Hh).
  - intros Hnl. cbn [raise gap word] in *.
    specialize (Hx Hnl). now rewrite (line_heads_upper _ Hx).
Qed.

Lemma pass_headed (k : kwd) (its : list item) :
  In k kwds -> Forall headed its -> Forall headed (pass k its).
Proof.
  intros Hk H.
  pose proof (pass_hit k (length its) its (le_n _)) as Hs.
  induction Hs as [|x y l l' Hxy _ IH]; [constructor|].
  inversion H; subst. constructor; [now apply (hit_headed k x) | now apply IH].
Qed.

Lemma passes_headed (ks : list kwd) (its : list item) :
  Forall (fun k => In k kwds) ks ->
  Forall headed its -> Forall headed (passes ks its).
Proof.
  intros Hks. revert its. induction Hks as [|k ks Hk _ IH]; intros its H;
    [exact H|].
  cbn. apply IH. now apply pass_headed.
Qed.

Lemma word_no_nl (w : str) : forallb is_word w = true -> ~ In nl w.
Proof.
  intros H Hin. rewrite forallb_forall in H. now specialize (H nl Hin).
Qed.

Lemma first_line_gap (x : str) :
  starts_gap x -> starts_gap (hd [] (split_nl x)).
Proof.
  destruct x as [|c x]; [exact (fun H => H)|]. cbn [starts_gap split_nl].
  intros H. destruct (code c =? 10); [exact I|].
  destruct (split_nl x); exact H.
Qed.

Lemma nls_lines (m : nat) (y : str) :
  Forall (fun l => l = [] \/ keyword_line l) (split_nl y) ->
  Forall (fun l => l = [] \/ keyword_line l) (split_nl (nls m ++ y)).
Proof.
  intros H. induction m as [|m IH]; [exact H|].
  cbn. constructor; [now left | exact IH].
Qed.

(** The lines of a text of words and gaps, when line breaks stand only at
    the end of gaps and before first words of keywords. *)
Lemma render_lines (F : list item) (tail : str) :
  Forall (ok_item is_word) F ->
  Forall (fun it => gap it <> []) (tl F) ->
  is_gap is_word tail -> ~ In nl tail ->
  Forall (fun f => exists g n, gap f = g ++ nls n /\ ~ In nl g
                               /\ (0 < n -> In (word f) line_heads)) F ->
  Forall (fun l => l = [] \/ keyword_line l) (tl (split_nl (render F tail))).
Proof.
  intros Hok Hgap Htail Hnl Hgood.
  induction F as [|f F IH].
  - cbn. rewrite (split_nl_no_nl tail Hnl). constructor.
  - inversion Hok as [|? ? [Hg Hw] Hok']; subst.
    inversion Hgood as [|? ? [g [n [Eg [Hg0 Hn]]]] Hgood']; subst.
    cbn [tl] in Hgap.
    assert (Hgap' : Forall (fun it => gap it <> []) (tl F))
      by (destruct F; [constructor | now inversion Hgap]).
    specialize (IH Hok' Hgap' Hgood').
    assert (HR : starts_gap (hd [] (split_nl (render F tail))))
      by (apply first_line_gap; now apply render_starts_gap).
    assert (Hwn : ~ In nl (word f)) by (apply word_no_nl; apply Hw).
    cbn [render]. rewrite Eg. destruct n as [|m].
    + cbn [nls repeat]. rewrite app_nil_r, app_assoc.
      rewrite split_nl_app; [exact IH|].
      intros Hin. apply in_app_or in Hin as [Hin|Hin]; contradiction.
    + change (nls (S m)) with (nl :: nls m).
      rewrite <- app_assoc. cbn [app].
      rewrite split_nl_app_nl, (split_nl_no_nl g Hg0). cbn [app tl].
      apply nls_lines. rewrite split_nl_app; [|exact Hwn].
      constructor; [|exact IH].
      right. exists (word f), (hd [] (split_nl (render F tail))).
      split; [apply Hn; lia|]. split; [reflexivity | exact HR].
Qed.

Lemma trim_keyword_line (p : str) :
  keyword_line p -> keyword_line (trim p).
Proof.
  intros [k [rest [Hk [-> Hrest]]]].
  destruct (line_heads_runs k Hk) as [Hne Hw].
  exists k, (trimEnd rest). split; [exact Hk|]. split.
  - destruct k as [|c k]; [congruence|].
    assert (Hc : is_space c = false).
    { cbn in Hw. apply andb_true_iff in Hw as [Hc _].
      now apply word_nonspace. }
    destruct (exists_last Hne) as [a [d Ea]].
    assert (Hd : is_space d = false).
    { rewrite Ea in Hw. rewrite forallb_app in Hw.
      apply andb_true_iff in Hw as [_ Hw]. cbn in Hw.
      apply andb_true_iff in Hw as [Hd _]. now apply word_nonspace. }
    assert (E1 : trimStart ((c :: k) ++ rest) = (c :: k) ++ rest)
      by (apply (@trimStart_fixed c _ Hc)).
    unfold trim. rewrite E1, Ea, <- !app_assoc. cbn [app].
    apply (@trimEnd_app_nonspace a d rest Hd).
  - destruct (trimEnd_decomp rest) as [t [Ht _]].
    destruct (trimEnd rest) as [|c r]; [exact I|].
    rewrite Ht in Hrest. exact Hrest.
Qed.

Lemma tl_filter_incl {A} (f : A -> bool) (l : list A) (x : A) :
  In x (tl (filter f l)) -> In x (filter f (tl l)).
Proof.
  destruct l as [|a l]; [intros []|]. cbn [filter tl].
  destruct (f a); [exact (fun H => H)|].
  destruct (filter f l); [intros [] | intros H; now right].
Qed.

Lemma squeeze_no_nl (s : str) : ~ In nl (squeeze s).
Proof.
  unfold squeeze. intros H. apply trim_sub in H.
  now apply (collapse_no_nl false s).
Qed.

Lemma gap_in_render (its : list item) (tail : str) (it : item) (c : ascii) :
  In it its -> In c (gap it) -> In c (render its tail).
Proof.
  induction its as [|x its IH]; intros Hin Hc; [destruct Hin|].
  cbn [render]. destruct Hin as [<-|Hin].
  - apply in_or_app. now left.
  - apply in_or_app. right. apply in_or_app. right. now apply IH.
Qed.

Lemma tail_in_render (its : list item) (tail : str) (c : ascii) :
  In c tail -> In c (render its tail).
Proof.
  intros H. induction its as [|x its IH]; [exact H|]. cbn [render].
  apply in_or_app. right. apply in_or_app. now right.
Qed.

Lemma kwds_in : Forall (fun k => In k kwds) kwds.
Proof. apply Forall_forall. auto. Qed.

(** The lines of the formatter's text before it is cut into lines. *)
Lemma format_lines (s : str) :
  Forall (fun l => l = [] \/ keyword_line l)
    (tl (split_nl (fold_left format_keyword keywords (squeeze s)))).
Proof.
  destruct (parse_exists is_word (squeeze s)) as [its [tail [Er Hv]]].
  rewrite <- Er, keywords_kwds.
  rewrite (format_render kwds its tail kwds_ok Hv).
  pose proof (passes_valid kwds its tail Hv) as [Hok [Hgap Htail]].
  assert (Hno : forall c, In c (render its tail) -> c <> nl).
  { intros c Hc ->. rewrite Er in Hc. now apply (squeeze_no_nl s). }
  apply render_lines; try assumption.
  - intros H. apply tail_in_render with (its := its) in H.
    now apply (Hno nl).
  - assert (Hhead : Forall headed (passes kwds its)).
    { apply passes_headed; [apply kwds_in|].
      apply Forall_forall. intros it Hit Hnl.
      elim (Hno nl); [|reflexivity]. now apply (gap_in_render its tail it). }
    pose proof (passes_grows kwds its) as Hg.
    assert (Hits : Forall (fun it => ~ In nl (gap it)) its).
    { apply Forall_forall. intros it Hit Hnl.
      elim (Hno nl); [|reflexivity]. now apply (gap_in_render its tail it). }
    revert Hhead Hits. clear - Hg.
    induction Hg as [|x f l l' [_ [n En]] _ IH]; intros Hhead Hits;
      [constructor|].
    inversion Hhead; subst. inversion Hits; subst.
    constructor; [|now apply IH].
    exists (gap x), n. split; [exact En|]. split; [assumption|].
    intros Hn. apply H1. rewrite En. apply in_or_app. right.
    destruct n; [lia | now left].
Qed.

End Heads.

(** X13. Every line of a formatted text but the first starts with the first
    word of a keyword of the formatter, in upper case and as a whole
    word. *)
Theorem formatSQL_line_heads (s l : str) :
  In l (tl (split_nl (formatSQL s))) -> keyword_line l.
Proof.
  intros Hl.
  assert (Hs : ~ blank s).
  { intros Hb. apply blank_formatSQL in Hb. rewrite Hb in Hl.
    destruct Hl. }
  rewrite (formatSQL_split s Hs) in Hl.
  apply tl_filter_incl in Hl. apply filter_In in Hl as [Hl Hne].
  pose proof (format_lines s) as Hall. rewrite Forall_forall in Hall.
  destruct (split_nl (fold_left format_keyword keywords (squeeze s)))
    as [|l0 ls]; [destruct Hl|].
  cbn [map tl] in Hl, Hall.
  apply in_map_iff in Hl as [p [<- Hp]].
  destruct (Hall p Hp) as [-> | Hk]; [discriminate Hne|].
  now apply trim_keyword_line.
Qed.

Lemma formatSQL_line_heads_example :
  In ("FROM t"%string : str)
     (tl (split_nl (formatSQL "select a from t where x"%string)))
  /\ keyword_line "FROM t"%string.
Proof.
  assert (H : In ("FROM t"%string : str)
                (tl (split_nl (formatSQL "select a from t where x"%string))))
    by (vm_compute; left; reflexivity).
  split; [exact H|].
  exact (formatSQL_line_heads ("select a from t where x"%string : str)
           ("FROM t"%string : str) H).
Defined.

(** ** formatSQL: where a keyword can stand *)

Section KeywordPlaces.

Lemma same_word_upper (w k : str) :
  same_word (toUpperCase w) k = same_word w k.
Proof. unfold same_word. now rewrite toUpperCase_idem. Qed.

Lemma same_word_eq (w k : str) :
  toUpperCase k = k -> same_word w k = true -> toUpperCase w = k.
Proof.
  unfold same_word. intros Hk H. apply str_eqb_eq in H. now rewrite H.
Qed.

Lemma pass_one_marks (k : str) (its : list item) :
  toUpperCase k = k -> Forall (marked k) (pass (One k) its).
Proof.
  intros Hk. induction its as [|it its IH]; [constructor|].
  cbn [pass]. destruct (same_word (word it) k) eqn:E.
  - constructor; [|exact IH]. intros _. cbn [mark word gap].
    split; [now apply same_word_eq | now exists (gap it)].
  - constructor; [|exact IH]. intros H. congruence.
Qed.

Lemma step_marked (k : str) (x y : item) :
  toUpperCase k = k -> step x y -> marked k x -> marked k y.
Proof.
  intros Hk [-> | [-> | ->]] Hx; [exact Hx | |]; intros H;
    cbn [mark raise word gap] in *; rewrite same_word_upper in H;
    destruct (Hx H) as [Hw [g Hg]].
  - split; [now rewrite Hw | exists (gap x); reflexivity].
  - split; [now rewrite Hw | now exists g].
Qed.

Lemma pass_marked (k : str) (k' : kwd) (its : list item) :
  toUpperCase k = k -> Forall (marked k) its ->
  Forall (marked k) (pass k' its).
Proof.
  intros Hk H.
  pose proof (pass_step k' (length its) its (le_n _)) as Hs.
  induction Hs as [|x y l l' Hxy _ IH]; [constructor|].
  inversion H; subst.
  constructor; [now apply (step_marked k x) | now apply IH].
Qed.

Lemma passes_marked (k : str) (ks : list kwd) (its : list item) :
  toUpperCase k = k -> Forall (marked k) its ->
  Forall (marked k) (passes ks its).
Proof.
  intros Hk. revert its. induction ks as [|k' ks IH]; intros its H;
    [exact H|].
  cbn. apply IH. now apply pass_marked.
Qed.

Lemma passes_app (ks1 ks2 : list kwd) (its : list item) :
  passes (ks1 ++ ks2) its = passes ks2 (passes ks1 its).
Proof. unfold passes. apply fold_left_app. Qed.

Lemma kwds_marked (k : str) (its : list item) :
  In (One k) kwds -> toUpperCase k = k ->
  Forall (marked k) (passes kwds its).
Proof.
  intros Hin Hk. apply in_split in Hin as [l1 [l2 E]]. rewrite E.
  rewrite passes_app. cbn [passes fold_left].
  apply (passes_marked k l2); [exact Hk|]. now apply pass_one_marks.
Qed.

Lemma one_word_kwds (k : str) :
  In k one_word_keywords -> In (One k) kwds /\ toUpperCase k = k
                            /\ is_run is_word k.
Proof.
  intros H. unfold one_word_keywords in H. cbn in H.
  repeat (destruct H as [<- | H];
          [split; [cbn; tauto | split; [reflexivity |
                   split; [discriminate | reflexivity]]]|]).
  destruct H.
Qed.

Lemma run_unique (t t' rest rest' : str) :
  forallb is_word t = true -> forallb is_word t' = true ->
  starts_gap rest -> starts_gap rest' ->
  t ++ rest = t' ++ rest' -> t = t'.
Proof.
  revert t'. induction t as [|c t IH]; intros t' Ht Ht' Hr Hr' H.
  - destruct t' as [|c' t']; [reflexivity|]. cbn in *. subst rest.
    cbn in Hr. apply andb_true_iff in Ht' as [Hc _]. congruence.
  - destruct t' as [|c' t'].
    + cbn in *. subst rest'. cbn in Hr'.
      apply andb_true_iff in Ht as [Hc _]. congruence.
    + cbn in *. inversion H; subst.
      apply andb_true_iff in Ht as [_ Ht].
      apply andb_true_iff in Ht' as [_ Ht'].
      f_equal. now apply (IH t').
Qed.

Lemma at_gap_word (L : str) (c : ascii) :
  is_word c = true -> ~ at_gap (last_opt (L ++ [c]) None).
Proof.
  intros Hc H. rewrite last_opt_snoc in H. cbn in H. congruence.
Qed.

(** A whole word of a text of words and gaps is the word of one of its
    items. *)
Lemma word_in_render (F : list item) (tail : str) :
  valid is_word F tail ->
  forall L w R,
    render F tail = L ++ w ++ R -> is_run is_word w ->
    at_gap (last_opt L None) -> starts_gap R ->
    exists F1 f F2,
      F = F1 ++ f :: F2 /\ word f = w /\ L = render F1 (gap f).
Proof.
  induction F as [|f F IH]; intros Hv L w R E Hw HL HR.
  - destruct Hv as [_ [_ Ht]]. cbn in E. exfalso.
    destruct Hw as [Hne Hw]. destruct w as [|c w]; [congruence|].
    cbn in Hw. apply andb_true_iff in Hw as [Hc _].
    unfold is_gap in Ht. rewrite E, forallb_app in Ht.
    apply andb_true_iff in Ht as [_ Ht]. cbn in Ht. rewrite Hc in Ht.
    discriminate Ht.
  - pose proof Hv as [Hok [Hgap Ht]].
    inversion Hok as [|? ? [Hg [Hfne Hfw]] Hok']; subst. cbn [tl] in Hgap.
    assert (Hv' : valid is_word F tail).
    { split; [exact Hok'|]. split; [|exact Ht].
      destruct F; [constructor | now inversion Hgap]. }
    assert (HR' : starts_gap (render F tail))
      by (now apply render_starts_gap).
    cbn [render] in E.
    assert (Hsame : w ++ R = word f ++ render F tail -> w = word f).
    { intros H. destruct Hw as [_ Hw].
      now apply (run_unique w (word f) R (render F tail)). }
    apply app_eq_app in E as [l [[Eg E] | [EL E]]].
    + destruct l as [|c l].
      * cbn in E. rewrite app_nil_r in Eg. exists [], f, F.
        split; [reflexivity|]. split; [symmetry; now apply Hsame|].
        now rewrite Eg.
      * exfalso. destruct Hw as [Hne Hw]. destruct w as [|c' w]; [congruence|].
        cbn in E. inversion E; subst c'.
        cbn in Hw. apply andb_true_iff in Hw as [Hc _].
        unfold is_gap in Hg. rewrite Eg, forallb_app in Hg.
        apply andb_true_iff in Hg as [_ Hg]. cbn in Hg. rewrite Hc in Hg.
        discriminate Hg.
    + destruct l as [|c l].
      * cbn in E. rewrite app_nil_r in EL. exists [], f, F.
        split; [reflexivity|]. split; [symmetry; apply Hsame; now symmetry | exact EL].
      * apply app_eq_app in E as [l2 [[Ew E] | [El E]]].
        -- exfalso. subst L.
           destruct (exists_last (l := c :: l)) as [l0 [d Ed]];
             [discriminate|].
           rewrite Ed, app_assoc in HL.
           apply (at_gap_word (gap f ++ l0) d); [|exact HL].
           rewrite Ew, Ed, <- app_assoc, forallb_app in Hfw.
           apply andb_true_iff in Hfw as [_ Hfw].
           rewrite forallb_app in Hfw.
           apply andb_true_iff in Hfw as [Hfw _]. cbn in Hfw.
           now apply andb_true_iff in Hfw as [Hd _].
        -- assert (HL2 : at_gap (last_opt l2 None)).
           { destruct l2 as [|e l2]; [exact I|].
             subst L. rewrite El in HL.
             rewrite !last_opt_app in HL.
             destruct (exists_last (l := e :: l2)) as [l0 [d Ed]];
               [discriminate|].
             rewrite Ed in *. now rewrite last_opt_snoc in *. }
           destruct (IH Hv' l2 w R E Hw HL2 HR) as [F1 [f' [F2 [EF [Ew' El2]]]]].
           exists (f :: F1), f', F2. split; [now rewrite EF|].
           split; [exact Ew'|]. cbn [render].
           now rewrite EL, El, <- El2.
Qed.

(** A line of a text lies between line breaks. *)
Lemma join_nl_piece (ls : list str) (p : str) :
  In p ls ->
  exists A B,
    join [nl] ls = A ++ p ++ B
    /\ (A = [] \/ exists A', A = A' ++ [nl])
    /\ (B = [] \/ exists B', B = nl :: B').
Proof.
  induction ls as [|l ls IH]; intros Hin; [destruct Hin|].
  destruct Hin as [<- | Hin].
  - destruct ls as [|l' ls'].
    + exists [], []. cbn. rewrite app_nil_r. split; [reflexivity|].
      split; now left.
    + exists [], (nl :: join [nl] (l' :: ls')). split; [reflexivity|].
      split; [now left | right; now eexists].
  - destruct (IH Hin) as [A [B [E [HA HB]]]].
    destruct ls as [|l' ls']; [destruct Hin|].
    change (join [nl] (l :: l' :: ls')) with (l ++ nl :: join [nl] (l' :: ls')).
    rewrite E. exists (l ++ nl :: A), B.
    split; [now rewrite <- app_assoc|]. split; [|exact HB].
    right. destruct HA as [-> | [A' ->]].
    + now exists l.
    + exists (l ++ nl :: A'). now rewrite <- app_assoc.
Qed.

Lemma split_nl_piece (x p : str) :
  In p (split_nl x) ->
  exists A B,
    x = A ++ p ++ B
    /\ (A = [] \/ exists A', A = A' ++ [nl])
    /\ (B = [] \/ exists B', B = nl :: B').
Proof.
  intros H. destruct (join_nl_piece (split_nl x) p H) as [A [B [E HAB]]].
  rewrite join_split_nl in E. now exists A, B.
Qed.

Lemma trim_decomp_blank (x : str) :
  exists a b, x = a ++ trim x ++ b /\ blank a /\ blank b.
Proof.
  destruct (trimStart_decomp x) as [a [Ha Hab]].
  destruct (trimEnd_decomp (trimStart x)) as [b [Hb Hbb]].
  exists a, b. unfold trim. now rewrite <- Hb.
Qed.

Lemma blank_gap (a : str) : blank a -> is_gap is_word a.
Proof.
  unfold blank, is_gap. induction a as [|c a IH]; [reflexivity|].
  cbn. intros H. apply andb_true_iff in H as [Hc H].
  rewrite (IH H), andb_true_r. apply negb_true_iff.
  destruct (is_word c) eqn:E; [|reflexivity].
  apply word_nonspace in E. congruence.
Qed.

Lemma last_opt_nonempty (m : str) (p q : option ascii) :
  m <> [] -> last_opt m p = last_opt m q.
Proof.
  intros H. destruct (exists_last H) as [m' [c ->]].
  now rewrite !last_opt_snoc.
Qed.

Lemma starts_gap_app_l (u v : str) :
  u <> [] -> starts_gap u -> starts_gap (u ++ v).
Proof. destruct u; [congruence | exact (fun _ H => H)]. Qed.

Lemma blank_starts_gap (b v : str) :
  blank b -> starts_gap v -> starts_gap (b ++ v).
Proof.
  intros Hb Hv. destruct b as [|c b]; [exact Hv|]. cbn.
  unfold blank in Hb. cbn in Hb. apply andb_true_iff in Hb as [Hc _].
  destruct (is_word c) eqn:E; [|reflexivity].
  apply word_nonspace in E. congruence.
Qed.

End KeywordPlaces.

(** X14. A one-word keyword of the formatter (SELECT, FROM, WHERE, JOIN,
    HAVING, LIMIT, OFFSET, VALUES, UPDATE, SET) that stands in a line of
    the formatted text as a whole word, in any letter case, stands at the
    start of the line and is in upper case. *)
Theorem formatSQL_keyword_starts_line (s k l pre w post : str) :
  In k one_word_keywords ->
  In l (split_nl (formatSQL s)) ->
  l = pre ++ w ++ post -> eq_ci w k ->
  at_gap (last_opt pre None) -> starts_gap post ->
  pre = [] /\ w = k.
Proof.
  intros Hk Hl El Hci HL HR.
  destruct (one_word_kwds k Hk) as [Hin [Hup [Hkne Hkw]]].
  assert (Hw : is_run is_word w).
  { split; [|exact (eq_ci_word w k Hci Hkw)].
    intros ->. apply eq_ci_length in Hci. destruct k; [congruence | discriminate]. }
  assert (Hs : ~ blank s).
  { intros Hb. apply blank_formatSQL in Hb. rewrite Hb in Hl.
    destruct Hl as [<- | []]. destruct Hw as [Hne _].
    destruct pre; [destruct w; [congruence | discriminate] | discriminate]. }
  rewrite (formatSQL_split s Hs) in Hl.
  apply filter_In in Hl as [Hl _]. apply in_map_iff in Hl as [p [Ep Hp]].
  destruct (parse_exists is_word (squeeze s)) as [its [tail [Er Hv]]].
  rewrite <- Er, keywords_kwds in Hp.
  rewrite (format_render kwds its tail kwds_ok Hv) in Hp.
  pose proof (passes_valid kwds its tail Hv) as HvF.
  pose proof (kwds_marked k its Hin Hup) as Hmarked.
  assert (Hnl : ~ In nl p).
  { pose proof (split_nl_pieces (render (passes kwds its) tail)) as Hall.
    rewrite Forall_forall in Hall. now apply Hall. }
  destruct (split_nl_piece _ p Hp) as [A [B [Ex [HA HB]]]].
  destruct (trim_decomp_blank p) as [a [b [Etrim [Ha Hb]]]].
  rewrite Ep, El in Etrim.
  assert (E : render (passes kwds its) tail
              = (A ++ a ++ pre) ++ w ++ (post ++ b ++ B)).
  { rewrite Ex, Etrim. now rewrite <- !app_assoc. }
  assert (HLx : at_gap (last_opt (A ++ a ++ pre) None)).
  { rewrite !last_opt_app.
    assert (H1 : at_gap (last_opt A None)).
    { destruct HA as [-> | [A' ->]]; [exact I|].
      now rewrite last_opt_snoc. }
    assert (H2 : at_gap (last_opt a (last_opt A None))).
    { apply at_gap_last; [now apply blank_gap | now right]. }
    destruct pre as [|c pre]; [exact H2|].
    rewrite (last_opt_nonempty (c :: pre) _ None); [exact HL | discriminate]. }
  assert (HRx : starts_gap (post ++ b ++ B)).
  { destruct post as [|c post]; [|exact HR].
    cbn [app]. apply blank_starts_gap; [exact Hb|].
    destruct HB as [-> | [B' ->]]; [exact I | reflexivity]. }
  destruct (word_in_render _ tail HvF _ w _ E Hw HLx HRx)
    as [F1 [f [F2 [EF [Ewf EL]]]]].
  assert (Hf : marked k f).
  { rewrite Forall_forall in Hmarked. apply Hmarked. rewrite EF.
    apply in_or_app. right. now left. }
  assert (Hsw : same_word (word f) k = true)
    by (rewrite Ewf; now apply same_word_iff).
  destruct (Hf Hsw) as [Hwk [g Hg]]. split; [|now rewrite <- Ewf].
  destruct pre as [|c pre]; [reflexivity|]. exfalso.
  destruct (exists_last (l := c :: pre)) as [pre' [d Ed]]; [discriminate|].
  rewrite Hg in EL.
  rewrite <- (app_nil_r (g ++ [nl])), <- app_assoc in EL.
  rewrite render_app_tail in EL.
  rewrite Ed, !app_assoc, app_nil_r in EL. apply app_inj_tail in EL as [_ ->].
  apply Hnl. rewrite Etrim, Ed.
  apply in_or_app. right. apply in_or_app. left.
  apply in_or_app. left. apply in_or_app. right. now left.
Qed.

Lemma formatSQL_keyword_starts_line_example :
  In ("FROM t"%string : str) (split_nl (formatSQL "select a from t"%string))
  /\ ([] : str) = [] /\ ("FROM"%string : str) = ("FROM"%string : str).
Proof.
  assert (H : In ("FROM t"%string : str)
                (split_nl (formatSQL "select a from t"%string)))
    by (vm_compute; right; left; reflexivity).
  split; [exact H|].
  apply (formatSQL_keyword_starts_line
           ("select a from t"%string : str) ("FROM"%string : str)
           ("FROM t"%string : str) [] ("FROM"%string : str)
           (" t"%string : str)).
  - cbn. tauto.
  - exact H.
  - reflexivity.
  - reflexivity.
  - exact I.
  - reflexivity.
Defined.

(** ** getSchemaInfo: every table type *)

Section SchemaCases.

Lemma lower_idem (c : ascii) : lower (lower c) = lower c.
Proof. destruct c as [[] [] [] [] [] [] [] []]; reflexivity. Qed.

Lemma toLowerCase_idem (s : str) : toLowerCase (toLowerCase s) = toLowerCase s.
Proof.
  unfold toLowerCase. rewrite map_map. apply map_ext. apply lower_idem.
Qed.

(** A name with a capital letter is no lower-case key. *)
Lemma capital_key (k t : str) :
  toLowerCase k <> k -> str_eqb k (toLowerCase t) = false.
Proof.
  intros H. apply not_true_is_false. intros E. apply str_eqb_eq in E.
  apply H. rewrite E. apply toLowerCase_idem.
Qed.

Lemma str_eqb_neq (a b : str) : a <> b -> str_eqb a b = false.
Proof.
  intros H. apply not_true_is_false. intros E. now apply str_eqb_eq in E.
Qed.

End SchemaCases.

(** X15. getSchemaInfo on every table type: the record of users, products or
    orders when the name in lower case is one of these; the fallback
    record, with the name as given in its example, for every other name
    but two, "constructor" and "__proto__" in any letter case, which give
    what [Object.prototype] holds under these names. *)
Theorem getSchemaInfo_cases (tableType : str) :
  (toLowerCase tableType = ("users"%string : str) ->
   getSchemaInfo tableType = VSchema users_schema)
  /\ (toLowerCase tableType = ("products"%string : str) ->
      getSchemaInfo tableType = VSchema products_schema)
  /\ (toLowerCase tableType = ("orders"%string : str) ->
      getSchemaInfo tableType = VSchema orders_schema)
  /\ (toLowerCase tableType = ("constructor"%string : str) ->
      getSchemaInfo tableType = VFunction "Object")
  /\ (toLowerCase tableType = ("__proto__"%string : str) ->
      getSchemaInfo tableType = VObjectPrototype)
  /\ (~ In (toLowerCase tableType)
          (strs ["users"; "products"; "orders"; "constructor"; "__proto__"]%string) ->
      getSchemaInfo tableType = VSchema (fallback_schema tableType)).
Proof.
  unfold getSchemaInfo.
  repeat split; try (intros ->; reflexivity).
  intros H. cbn in H.
  unfold get_schemas, schemas, object_prototype. cbn [assoc].
  rewrite !(str_eqb_neq _ (toLowerCase tableType)) by (intros E; apply H; tauto).
  rewrite !capital_key by discriminate.
  rewrite !(str_eqb_neq _ (toLowerCase tableType)) by (intros E; apply H; tauto).
  rewrite !capital_key by discriminate.
  reflexivity.
Qed.

Lemma getSchemaInfo_cases_example :
  getSchemaInfo "Widgets"%string = VSchema (fallback_schema "Widgets"%string)
  /\ examples (fallback_schema "Widgets"%string)
     = [("SELECT * FROM Widgets LIMIT 10"%string : str)].
Proof.
  split; [|reflexivity].
  apply (proj2 (proj2 (proj2 (proj2 (proj2
           (getSchemaInfo_cases ("Widgets"%string : str))))))).
  intros H. cbn in H.
  repeat (destruct H as [H|H]; [discriminate H|]). exact H.
Defined.

(** ** explainSQL: the findings *)

Section Findings.




Lemma clause_finding_snd (sql tag phrase description : str) :
  concat (map snd (clause_finding sql tag phrase description))
  = if includes (toUpperCase sql) tag then [comp tag description] else [].
Proof.
  unfold clause_finding. now destruct (includes (toUpperCase sql) tag).
Qed.


Lemma explainSQL_components_eq (sql : str) :
  components (explainSQL sql) = concat (map snd (findings sql)).
Proof.
  unfold explainSQL. cbv zeta. cbn [components].
  rewrite !snd_if_say, snd_match_say.
  unfold findings. rewrite !map_app, !concat_app, !clause_finding_snd.
  rewrite <- !app_assoc.
  assert (Hdml :
    snd (if includes (toUpperCase sql) "SELECT"%string
        then
         if test select_star_re sql
         then
          (fst (say ("This SQL query "%string : str, []) "retrieves data "%string
                  (comp "SELECT"%string "Specifies which columns to retrieve"%string)),
           push (snd (say ("This SQL query "%string : str, []) "retrieves data "%string
                  (comp "SELECT"%string "Specifies which columns to retrieve"%string)))
             (comp "SELECT *"%string "Selects all columns from the table"%string))
         else say ("This SQL query "%string : str, []) "retrieves data "%string
                  (comp "SELECT"%string "Specifies which columns to retrieve"%string)
        else if includes (toUpperCase sql) "INSERT"%string
        then say ("This SQL query "%string : str, []) "inserts new data "%string
                  (comp "INSERT"%string "Adds new rows to a table"%string)
        else if includes (toUpperCase sql) "UPDATE"%string
        then say ("This SQL query "%string : str, []) "modifies existing data "%string
                  (comp "UPDATE"%string "Changes existing rows in a table"%string)
        else if includes (toUpperCase sql) "DELETE"%string
        then say ("This SQL query "%string : str, []) "removes data "%string
                  (comp "DELETE"%string "Removes rows from a table"%string)
        else ("This SQL query "%string : str, []))
    = concat (map snd (dml_finding sql))).
  { unfold dml_finding.
    destruct (includes (toUpperCase sql) "SELECT"%string);
      [destruct (test select_star_re sql); reflexivity|].
    destruct (includes (toUpperCase sql) "INSERT"%string); [reflexivity|].
    destruct (includes (toUpperCase sql) "UPDATE"%string); [reflexivity|].
    destruct (includes (toUpperCase sql) "DELETE"%string); reflexivity. }
  rewrite Hdml. f_equal.
  unfold from_finding, from_description.
  destruct (capture_word from_re sql); reflexivity.
Qed.

End Findings.

Section FromTable.

Lemma take_while_decomp (p : ascii -> bool) (s : str) :
  exists rest,
    s = take_while p s ++ rest /\ forallb p (take_while p s) = true
    /\ match rest with c :: _ => p c = false | [] => True end.
Proof.
  induction s as [|c s IH].
  - now exists [].
  - cbn. destruct (p c) eqn:E.
    + destruct IH as [rest [H1 [H2 H3]]]. exists rest.
      split; [cbn; now rewrite <- H1|]. split; [cbn; now rewrite E | exact H3].
    + exists (c :: s). now repeat split.
Qed.

Lemma take_while_run (p : ascii -> bool) (t rest : str) :
  forallb p t = true ->
  match rest with c :: _ => p c = false | [] => True end ->
  take_while p (t ++ rest) = t.
Proof.
  intros Ht Hr. induction t as [|c t IH].
  - cbn. destruct rest as [|c r]; [reflexivity|]. cbn. now rewrite Hr.
  - cbn in *. apply andb_true_iff in Ht as [Hc Ht]. now rewrite Hc, IH.
Qed.

Lemma from_re_In (s r : str) :
  In r (from_re s)
  <-> exists f ws, s = f ++ ws ++ r /\ eq_ci f "FROM"%string /\ spaces ws.
Proof.
  unfold from_re. rewrite seq_In. split.
  - intros [r1 [H1 H2]]. apply lit_i_In in H1 as [f [-> Hf]].
    apply plus_In in H2 as [ws [Hne [-> Hws]]].
    exists f, ws. now repeat split.
  - intros [f [ws [-> [Hf [Hne Hws]]]]]. exists (ws ++ r). split.
    + apply lit_i_In. now exists f.
    + apply plus_In. now exists ws.
Qed.

Lemma filter_head {A} (f : A -> bool) (l : list A) (x : A) (l' : list A) :
  filter f l = x :: l' -> In x l /\ f x = true.
Proof.
  intros H. apply filter_In. rewrite H. now left.
Qed.

Lemma capture_here_sound (s t : str) :
  capture_word_here from_re s = Some t -> from_here s t.
Proof.
  unfold capture_word_here.
  destruct (filter _ (from_re s)) as [|r l] eqn:E; [discriminate|].
  intros H. inversion H; subst. clear H.
  apply filter_head in E as [Hin Hlen].
  apply from_re_In in Hin as [f [ws [Hs [Hf Hws]]]].
  destruct (take_while_decomp is_word r) as [rest [Hr [Hw Hrest]]].
  exists f, ws, rest. split; [now rewrite <- Hr|].
  repeat split; try assumption; try apply Hws.
  intros E. rewrite E in Hlen. discriminate Hlen.
Qed.

Lemma gap_word_unique (p : ascii -> bool) (gx gy : str) (c d : ascii)
  (r1 r2 : str) :
  forallb p gx = true -> forallb p gy = true -> p c = false -> p d = false ->
  gx ++ c :: r1 = gy ++ d :: r2 -> gx = gy /\ c :: r1 = d :: r2.
Proof.
  revert gy. induction gx as [|x gx IH]; intros gy Hx Hy Hc Hd H.
  - destruct gy as [|y gy]; [now split|].
    cbn in *. inversion H; subst. apply andb_true_iff in Hy as [Hy _].
    congruence.
  - destruct gy as [|y gy].
    + cbn in *. inversion H; subst. apply andb_true_iff in Hx as [Hx _].
      congruence.
    + cbn in *. inversion H; subst.
      apply andb_true_iff in Hx as [_ Hx]. apply andb_true_iff in Hy as [_ Hy].
      destruct (IH gy Hx Hy Hc Hd H2) as [-> E]. now split.
Qed.

Lemma from_here_unique (s t t' : str) :
  from_here s t -> from_here s t' -> t = t'.
Proof.
  intros [f [ws [rest [Hs [Hf [[Hne Hws] [[Hn Ht] Hr]]]]]]]
         [f' [ws' [rest' [Hs' [Hf' [[Hne' Hws'] [[Hn' Ht'] Hr']]]]]]].
  rewrite Hs in Hs'.
  assert (Hlen : length f = length f')
    by (rewrite (eq_ci_length Hf), (eq_ci_length Hf'); reflexivity).
  destruct (app_inj_len f f' _ _ Hlen Hs') as [_ E].
  destruct t as [|c t]; [congruence|]. destruct t' as [|c' t']; [congruence|].
  cbn in Ht, Ht'.
  apply andb_true_iff in Ht as [Hc Ht]. apply andb_true_iff in Ht' as [Hc' Ht'].
  cbn [app] in E.
  destruct (gap_word_unique is_space ws ws' c c' _ _ Hws Hws'
              (word_nonspace c Hc) (word_nonspace c' Hc') E) as [_ E'].
  apply (run_unique (c :: t) (c' :: t') rest rest'); try assumption;
    cbn; now rewrite ?Hc, ?Hc'.
Qed.

Lemma capture_here_complete (s t : str) :
  from_here s t -> capture_word_here from_re s = Some t.
Proof.
  intros H. pose proof H as [f [ws [rest [Hs [Hf [Hws [[Hn Ht] Hr]]]]]]].
  assert (Hin : In (t ++ rest)
                   (filter (fun r => 0 <? length (take_while is_word r))
                      (from_re s))).
  { apply filter_In. split.
    - apply from_re_In. now exists f, ws.
    - rewrite (take_while_run is_word t rest Ht).
      + destruct t; [congruence | reflexivity].
      + destruct rest; [exact I | exact Hr]. }
  destruct (capture_word_here from_re s) as [t'|] eqn:E.
  - f_equal. apply (from_here_unique s); [|exact H].
    now apply capture_here_sound.
  - unfold capture_word_here in E.
    destruct (filter _ (from_re s)); [destruct Hin | discriminate E].
Qed.

Lemma capture_first_from (sql t : str) :
  capture_word from_re sql = Some t <-> first_from sql t.
Proof.
  split.
  - induction sql as [|c s IH]; cbn [capture_word].
    + destruct (capture_word_here from_re []) as [w|] eqn:E; [|discriminate].
      intros H. inversion H; subst. exists [], [].
      split; [reflexivity|]. split; [now apply capture_here_sound|].
      intros a b t' Hab Hb. symmetry in Hab.
      apply app_eq_nil in Hab as [_ ->]. congruence.
    + destruct (capture_word_here from_re (c :: s)) as [w|] eqn:E.
      * intros H. inversion H; subst. exists [], (c :: s).
        split; [reflexivity|]. split; [now apply capture_here_sound|].
        intros a b t' Hab Hb. symmetry in Hab.
        apply app_eq_nil in Hab as [_ ->]. congruence.
      * intros H. destruct (IH H) as [pre [x [Hs [Hx Hfirst]]]].
        exists (c :: pre), x. split; [now rewrite Hs|]. split; [exact Hx|].
        intros a b t' Hab Hb Hfrom. destruct a as [|a0 a].
        -- cbn in Hab. subst b. cbn [app] in Hfrom. rewrite <- Hs in Hfrom.
           apply capture_here_complete in Hfrom. congruence.
        -- inversion Hab; subst. now apply (Hfirst a b t').
  - intros [pre [x [Hs [Hx Hfirst]]]]. subst sql.
    induction pre as [|c pre IH].
    + cbn [app]. destruct x as [|c x]; cbn [capture_word];
        now rewrite (capture_here_complete _ t Hx).
    + cbn [app capture_word].
      destruct (capture_word_here from_re (c :: pre ++ x)) as [w|] eqn:E.
      * apply capture_here_sound in E.
        elim (Hfirst [] (c :: pre) w); [reflexivity | discriminate | exact E].
      * apply IH. intros a b t' Hab Hb. apply (Hfirst (c :: a) b t'); [|exact Hb].
        now rewrite Hab.
Qed.


End FromTable.

(** X16. The FROM component of explainSQL: it is there exactly when some FROM
    of the query, in any letter case, has white space and a word after it,
    and its description names the word after the first such FROM, as far
    as word characters go and in the letter case of the query. *)
Theorem explainSQL_from_component (sql d : str) :
  In (comp "FROM"%string d) (components (explainSQL sql))
  <-> exists t, d = from_description t /\ first_from sql t.
Proof.
  rewrite explainSQL_components_eq. unfold findings.
  rewrite !map_app, !concat_app, !clause_finding_snd, !in_app_iff.
  assert (Hdml : ~ In (comp "FROM"%string d)
                     (concat (map snd (dml_finding sql)))).
  { unfold dml_finding.
    destruct (includes (toUpperCase sql) "SELECT"%string);
      [destruct (test select_star_re sql)|];
      [| |destruct (includes (toUpperCase sql) "INSERT"%string);
          [|destruct (includes (toUpperCase sql) "UPDATE"%string);
            [|destruct (includes (toUpperCase sql) "DELETE"%string)]]];
      cbn; intros H;
      repeat (destruct H as [H|H]; [discriminate H|]); exact H. }
  assert (Hcl : forall tag ds : str, tag <> ("FROM"%string : str) ->
            ~ In (comp "FROM"%string d)
                (if includes (toUpperCase sql) tag then [comp tag ds] else [])).
  { intros tag ds Hne. destruct (includes (toUpperCase sql) tag);
      [|intros []]. intros [H|[]]. apply (f_equal part) in H.
    apply Hne. exact H. }
  unfold from_finding. split.
  - intros [H|[H|H]]; [now elim Hdml | |].
    + destruct (capture_word from_re sql) as [t|] eqn:E; [|destruct H].
      destruct H as [H|[]]. apply (f_equal description) in H. cbn in H.
      exists t. split; [now symmetry|].
      now apply capture_first_from.
    + exfalso.
      repeat (destruct H as [H|H];
              [revert H; apply Hcl; intros E; apply str_eqb_eq in E;
               vm_compute in E; discriminate E|]).
      revert H; apply Hcl; intros E; apply str_eqb_eq in E;
        vm_compute in E; discriminate E.
  - intros [t [-> Ht]]. apply capture_first_from in Ht. rewrite Ht.
    right. left. now left.
Qed.

Section Explanation.











End Explanation.


Section PartsShape.

Lemma clause_tags_NoDup : NoDup clause_tags.
Proof.
  unfold clause_tags. cbn.
  repeat (constructor;
          [intros H; cbn in H;
           repeat (destruct H as [H|H];
                   [apply str_eqb_eq in H; vm_compute in H; discriminate H|]);
           exact H|]).
  constructor.
Qed.

Lemma not_clause_tag (x : str) (l : list str) :
  existsb (str_eqb x) clause_tags = false ->
  (forall y, In y l -> In y clause_tags) -> ~ In x l.
Proof.
  intros Hx Hl Hin. apply Hl in Hin. apply In_str in Hin. congruence.
Qed.

End PartsShape.

(** X18. The tags of the components of explainSQL: no tag comes twice, there
    are never more than eight, and the tag [SELECT *] only ever stands
    second, right after the tag SELECT. *)
Theorem explainSQL_parts_shape (sql : str) :
  NoDup (parts (explainSQL sql))
  /\ length (parts (explainSQL sql)) <= 8
  /\ (In ("SELECT *"%string : str) (parts (explainSQL sql)) ->
      exists rest,
        parts (explainSQL sql)
        = ("SELECT"%string : str) :: ("SELECT *"%string : str) :: rest).
Proof.
  rewrite explainSQL_parts.
  assert (Hnd : NoDup (filter (clause_present sql) clause_tags))
    by (apply NoDup_filter, clause_tags_NoDup).
  assert (Hin : forall y, In y (filter (clause_present sql) clause_tags) ->
                          In y clause_tags)
    by (intros y Hy; now apply filter_In in Hy).
  assert (Hlen : length (filter (clause_present sql) clause_tags) <= 6)
    by (apply (filter_length_le (clause_present sql) clause_tags)).
  revert Hnd Hin Hlen.
  generalize (filter (clause_present sql) clause_tags) as l. intros l Hnd Hin Hlen.
  unfold first_dml, star_part, dml_tags. cbn [strs map find].
  destruct (includes (toUpperCase sql) "SELECT"%string);
    [destruct (test select_star_re sql)|
     destruct (includes (toUpperCase sql) "INSERT"%string);
       [|destruct (includes (toUpperCase sql) "UPDATE"%string);
         [|destruct (includes (toUpperCase sql) "DELETE"%string)]]];
    cbn [andb opt_list app length];
    (split; [|split; [lia|]]);
    try (intros H;
         repeat (destruct H as [H|H];
                 [apply str_eqb_eq in H; vm_compute in H; discriminate H|]);
         try (exfalso; revert H; apply not_clause_tag; [reflexivity | exact Hin]);
         eauto);
    try exact Hnd;
    repeat (constructor;
            [intros H;
             repeat (destruct H as [H|H];
                     [apply str_eqb_eq in H; vm_compute in H; discriminate H|]);
             revert H; apply not_clause_tag; [reflexivity | exact Hin]|]);
    try exact Hnd.
Qed.

Lemma explainSQL_parts_shape_example :
  exists rest,
    parts (explainSQL "select * from t"%string)
    = ("SELECT"%string : str) :: ("SELECT *"%string : str) :: rest.
Proof.
  apply (proj2 (proj2 (explainSQL_parts_shape ("select * from t"%string : str)))).
  vm_compute. right. left. reflexivity.
Defined.

(** ** optimizeSQL: the rewritten query holds no NOT IN *)

Section NoNotIn.

Lemma optimized_eq (sql : str) :
  optimized (optimizeSQL sql)
  = if includes (toUpperCase sql) "NOT IN"%string
    then replace_all_i "NOT IN"%string "NOT EXISTS"%string sql
    else sql.
Proof.
  unfold optimizeSQL.
  now destruct (includes (toUpperCase sql) "NOT IN"%string).
Qed.

Lemma optimized_ReplacedAll (sql : str) :
  ReplacedAll "NOT IN"%string "NOT EXISTS"%string sql
    (optimized (optimizeSQL sql)).
Proof.
  rewrite optimized_eq.
  destruct (includes (toUpperCase sql) "NOT IN"%string) eqn:E.
  - apply replace_all_i_ReplacedAll. discriminate.
  - apply RA_none. intros H.
    apply (@includes_upper_iff ("NOT IN"%string : str) sql eq_refl) in H.
    congruence.
Qed.

Lemma occurs_ci_app_l (pat u w : str) :
  occurs_ci pat u -> occurs_ci pat (u ++ w).
Proof.
  intros [a [m [b [-> Hm]]]]. exists a, m, (b ++ w).
  split; [now rewrite <- !app_assoc | exact Hm].
Qed.

Lemma occurs_ci_app_r (pat w v : str) :
  occurs_ci pat v -> occurs_ci pat (w ++ v).
Proof.
  intros [a [m [b [-> Hm]]]]. exists (w ++ a), m, b.
  split; [now rewrite <- !app_assoc | exact Hm].
Qed.

(** An occurrence in two texts put together lies in one of them or
    across the seam. *)
Lemma occurs_ci_app (pat u v : str) :
  occurs_ci pat (u ++ v) ->
  occurs_ci pat u \/ occurs_ci pat v
  \/ exists u1 x y v2,
       u = u1 ++ x /\ v = y ++ v2 /\ x <> [] /\ y <> [] /\ eq_ci (x ++ y) pat.
Proof.
  intros [a [m [b [H Hm]]]].
  apply app_eq_app in H as [l [[-> H] | [-> ->]]].
  - symmetry in H. apply app_eq_app in H as [l2 [[-> ->] | [-> ->]]].
    + left. exists a, m, l2. split; [reflexivity | exact Hm].
    + destruct l as [|c l].
      * right. left. exists [], l2, b. split; [reflexivity | exact Hm].
      * destruct l2 as [|d l2].
        -- left. rewrite app_nil_r in Hm. exists a, (c :: l), [].
           split; [now rewrite app_nil_r | exact Hm].
        -- right. right. exists a, (c :: l), (d :: l2), b.
           repeat split; try discriminate. exact Hm.
  - right. left. exists l, m, b. split; [reflexivity | exact Hm].
Qed.

Lemma eq_ci_head (c : ascii) (x k : str) (d : ascii) :
  eq_ci (c :: x) (d :: k) -> upper c = upper d.
Proof. intros H. now apply eq_ci_cons in H. Qed.

Lemma not_in_rep_free :
  ~ occurs_ci "NOT IN"%string ("NOT EXISTS"%string : str).
Proof.
  intros H.
  apply (@includes_upper_iff ("NOT IN"%string : str)
           ("NOT EXISTS"%string : str) eq_refl) in H.
  discriminate H.
Qed.

(** No end of NOT EXISTS starts a NOT IN. *)
Lemma rep_end_no_start (u1 x y : str) :
  ("NOT EXISTS"%string : str) = u1 ++ x -> x <> [] -> y <> [] ->
  ~ eq_ci (x ++ y) "NOT IN"%string.
Proof.
  intros H Hx Hy Hci.
  pose proof (eq_ci_length Hci) as L. rewrite length_app in L.
  apply (f_equal (@length ascii)) in H as Hl. rewrite length_app in Hl.
  cbn in L, Hl.
  destruct y as [|y0 y]; [congruence|]. cbn in L.
  destruct x as [|c x]; [congruence|]. cbn in L, Hl.
  apply (eq_ci_head c (x ++ y0 :: y) ("OT IN"%string : str) "N"%char) in Hci.
  do 10 (destruct u1 as [|? u1];
         [cbn in H; inversion H; subst; cbn in *;
          first [lia | discriminate Hci]|]).
  cbn in Hl. lia.
Qed.

(** Only the first letter of NOT EXISTS ends a NOT IN. *)
Lemma rep_start_one_end (x y v2 out : str) :
  ("NOT EXISTS"%string : str) ++ out = y ++ v2 -> x <> [] -> y <> [] ->
  eq_ci (x ++ y) "NOT IN"%string ->
  exists c, y = [c] /\ upper c = "N"%char.
Proof.
  intros H Hx Hy Hci.
  pose proof (eq_ci_length Hci) as L. rewrite length_app in L. cbn in L.
  destruct x as [|x0 x]; [congruence|]. cbn in L.
  apply eq_ci_upper in Hci. unfold toUpperCase in Hci. rewrite map_app in Hci.
  destruct y as [|y1 y]; [congruence|].
  cbn in H. inversion H as [[Hy1 H']]. subst y1.
  destruct y as [|y2 y]; [now exists "N"%char|]. exfalso.
  inversion H' as [[Hy2 H'']]. subst y2.
  destruct y as [|y3 y].
  { do 3 (destruct x as [|? x]; [cbn in L; lia|]).
    destruct x; [|cbn in L; lia]. cbn in Hci. inversion Hci. }
  inversion H'' as [[Hy3 H3]]. subst y3.
  destruct y as [|y4 y].
  { do 2 (destruct x as [|? x]; [cbn in L; lia|]).
    destruct x; [|cbn in L; lia]. cbn in Hci. inversion Hci. }
  inversion H3 as [[Hy4 H4]]. subst y4.
  destruct y as [|y5 y].
  { destruct x as [|? x]; [cbn in L; lia|].
    destruct x; [|cbn in L; lia]. cbn in Hci. inversion Hci. }
  inversion H4 as [[Hy5 H5]]. subst y5.
  destruct y as [|y6 y].
  { destruct x as [|? x]; [|cbn in L; lia]. cbn in Hci. inversion Hci. }
  cbn in L. lia.
Qed.

Lemma replaced_no_not_in (s out : str) :
  ReplacedAll "NOT IN"%string "NOT EXISTS"%string s out ->
  ~ occurs_ci "NOT IN"%string out.
Proof.
  intros H. induction H as [s Hnone | pre m rest out Hm Hleft Hrest IH];
    [exact Hnone|].
  intros Hocc. apply occurs_ci_app in Hocc as [Hocc | [Hocc | Hocc]].
  - apply Hleft. now apply occurs_ci_app_l.
  - apply occurs_ci_app in Hocc as [Hocc | [Hocc | Hocc]].
    + now apply not_in_rep_free.
    + now apply IH.
    + destruct Hocc as [u1 [x [y [v2 [Hu [_ [Hx [Hy Hci]]]]]]]].
      now apply (rep_end_no_start u1 x y Hu Hx Hy).
  - destruct Hocc as [u1 [x [y [v2 [Hu [Hv [Hx [Hy Hci]]]]]]]].
    destruct (rep_start_one_end x y v2 out Hv Hx Hy Hci) as [c [-> Hc]].
    apply Hleft. subst pre.
    destruct m as [|m0 m]; [apply eq_ci_length in Hm; discriminate Hm|].
    assert (Hm0 : upper m0 = "N"%char)
      by (apply (eq_ci_cons m0 "N"%char m ("OT IN"%string : str)); exact Hm).
    assert (Hr : exists r, removelast (m0 :: m) = m0 :: r).
    { destruct m as [|m1 m]; [apply eq_ci_length in Hm; discriminate Hm|].
      now exists (removelast (m1 :: m)). }
    destruct Hr as [r ->].
    exists u1, (x ++ [m0]), r. split; [now rewrite <- !app_assoc|].
    apply eq_ci_upper. apply eq_ci_upper in Hci.
    unfold toUpperCase in *. rewrite map_app in *. cbn [map] in *.
    rewrite Hm0. rewrite Hc in Hci. exact Hci.
Qed.

End NoNotIn.

(** X19. The query that optimizeSQL returns holds no NOT IN, in any letter
    case; so optimizing it once more leaves it as it is. *)
Theorem optimizeSQL_no_not_in_left (sql : str) :
  ~ occurs_ci "NOT IN"%string (optimized (optimizeSQL sql))
  /\ optimized (optimizeSQL (optimized (optimizeSQL sql)))
     = optimized (optimizeSQL sql).
Proof.
  assert (H : ~ occurs_ci "NOT IN"%string (optimized (optimizeSQL sql)))
    by (apply (replaced_no_not_in sql), optimized_ReplacedAll).
  split; [exact H|].
  rewrite (optimized_eq (optimized (optimizeSQL sql))).
  destruct (includes (toUpperCase (optimized (optimizeSQL sql)))
              "NOT IN"%string) eqn:E; [|reflexivity].
  apply (@includes_upper_iff ("NOT IN"%string : str) _ eq_refl) in E.
  contradiction.
Qed.

(** ** optimizeSQL: the notes *)

Section Notes.














End Notes.




(** ** The scorers' preprocess stage: taking the query out of the reply *)

Section Extract.

Import Stages.

Lemma part_of_includes (p s : str) : part_of p s <-> includes s p = true.
Proof. unfold part_of. now rewrite includes_iff. Qed.

Lemma not_part_of (p s : str) : includes s p = false -> ~ part_of p s.
Proof. intros H Hp. apply part_of_includes in Hp. congruence. Qed.

Lemma lazy_until_eq (closing s : str) :
  lazy_until closing s
  = if startsWith closing s then Some []
    else match s with
         | [] => None
         | c :: s' => option_map (cons c) (lazy_until closing s')
         end.
Proof. destruct s; reflexivity. Qed.

Lemma fenced_eq (opening closing s : str) :
  fenced opening closing s
  = match fenced_here opening closing s with
    | Some body => Some body
    | None => match s with
              | [] => None
              | _ :: s' => fenced opening closing s'
              end
    end.
Proof. destruct s; reflexivity. Qed.

(** The lazy group takes the text up to the first [closing]. *)
Lemma lazy_until_sound (closing s b : str) :
  lazy_until closing s = Some b ->
  exists rest,
    s = b ++ closing ++ rest
    /\ forall b1 b2, b = b1 ++ b2 -> b2 <> [] ->
                     startsWith closing (b2 ++ closing ++ rest) = false.
Proof.
  revert b. induction s as [|c s IH]; intros b; rewrite lazy_until_eq.
  - destruct (startsWith closing []) eqn:E; [|discriminate].
    intros H. inversion H; subst.
    apply startsWith_iff in E as [post E]. exists post. split; [exact E|].
    intros b1 b2 Hb Hne. symmetry in Hb.
    apply app_eq_nil in Hb as [_ ->]. congruence.
  - destruct (startsWith closing (c :: s)) eqn:E.
    + intros H. inversion H; subst.
      apply startsWith_iff in E as [post E]. exists post. split; [exact E|].
      intros b1 b2 Hb Hne. symmetry in Hb.
      apply app_eq_nil in Hb as [_ ->]. congruence.
    + destruct (lazy_until closing s) as [b'|] eqn:L; [|discriminate].
      cbn [option_map]. intros H. inversion H; subst. clear H.
      destruct (IH b' eq_refl) as [rest [Hs Hmin]]. exists rest.
      split; [cbn; now rewrite Hs|].
      intros b1 b2 Hb Hne. destruct b1 as [|c1 b1].
      * cbn in Hb. subst b2. cbn [app]. now rewrite <- Hs.
      * inversion Hb; subst. now apply (Hmin b1 b2).
Qed.

Lemma lazy_until_complete (closing b rest : str) :
  (forall b1 b2, b = b1 ++ b2 -> b2 <> [] ->
                 startsWith closing (b2 ++ closing ++ rest) = false) ->
  lazy_until closing (b ++ closing ++ rest) = Some b.
Proof.
  induction b as [|c b IH]; intros Hmin; rewrite lazy_until_eq.
  - cbn [app].
    assert (E : startsWith closing (closing ++ rest) = true)
      by (apply startsWith_iff; now exists rest).
    now rewrite E.
  - rewrite (Hmin [] (c :: b) eq_refl) by discriminate.
    cbn [app]. rewrite IH; [reflexivity|].
    intros b1 b2 Hb Hne. apply (Hmin (c :: b1) b2); [|exact Hne].
    now rewrite Hb.
Qed.

(** A body without the closing fence: the closing fence after it is the
    first one. *)
Lemma no_close_inside (body rest : str) :
  ~ part_of fence_close body ->
  forall b1 b2, body = b1 ++ b2 -> b2 <> [] ->
                startsWith fence_close (b2 ++ fence_close ++ rest) = false.
Proof.
  intros Hno b1 b2 Hb Hne. apply not_true_is_false. intros E.
  apply startsWith_iff in E as [post E].
  destruct b2 as [|x [|y [|z [|w b2]]]]; [congruence | | | |];
    try (cbn in E; inversion E; subst; discriminate).
  cbn in E. inversion E; subst. apply Hno.
  exists b1, b2. reflexivity.
Qed.

Lemma lit_app (opening r : str) : lit opening (opening ++ r) = [r].
Proof.
  unfold lit. induction opening as [|c o IH]; [reflexivity|].
  cbn. now rewrite ascii_eqb_refl.
Qed.

Lemma lit_one (opening s : str) :
  lit opening s = [] \/ exists r, lit opening s = [r] /\ s = opening ++ r.
Proof.
  unfold lit. revert s. induction opening as [|c o IH]; intros s.
  - right. now exists s.
  - destruct s as [|d s]; [now left|]. cbn.
    destruct (ascii_eqb c d) eqn:E; [|now left].
    apply ascii_eqb_eq in E. subst d.
    destruct (IH s) as [H | [r [H ->]]]; [now left|].
    right. now exists r.
Qed.

Lemma fenced_sound (opening closing s b : str) :
  fenced opening closing s = Some b ->
  exists a rest,
    s = a ++ opening ++ b ++ closing ++ rest
    /\ forall b1 b2, b = b1 ++ b2 -> b2 <> [] ->
                     startsWith closing (b2 ++ closing ++ rest) = false.
Proof.
  assert (Hhere : forall s, fenced_here opening closing s = Some b ->
            exists rest,
              s = opening ++ b ++ closing ++ rest
              /\ forall b1 b2, b = b1 ++ b2 -> b2 <> [] ->
                     startsWith closing (b2 ++ closing ++ rest) = false).
  { intros s0 H. unfold fenced_here in H.
    destruct (lit_one opening s0) as [E | [r [E ->]]]; rewrite E in H;
      [discriminate|].
    apply lazy_until_sound in H as [rest [-> Hmin]]. now exists rest. }
  induction s as [|c s IH]; rewrite fenced_eq.
  - destruct (fenced_here opening closing []) eqn:E; [|discriminate].
    intros H. inversion H; subst.
    destruct (Hhere _ E) as [rest [Hs Hmin]]. now exists [], rest.
  - destruct (fenced_here opening closing (c :: s)) eqn:E.
    + intros H. inversion H; subst.
      destruct (Hhere _ E) as [rest [Hs Hmin]]. now exists [], rest.
    + intros H. destruct (IH H) as [a [rest [-> Hmin]]].
      now exists (c :: a), rest.
Qed.

Lemma fenced_body (opening closing s b : str) :
  closing <> [] -> fenced opening closing s = Some b ->
  part_of b s /\ part_of closing s /\ ~ part_of closing b.
Proof.
  intros Hc H. apply fenced_sound in H as [a [rest [-> Hmin]]].
  split; [|split].
  - exists (a ++ opening), (closing ++ rest). now rewrite <- !app_assoc.
  - exists (a ++ opening ++ b), rest. now rewrite <- !app_assoc.
  - intros [x [y Hb]].
    assert (E : startsWith closing ((closing ++ y) ++ closing ++ rest) = true)
      by (apply startsWith_iff; exists (y ++ closing ++ rest);
          now rewrite <- !app_assoc).
    rewrite (Hmin x (closing ++ y) Hb) in E; [discriminate|].
    destruct closing; [congruence | discriminate].
Qed.

Lemma fenced_none (opening closing s : str) :
  closing <> [] -> ~ part_of closing s -> fenced opening closing s = None.
Proof.
  intros Hc Hno. destruct (fenced opening closing s) as [b|] eqn:E;
    [|reflexivity].
  apply fenced_body in E as [_ [H _]]; [contradiction | exact Hc].
Qed.

Lemma fenced_none_open (opening closing s : str) :
  ~ part_of opening s -> fenced opening closing s = None.
Proof.
  intros Hno. destruct (fenced opening closing s) as [b|] eqn:E;
    [|reflexivity].
  apply fenced_sound in E as [a [rest [-> _]]].
  elim Hno. now exists a, (b ++ closing ++ rest).
Qed.

(** No opening fence starts before the end of [pre]. *)
Lemma no_earlier_opening (opening pre : str) :
  opening <> [] -> ~ part_of opening (pre ++ removelast opening) ->
  forall a b y, pre = a ++ b -> b <> [] -> lit opening (b ++ opening ++ y) = [].
Proof.
  intros Hne Hno a b y Hpre Hb.
  destruct (lit_one opening (b ++ opening ++ y)) as [E | [r [_ E]]];
    [exact E|].
  exfalso. apply Hno. subst pre.
  rewrite (app_removelast_last "000"%char Hne) in E at 1.
  rewrite <- app_assoc, app_assoc in E.
  assert (L : length opening <= length (b ++ removelast opening)).
  { rewrite length_app.
    pose proof (removelast_len Hne). destruct b; [congruence|]. cbn. lia. }
  apply app_eq_app in E as [l0 [[E _] | [E _]]].
  - exists a, l0. now rewrite <- app_assoc, E.
  - assert (l0 = []).
    { apply (f_equal (@length ascii)) in E. rewrite length_app in E.
      destruct l0; [reflexivity | cbn in E; lia]. }
    subst l0. rewrite app_nil_r in E. exists a, [].
    now rewrite <- app_assoc, <- E, app_nil_r.
Qed.

Lemma fenced_first (opening closing pre body rest : str) :
  (forall a b, pre = a ++ b -> b <> [] ->
               lit opening (b ++ opening ++ body ++ closing ++ rest) = []) ->
  (forall b1 b2, body = b1 ++ b2 -> b2 <> [] ->
                 startsWith closing (b2 ++ closing ++ rest) = false) ->
  fenced opening closing (pre ++ opening ++ body ++ closing ++ rest)
  = Some body.
Proof.
  intros Hpre Hmin. induction pre as [|c pre IH]; rewrite fenced_eq.
  - cbn [app]. unfold fenced_here. rewrite lit_app.
    now rewrite (lazy_until_complete closing body rest Hmin).
  - unfold fenced_here at 1.
    rewrite (Hpre [] (c :: pre) eq_refl) by discriminate.
    cbn [app]. apply IH. intros a b Hab Hb.
    apply (Hpre (c :: a) b); [now rewrite Hab | exact Hb].
Qed.

Lemma extract_sql_cases (text : str) :
  extract_sql text = text
  \/ exists opening,
       fenced opening fence_close text = Some (extract_sql text).
Proof.
  unfold extract_sql.
  destruct (fenced sql_open fence_close text) as [b|] eqn:E1.
  - right. now exists sql_open.
  - destruct (fenced plain_open fence_close text) as [b|] eqn:E2.
    + right. now exists plain_open.
    + now left.
Qed.

Lemma extract_sql_plain (text : str) :
  ~ part_of fence_close text -> extract_sql text = text.
Proof.
  intros H. unfold extract_sql.
  now rewrite !(fenced_none _ fence_close text) by (discriminate || exact H).
Qed.

End Extract.

(** X22. A reply that holds no line break followed by three backticks is taken
    as the query whole. *)
Theorem extract_sql_without_fence (text : str) :
  ~ part_of Stages.fence_close text -> Stages.extract_sql text = text.
Proof. apply extract_sql_plain. Qed.

Lemma extract_sql_without_fence_example :
  Stages.extract_sql "SELECT `id` FROM t"%string
  = ("SELECT `id` FROM t"%string : str).
Proof.
  apply (extract_sql_without_fence ("SELECT `id` FROM t"%string : str)).
  apply not_part_of. reflexivity.
Defined.

(** X23. The body of the first block fenced with [```sql] is what is taken out
    of a reply, whatever stands before and after the block, a block with a
    plain fence included: [pre] holds no opening [```sql] line that starts
    before its end, and [body] holds no closing fence. *)
Theorem extract_sql_sql_block (pre body post : str) :
  ~ part_of Stages.sql_open (pre ++ Stages.fence ++ ("sql"%string : str)) ->
  ~ part_of Stages.fence_close body ->
  Stages.extract_sql
    (pre ++ Stages.sql_open ++ body ++ Stages.fence_close ++ post)
  = body.
Proof.
  intros Hpre Hbody. unfold Stages.extract_sql.
  rewrite (fenced_first Stages.sql_open Stages.fence_close pre body post);
    [reflexivity | | now apply no_close_inside].
  intros a b Hab Hb.
  assert (Hne : Stages.sql_open <> []) by discriminate.
  exact (no_earlier_opening Stages.sql_open pre Hne Hpre a b _ Hab Hb).
Qed.

Lemma extract_sql_sql_block_example :
  Stages.extract_sql
    ((("Before:"%string : str) ++ nl :: Stages.plain_open
        ++ ("old"%string : str) ++ Stages.fence_close ++ [nl])
       ++ Stages.sql_open ++ ("SELECT 1"%string : str)
       ++ Stages.fence_close ++ (" done"%string : str))
  = ("SELECT 1"%string : str).
Proof.
  apply (extract_sql_sql_block
           (("Before:"%string : str) ++ nl :: Stages.plain_open
              ++ ("old"%string : str) ++ Stages.fence_close ++ [nl])
           ("SELECT 1"%string : str) (" done"%string : str));
    apply not_part_of; reflexivity.
Defined.

(** X24. Without any [```sql] line in the reply, the body of the first block
    with a plain fence is taken. *)
Theorem extract_sql_plain_block (pre body post : str) :
  ~ part_of Stages.sql_open
      (pre ++ Stages.plain_open ++ body ++ Stages.fence_close ++ post) ->
  ~ part_of Stages.plain_open (pre ++ Stages.fence) ->
  ~ part_of Stages.fence_close body ->
  Stages.extract_sql
    (pre ++ Stages.plain_open ++ body ++ Stages.fence_close ++ post)
  = body.
Proof.
  intros Hsql Hpre Hbody. unfold Stages.extract_sql.
  rewrite (fenced_none_open Stages.sql_open Stages.fence_close _ Hsql).
  rewrite (fenced_first Stages.plain_open Stages.fence_close pre body post);
    [reflexivity | | now apply no_close_inside].
  intros a b Hab Hb.
  assert (Hne : Stages.plain_open <> []) by discriminate.
  exact (no_earlier_opening Stages.plain_open pre Hne Hpre a b _ Hab Hb).
Qed.

Lemma extract_sql_plain_block_example :
  Stages.extract_sql
    (("Try: "%string : str) ++ Stages.plain_open
       ++ ("DELETE FROM t"%string : str) ++ Stages.fence_close ++ [nl])
  = ("DELETE FROM t"%string : str).
Proof.
  apply (extract_sql_plain_block ("Try: "%string : str)
           ("DELETE FROM t"%string : str) [nl]);
    apply not_part_of; reflexivity.
Defined.

(** X25. What is taken out of a reply is a part of the reply, and taking the
    query out of it once more changes nothing. *)
Theorem extract_sql_part_and_idempotent (text : str) :
  part_of (Stages.extract_sql text) text
  /\ Stages.extract_sql (Stages.extract_sql text) = Stages.extract_sql text.
Proof.
  destruct (extract_sql_cases text) as [E | [opening H]].
  - rewrite E. split; [exists [], []; now rewrite app_nil_r | exact E].
  - apply fenced_body in H as [Hpart [_ Hno]]; [|discriminate].
    split; [exact Hpart | now apply extract_sql_plain].
Qed.

(** ** The scores of the intent and the readability scorer *)

(** X26. For a verdict whose confidence keeps to the schema, the intent-match
    score lies between 0 and 1. *)
Theorem intentMatch_score_in_range (res : option IntentVerdict) :
  in_schema (intent_confidence (step_result empty_intent res)) ->
  in_unit_interval (intentMatch_generateScore res).
Proof.
  unfold intentMatch_generateScore, in_schema.
  destruct (truthy_bool (matchesIntent (step_result empty_intent res)));
    [|intros _; split; reflexivity].
  destruct (intent_confidence (step_result empty_intent res)) as [c|];
    [exact (fun H => H) | intros _; split; reflexivity].
Qed.

Lemma intentMatch_score_in_range_example :
  in_unit_interval
    (intentMatch_generateScore
       (Some {| matchesIntent := Some true;
                intent_confidence := Some 0.75%float;
                reasoning := None |})).
Proof.
  apply (intentMatch_score_in_range
           (Some {| matchesIntent := Some true;
                    intent_confidence := Some 0.75%float;
                    reasoning := None |})).
  split; reflexivity.
Defined.



(** ** The workflow step *)

Section Step.

Import Workflow.

Lemma read_stream_eq (chunks : list str) :
  read_stream chunks = (chunks, concat chunks).
Proof.
  unfold read_stream.
  assert (G : forall w t,
            fold_left (fun st chunk => (fst st ++ [chunk], snd st ++ chunk))
              chunks (w, t)
            = (w ++ chunks, t ++ concat chunks)).
  { induction chunks as [|c cs IH]; intros w t.
    - cbn. now rewrite !app_nil_r.
    - cbn [fold_left fst snd concat]. rewrite IH.
      now rewrite <- !app_assoc. }
  apply (G [] []).
Qed.

Lemma execute_returns (inputData : InputData) (agent : Agent)
  (mastra : option Mastra) :
  getAgent mastra = Some agent ->
  execute (Some inputData) mastra
  = (agent (prompt_of inputData),
     Returns
       {| sql := Stages.extract_sql (concat (agent (prompt_of inputData)));
          explanation := concat (agent (prompt_of inputData));
          response := concat (agent (prompt_of inputData)) |}).
Proof.
  intros H. unfold execute. rewrite H. now rewrite read_stream_eq.
Qed.

End Step.



(** X29. With input data and the agent, the step asks the agent once, with the
    prompt made from the input, and returns: the response and the
    explanation are both the chunks of the reply put together, the same
    chunks are what was written to the standard output, in their order,
    and the query is a part of the response. *)
Theorem workflow_execute_returns
  (inputData : Workflow.InputData) (agent : Workflow.Agent)
  (mastra : option Workflow.Mastra) :
  Workflow.getAgent mastra = Some agent ->
  exists out,
    Workflow.execute (Some inputData) mastra
    = (agent (Workflow.prompt_of inputData), Workflow.Returns out)
    /\ Workflow.response out = concat (agent (Workflow.prompt_of inputData))
    /\ Workflow.explanation out = Workflow.response out
    /\ Workflow.sql out = Stages.extract_sql (Workflow.response out)
    /\ part_of (Workflow.sql out) (Workflow.response out).
Proof.
  intros H. eexists. split; [apply (execute_returns inputData agent mastra H)|].
  cbn [Workflow.response Workflow.explanation Workflow.sql].
  repeat split.
  destruct (extract_sql_cases (concat (agent (Workflow.prompt_of inputData))))
    as [E | [opening E]].
  - rewrite E. exists [], []. now rewrite app_nil_r.
  - apply fenced_body in E as [Hp _]; [exact Hp | discriminate].
Qed.

Lemma workflow_execute_returns_example :
  exists out,
    Workflow.execute
      (Some {| Workflow.message := "list users"%string;
               Workflow.dialect := Some ("mysql"%string : str);
               Workflow.context := None |})
      (Some (fun _ => Some (fun _ =>
         [("SELECT *"%string : str); (" FROM users"%string : str)])))
    = ([("SELECT *"%string : str); (" FROM users"%string : str)],
       Workflow.Returns out)
    /\ Workflow.sql out = ("SELECT * FROM users"%string : str).
Proof.
  destruct (workflow_execute_returns
              {| Workflow.message := "list users"%string;
                 Workflow.dialect := Some ("mysql"%string : str);
                 Workflow.context := None |}
              (fun _ => [("SELECT *"%string : str); (" FROM users"%string : str)])
              (Some (fun _ => Some (fun _ =>
                 [("SELECT *"%string : str); (" FROM users"%string : str)])))
              eq_refl) as [out [H1 [H2 [_ [H4 _]]]]].
  exists out. split; [exact H1|]. rewrite H4, H2. reflexivity.
Defined.

(** X30. The prompt of the step starts with the message; it is the message
    alone exactly when neither a dialect nor a context is given (a missing
    and an empty one are the same); and a given dialect is named in upper
    case. *)
Theorem workflow_prompt (inputData : Workflow.InputData) :
  (exists rest,
     Workflow.prompt_of inputData = Workflow.message inputData ++ rest)
  /\ (Workflow.prompt_of inputData = Workflow.message inputData
      <-> ~ given (Workflow.dialect inputData)
          /\ ~ given (Workflow.context inputData))
  /\ (forall d, Workflow.dialect inputData = Some d -> d <> [] ->
      part_of (("Please use "%string : str) ++ toUpperCase d
                 ++ (" syntax."%string : str))
        (Workflow.prompt_of inputData)).
Proof.
  unfold Workflow.prompt_of, given.
  destruct inputData as [m d c]. cbn [Workflow.message Workflow.dialect
                                       Workflow.context].
  assert (Hnil : forall x : str, m ++ x = m -> x = []).
  { intros x H. rewrite <- (app_nil_r m) in H at 2.
    now apply app_inv_head in H. }
  split; [|split].
  - destruct d as [[|d0 d]|]; destruct c as [[|c0 c]|];
      rewrite <- ?app_assoc; eauto; exists []; now rewrite app_nil_r.
  - destruct d as [[|d0 d]|]; destruct c as [[|c0 c]|];
      rewrite <- ?app_assoc;
      (split;
       [ intros H; try (apply Hnil in H; discriminate H);
         split; intros [x [y E]]; discriminate E
       | intros [H1 H2]; try reflexivity;
         try (elim H1; now eexists _, _); try (elim H2; now eexists _, _) ]).
  - intros d' Hd Hne. inversion Hd; subst.
    destruct d' as [|d0 d]; [congruence|].
    destruct c as [[|c0 c]|].
    + exists (m ++ [nl; nl]), []. now rewrite <- !app_assoc, ?app_nil_r.
    + exists (m ++ [nl; nl]),
        ([nl; nl] ++ ("Additional context: "%string : str) ++ c0 :: c).
      now rewrite <- !app_assoc.
    + exists (m ++ [nl; nl]), []. now rewrite <- !app_assoc, ?app_nil_r.
Qed.

Lemma workflow_prompt_example :
  part_of ("Please use MYSQL syntax."%string : str)
    (Workflow.prompt_of
       {| Workflow.message := "list users"%string;
          Workflow.dialect := Some ("mysql"%string : str);
          Workflow.context := Some ("table users"%string : str) |}).
Proof.
  apply (proj2 (proj2 (workflow_prompt
           {| Workflow.message := "list users"%string;
              Workflow.dialect := Some ("mysql"%string : str);
              Workflow.context := Some ("table users"%string : str) |}))
           ("mysql"%string : str) eq_refl).
  discriminate.
Defined.
